(** * MELD restraint transformer: a shallow embedding and its properties

    This development embeds [meld/runner/transform/restraints/meld.py] in
    Rocq and proves properties of the restraint tracker, the restraint
    serializer ([_add_meld_restraint], [_update_restraints]), the
    active-count resolver ([_handle_num_active]), the precision decomposer
    ([_setup_precisions]) and the transformer that drives them.

    Python floats are IEEE binary64 values, modelled by Rocq's primitive
    floats; Python ints are [Z].  Exceptions are an explicit [result];
    mutation of the tracker and of the MeldForce object is threaded through a
    small state-and-exception monad in which the state survives a raise, as
    a mutated Python object does. *)

From Stdlib Require Import String ZArith List Lia Bool Floats.
Import ListNotations.

Set Warnings "-inexact-float".

(* ================================================================== *)
(** * Python values and exceptions *)
(* ================================================================== *)

(** The exceptions the module can raise.  [RuntimeError] is the one raised
    by [_add_meld_restraint] itself; the others come from the built-ins the
    module calls ([int], numpy indexing) and from unbound names. *)
Inductive exn : Type :=
| RuntimeError (msg : string)
| IndexError
| ValueError
| OverflowError
| UnboundLocalError (name : string)
| AttributeError (name : string).

Inductive result (A : Type) : Type :=
| Ok (a : A)
| Raise (e : exn).

Arguments Ok {A} a.
Arguments Raise {A} e.

Definition rbind {A B : Type} (r : result A) (k : A -> result B) : result B :=
  match r with
  | Ok a => k a
  | Raise e => Raise e
  end.

Declare Scope result_scope.
Delimit Scope result_scope with result.
Notation "x <-? e ;; k" := (rbind e (fun x => k))
  (at level 100, e at next level, right associativity) : result_scope.

(** A Python [for x in l: acc = body(acc, x)] in which the body may raise. *)
Fixpoint rfold {A B : Type} (body : B -> A -> result B) (l : list A) (acc : B)
  : result B :=
  match l with
  | [] => Ok acc
  | x :: l' => rbind (body acc x) (rfold body l')
  end.

(** [range(n)] and [range(a, n)] for an int [n]; a non-positive [n] gives the
    empty range. *)
Definition range (n : Z) : list nat := seq 0 (Z.to_nat n).

Definition range_from (a : nat) (n : Z) : list nat :=
  seq a (Z.to_nat n - a).

(** A numeric Python value: an int or a float. *)
Inductive number : Type :=
| NInt (z : Z)
| NFloat (f : float).

(** Magnitude of the float with mantissa [m] and exponent [e], rounded
    towards zero. *)
Definition trunc_magnitude (m : positive) (e : Z) : Z :=
  if (0 <=? e)%Z then Z.shiftl (Z.pos m) e else Z.shiftr (Z.pos m) (- e).

(** Python's [int(x)]: the identity on an int, truncation towards zero on a
    finite float, [OverflowError] on an infinity and [ValueError] on a NaN. *)
Definition py_int (x : number) : result Z :=
  match x with
  | NInt z => Ok z
  | NFloat f =>
      match Prim2SF f with
      | S754_zero _ => Ok 0%Z
      | S754_infinity _ => Raise OverflowError
      | S754_nan => Raise ValueError
      | S754_finite s m e =>
          Ok (if s then (- trunc_magnitude m e)%Z else trunc_magnitude m e)
      end
  end.

(* ================================================================== *)
(** * numpy arrays *)
(* ================================================================== *)

(** A two-dimensional array: its shape and its entries.  Entries outside the
    shape are never read: every access checks the shape first, as numpy
    does. *)
Module ndarray2.
Record t : Type := mk {
  nrows : nat;
  ncols : nat;
  item : nat -> nat -> float
}.

(** [a[:, j]]: column [j] as a sequence, [IndexError] when the array has no
    such column. *)
Definition column (a : t) (j : nat) : result (list float) :=
  if j <? ncols a then Ok (map (fun i => item a i j) (seq 0 (nrows a)))
  else Raise IndexError.

(** [list(a.flatten())]: the entries in row-major order. *)
Definition flatten (a : t) : list float :=
  flat_map (fun i => map (fun j => item a i j) (seq 0 (ncols a)))
           (seq 0 (nrows a)).
End ndarray2.

(** A three-dimensional array. *)
Module ndarray3.
Record t : Type := mk {
  dim0 : nat;
  dim1 : nat;
  dim2 : nat;
  item : nat -> nat -> nat -> float
}.

Definition shape (a : t) : nat * nat * nat := (dim0 a, dim1 a, dim2 a).

(** [a[i, j, k]] for non-negative indices. *)
Definition getitem (a : t) (i j k : nat) : result float :=
  if (i <? dim0 a) && (j <? dim1 a) && (k <? dim2 a)
  then Ok (item a i j k)
  else Raise IndexError.
End ndarray3.

(* ================================================================== *)
(** * The precision decomposer *)
(* ================================================================== *)

Local Open Scope result_scope.

(** [_setup_precisions(precisions, n_distances, n_conditions)]: two passes
    over the stack, each appending to a list. *)
Definition _setup_precisions (precisions : ndarray3.t)
  (n_distances n_conditions : Z) : result (list float * list float) :=
  diags <-? rfold (fun diags i =>
              rfold (fun diags j =>
                       x <-? ndarray3.getitem precisions i j j ;;
                       Ok (diags ++ [x]))
                    (range n_distances) diags)
            (range n_conditions) [] ;;
  off_diags <-? rfold (fun off_diags i =>
                  rfold (fun off_diags j =>
                           rfold (fun off_diags k =>
                                    x <-? ndarray3.getitem precisions i j k ;;
                                    Ok (off_diags ++ [x]))
                                 (range_from (S j) n_distances) off_diags)
                        (range n_distances) off_diags)
                (range n_conditions) [] ;;
  Ok (diags, off_diags).

Local Close Scope result_scope.

(* ================================================================== *)
(** * The restraint-definition model, as this module reads it *)
(* ================================================================== *)

(** [meld.system.restraints] is consumed through its fields only.  Every
    selectable restraint carries a [scaler] (a function of alpha) and a
    [ramp] (a function of the timestep). *)

Module DistanceRestraint.
Record t : Type := mk {
  atom_index_1 : Z;
  atom_index_2 : Z;
  r1 : float -> float;
  r2 : float -> float;
  r3 : float -> float;
  r4 : float -> float;
  k : float;
  scaler : float -> float;
  ramp : Z -> float
}.
End DistanceRestraint.

Module HyperbolicDistanceRestraint.
Record t : Type := mk {
  atom_index_1 : Z;
  atom_index_2 : Z;
  r1 : float;
  r2 : float;
  r3 : float;
  r4 : float;
  k : float;
  asymptote : float;
  scaler : float -> float;
  ramp : Z -> float
}.
End HyperbolicDistanceRestraint.

Module TorsionRestraint.
Record t : Type := mk {
  atom_index_1 : Z;
  atom_index_2 : Z;
  atom_index_3 : Z;
  atom_index_4 : Z;
  phi : float;
  delta_phi : float;
  k : float;
  scaler : float -> float;
  ramp : Z -> float
}.
End TorsionRestraint.

Module DistProfileRestraint.
Record t : Type := mk {
  atom_index_1 : Z;
  atom_index_2 : Z;
  r_min : float;
  r_max : float;
  n_bins : Z;
  spline_params : ndarray2.t;
  scale_factor : float;
  scaler : float -> float;
  ramp : Z -> float
}.
End DistProfileRestraint.

Module TorsProfileRestraint.
Record t : Type := mk {
  atom_index_1 : Z;
  atom_index_2 : Z;
  atom_index_3 : Z;
  atom_index_4 : Z;
  atom_index_5 : Z;
  atom_index_6 : Z;
  atom_index_7 : Z;
  atom_index_8 : Z;
  n_bins : Z;
  spline_params : ndarray2.t;
  scale_factor : float;
  scaler : float -> float;
  ramp : Z -> float
}.
End TorsProfileRestraint.

Module GMMDistanceRestraint.
Record t : Type := mk {
  n_distances : Z;
  n_components : Z;
  atoms : list Z;
  weights : list float;
  means : ndarray2.t;
  precisions : ndarray3.t;
  scaler : float -> float;
  ramp : Z -> float
}.
End GMMDistanceRestraint.

(** A selectable restraint: one of the six kinds this transformer knows, or
    a selectable restraint of another class. *)
Inductive SelectableRestraint : Type :=
| Distance (r : DistanceRestraint.t)
| HyperbolicDistance (r : HyperbolicDistanceRestraint.t)
| Torsion (r : TorsionRestraint.t)
| DistProfile (r : DistProfileRestraint.t)
| TorsProfile (r : TorsProfileRestraint.t)
| GMMDistance (r : GMMDistanceRestraint.t)
| OtherSelectable (class_name : string)
                  (scaler : float -> float) (ramp : Z -> float).

(** A restraint of the universe handed to the constructor. *)
Inductive Restraint : Type :=
| Selectable (r : SelectableRestraint)
| NonSelectable (class_name : string).

(** [rest.scaler] and [rest.ramp]. *)
Definition scaler (rest : SelectableRestraint) : float -> float :=
  match rest with
  | Distance r => DistanceRestraint.scaler r
  | HyperbolicDistance r => HyperbolicDistanceRestraint.scaler r
  | Torsion r => TorsionRestraint.scaler r
  | DistProfile r => DistProfileRestraint.scaler r
  | TorsProfile r => TorsProfileRestraint.scaler r
  | GMMDistance r => GMMDistanceRestraint.scaler r
  | OtherSelectable _ s _ => s
  end.

Definition ramp (rest : SelectableRestraint) : Z -> float :=
  match rest with
  | Distance r => DistanceRestraint.ramp r
  | HyperbolicDistance r => HyperbolicDistanceRestraint.ramp r
  | Torsion r => TorsionRestraint.ramp r
  | DistProfile r => DistProfileRestraint.ramp r
  | TorsProfile r => TorsProfileRestraint.ramp r
  | GMMDistance r => GMMDistanceRestraint.ramp r
  | OtherSelectable _ _ r => r
  end.

(** [param_sampling.Parameter]: a handle into the sampler's state. *)
Record SampledParameter : Type := { param_index : nat }.

Definition ParameterState : Type := list number.

(** [num_active]: a literal int, or a reference to a sampled parameter. *)
Inductive num_active_t : Type :=
| Literal (n : Z)
| Sampled (p : SampledParameter).

Module RestraintGroup.
Record t : Type := mk {
  restraints : list SelectableRestraint;
  num_active : num_active_t
}.
End RestraintGroup.

Module SelectivelyActiveCollection.
Record t : Type := mk {
  groups : list RestraintGroup.t;
  num_active : num_active_t
}.
End SelectivelyActiveCollection.

(** The parameter-sampling collaborator. *)
Module ParameterManager.
Record t : Type := mk {
  extract_value : SampledParameter -> ParameterState -> number
}.
End ParameterManager.

(** The simulation state, of which only [.parameters] is read. *)
Module IState.
Record t : Type := mk {
  parameters : ParameterState
}.
End IState.

Definition RunOptions : Type := unit.
Definition Topology : Type := unit.

Module Simulation.
Record t : Type := mk { context : nat }.
End Simulation.

(* ================================================================== *)
(** * The MeldForce boundary *)
(* ================================================================== *)

(** The methods of [meldplugin.MeldForce] this module calls. *)
Inductive method : Type :=
| addDistanceRestraint
| addHyperbolicDistanceRestraint
| addTorsionRestraint
| addDistProfileRestraint
| addTorsProfileRestraint
| addGMMRestraint
| addGroup
| addCollection
| modifyDistanceRestraint
| modifyHyperbolicDistanceRestraint
| modifyTorsionRestraint
| modifyDistProfileRestraint
| modifyTorsProfileRestraint
| modifyGMMRestraint
| modifyGroupNumActive
| modifyCollectionNumActive
| updateParametersInContext.

(** A positional argument of a call. *)
Inductive arg : Type :=
| AInt (z : Z)
| AFloat (f : float)
| AIntList (l : list Z)
| AFloatList (l : list float)
| AContext (c : nat).

Record call : Type := Call { meth : method; args : list arg }.

(** A MeldForce object is observed through the calls made on it, in the
    order they were made. *)
Definition MeldForce : Type := list call.

Definition is_restraint_creation (m : method) : bool :=
  match m with
  | addDistanceRestraint | addHyperbolicDistanceRestraint
  | addTorsionRestraint | addDistProfileRestraint
  | addTorsProfileRestraint | addGMMRestraint => true
  | _ => false
  end.

Definition method_eqb (m1 m2 : method) : bool :=
  match m1, m2 with
  | addDistanceRestraint, addDistanceRestraint
  | addHyperbolicDistanceRestraint, addHyperbolicDistanceRestraint
  | addTorsionRestraint, addTorsionRestraint
  | addDistProfileRestraint, addDistProfileRestraint
  | addTorsProfileRestraint, addTorsProfileRestraint
  | addGMMRestraint, addGMMRestraint
  | addGroup, addGroup
  | addCollection, addCollection
  | modifyDistanceRestraint, modifyDistanceRestraint
  | modifyHyperbolicDistanceRestraint, modifyHyperbolicDistanceRestraint
  | modifyTorsionRestraint, modifyTorsionRestraint
  | modifyDistProfileRestraint, modifyDistProfileRestraint
  | modifyTorsProfileRestraint, modifyTorsProfileRestraint
  | modifyGMMRestraint, modifyGMMRestraint
  | modifyGroupNumActive, modifyGroupNumActive
  | modifyCollectionNumActive, modifyCollectionNumActive
  | updateParametersInContext, updateParametersInContext => true
  | _, _ => false
  end.

(** The calls of one method, in call order. *)
Definition calls_of (m : method) (f : MeldForce) : list call :=
  filter (fun c => method_eqb (meth c) m) f.

(** The engine numbers what it creates from 0, in creation order:
    restraints of all kinds share one numbering, groups have their own and
    so have collections.  A creation call returns the number it assigned. *)
Definition n_restraints (f : MeldForce) : nat :=
  length (filter (fun c => is_restraint_creation (meth c)) f).

Definition n_groups (f : MeldForce) : nat := length (calls_of addGroup f).

Definition n_collections (f : MeldForce) : nat :=
  length (calls_of addCollection f).

(** The update method that goes with a creation method. *)
Definition modify_of (m : method) : method :=
  match m with
  | addDistanceRestraint => modifyDistanceRestraint
  | addHyperbolicDistanceRestraint => modifyHyperbolicDistanceRestraint
  | addTorsionRestraint => modifyTorsionRestraint
  | addDistProfileRestraint => modifyDistProfileRestraint
  | addTorsProfileRestraint => modifyTorsProfileRestraint
  | addGMMRestraint => modifyGMMRestraint
  | addGroup => modifyGroupNumActive
  | addCollection => modifyCollectionNumActive
  | m' => m'
  end.

(** [num_active] of every group the engine holds, by group number: a group
    is created with a count, and [modifyGroupNumActive(i, n)] replaces the
    count of group [i]. *)
Fixpoint set_nth {A : Type} (i : nat) (x : A) (l : list A) : list A :=
  match l, i with
  | [], _ => []
  | _ :: l', O => x :: l'
  | y :: l', S i' => y :: set_nth i' x l'
  end.

Definition apply_count (create modify : method) (counts : list Z) (c : call)
  : list Z :=
  if method_eqb (meth c) create then
    match args c with
    | [_; AInt n] => counts ++ [n]
    | _ => counts
    end
  else if method_eqb (meth c) modify then
    match args c with
    | [AInt i; AInt n] => set_nth (Z.to_nat i) n counts
    | _ => counts
    end
  else counts.

Definition group_counts (f : MeldForce) : list Z :=
  fold_left (apply_count addGroup modifyGroupNumActive) f [].

Definition collection_counts (f : MeldForce) : list Z :=
  fold_left (apply_count addCollection modifyCollectionNumActive) f [].

(* ================================================================== *)
(** * State and exceptions *)
(* ================================================================== *)

(** A computation over a mutable state [S] that returns an [A] or raises.
    The state reached is returned in both cases. *)
Definition M (S A : Type) : Type := S -> S * result A.

Definition ret {S A : Type} (a : A) : M S A := fun s => (s, Ok a).

Definition raise {S A : Type} (e : exn) : M S A := fun s => (s, Raise e).

Definition bind {S A B : Type} (m : M S A) (k : A -> M S B) : M S B :=
  fun s =>
    match m s with
    | (s', Ok a) => k a s'
    | (s', Raise e) => (s', Raise e)
    end.

Definition lift {S A : Type} (r : result A) : M S A := fun s => (s, r).

Declare Scope monad_scope.
Delimit Scope monad_scope with monad.
Notation "x <- e ;; k" := (bind e (fun x => k))
  (at level 100, e at next level, right associativity) : monad_scope.
Notation "e ;;; k" := (bind e (fun _ => k))
  (at level 100, right associativity) : monad_scope.

Local Open Scope monad_scope.

(** [for x in l: body(x)]. *)
Fixpoint mfor {S A : Type} (body : A -> M S unit) (l : list A) : M S unit :=
  match l with
  | [] => ret tt
  | x :: l' => body x ;;; mfor body l'
  end.

(** [for x in l: acc = body(acc, x)], for the locals a loop updates. *)
Fixpoint mfold {S A B : Type} (body : B -> A -> M S B) (l : list A) (acc : B)
  : M S B :=
  match l with
  | [] => ret acc
  | x :: l' => acc' <- body acc x ;; mfold body l' acc'
  end.

(** [enumerate(l)]. *)
Definition enumerate {A : Type} (l : list A) : list (nat * A) :=
  combine (seq 0 (length l)) l.

(** [[f(x) for x in l]] when [f] may raise. *)
Fixpoint rmap {A B : Type} (f : A -> result B) (l : list A) : result (list B) :=
  match l with
  | [] => Ok []
  | x :: l' => rbind (f x) (fun y => rbind (rmap f l') (fun ys => Ok (y :: ys)))
  end.

(* ================================================================== *)
(** * The tracker *)
(* ================================================================== *)

(** [_RestraintTracker]: one list per restraint kind, one of groups and one
    of collections; [None] stands for a group or collection that is never
    updated. *)
Module _RestraintTracker.
Record t : Type := mk {
  distance_restraints : list DistanceRestraint.t;
  hyperbolic_distance_restraints : list HyperbolicDistanceRestraint.t;
  torsion_restraints : list TorsionRestraint.t;
  dist_prof_restraints : list DistProfileRestraint.t;
  torsion_profile_restraints : list TorsProfileRestraint.t;
  gmm_restraints : list GMMDistanceRestraint.t;
  groups : list (option RestraintGroup.t);
  collections : list (option SelectivelyActiveCollection.t)
}.

Definition __init__ : t := mk [] [] [] [] [] [] [] [].
End _RestraintTracker.

Import _RestraintTracker.

(** What registration mutates: the tracker and the MeldForce under
    construction. *)
Record world : Type := World {
  w_tracker : _RestraintTracker.t;
  w_force : MeldForce
}.

Definition on_tracker (g : _RestraintTracker.t -> _RestraintTracker.t)
  : M world unit :=
  fun w => (World (g (w_tracker w)) (w_force w), Ok tt).

(** The tracker with [x] appended to one of its lists. *)
Definition push_distance (r : DistanceRestraint.t) (t : _RestraintTracker.t)
  : _RestraintTracker.t :=
  mk (distance_restraints t ++ [r]) (hyperbolic_distance_restraints t)
     (torsion_restraints t) (dist_prof_restraints t)
     (torsion_profile_restraints t) (gmm_restraints t)
     (groups t) (collections t).

Definition push_hyperbolic (r : HyperbolicDistanceRestraint.t)
  (t : _RestraintTracker.t) : _RestraintTracker.t :=
  mk (distance_restraints t) (hyperbolic_distance_restraints t ++ [r])
     (torsion_restraints t) (dist_prof_restraints t)
     (torsion_profile_restraints t) (gmm_restraints t)
     (groups t) (collections t).

Definition push_torsion (r : TorsionRestraint.t) (t : _RestraintTracker.t)
  : _RestraintTracker.t :=
  mk (distance_restraints t) (hyperbolic_distance_restraints t)
     (torsion_restraints t ++ [r]) (dist_prof_restraints t)
     (torsion_profile_restraints t) (gmm_restraints t)
     (groups t) (collections t).

Definition push_dist_prof (r : DistProfileRestraint.t)
  (t : _RestraintTracker.t) : _RestraintTracker.t :=
  mk (distance_restraints t) (hyperbolic_distance_restraints t)
     (torsion_restraints t) (dist_prof_restraints t ++ [r])
     (torsion_profile_restraints t) (gmm_restraints t)
     (groups t) (collections t).

Definition push_torsion_profile (r : TorsProfileRestraint.t)
  (t : _RestraintTracker.t) : _RestraintTracker.t :=
  mk (distance_restraints t) (hyperbolic_distance_restraints t)
     (torsion_restraints t) (dist_prof_restraints t)
     (torsion_profile_restraints t ++ [r]) (gmm_restraints t)
     (groups t) (collections t).

Definition push_gmm (r : GMMDistanceRestraint.t) (t : _RestraintTracker.t)
  : _RestraintTracker.t :=
  mk (distance_restraints t) (hyperbolic_distance_restraints t)
     (torsion_restraints t) (dist_prof_restraints t)
     (torsion_profile_restraints t) (gmm_restraints t ++ [r])
     (groups t) (collections t).

Definition push_group (g : option RestraintGroup.t) (t : _RestraintTracker.t)
  : _RestraintTracker.t :=
  mk (distance_restraints t) (hyperbolic_distance_restraints t)
     (torsion_restraints t) (dist_prof_restraints t)
     (torsion_profile_restraints t) (gmm_restraints t)
     (groups t ++ [g]) (collections t).

Definition push_collection (c : option SelectivelyActiveCollection.t)
  (t : _RestraintTracker.t) : _RestraintTracker.t :=
  mk (distance_restraints t) (hyperbolic_distance_restraints t)
     (torsion_restraints t) (dist_prof_restraints t)
     (torsion_profile_restraints t) (gmm_restraints t)
     (groups t) (collections t ++ [c]).

(** [tracker.<list>.append(x)], one per list. *)
Definition append_distance (r : DistanceRestraint.t) : M world unit :=
  on_tracker (push_distance r).

Definition append_hyperbolic (r : HyperbolicDistanceRestraint.t)
  : M world unit :=
  on_tracker (push_hyperbolic r).

Definition append_torsion (r : TorsionRestraint.t) : M world unit :=
  on_tracker (push_torsion r).

Definition append_dist_prof (r : DistProfileRestraint.t) : M world unit :=
  on_tracker (push_dist_prof r).

Definition append_torsion_profile (r : TorsProfileRestraint.t)
  : M world unit :=
  on_tracker (push_torsion_profile r).

Definition append_gmm (r : GMMDistanceRestraint.t) : M world unit :=
  on_tracker (push_gmm r).

Definition append_group (g : option RestraintGroup.t) : M world unit :=
  on_tracker (push_group g).

Definition append_collection (c : option SelectivelyActiveCollection.t)
  : M world unit :=
  on_tracker (push_collection c).

(** A creation call on the MeldForce under construction; it returns the
    number the engine assigned. *)
Definition create (count : MeldForce -> nat) (m : method) (a : list arg)
  : M world Z :=
  fun w =>
    (World (w_tracker w) (w_force w ++ [Call m a]),
     Ok (Z.of_nat (count (w_force w)))).

Definition create_restraint : method -> list arg -> M world Z :=
  create n_restraints.

(** [meld_force.addGroup(restraint_indices, num_active)]. *)
Definition meld_force_addGroup (restraint_indices : list Z) (num_active : Z)
  : M world Z :=
  create n_groups addGroup [AIntList restraint_indices; AInt num_active].

(** [meld_force.addCollection(group_indices, num_active)]. *)
Definition meld_force_addCollection (group_indices : list Z) (num_active : Z)
  : M world Z :=
  create n_collections addCollection [AIntList group_indices; AInt num_active].

(* ================================================================== *)
(** * The restraint serializer: registration *)
(* ================================================================== *)

Local Open Scope float_scope.

(** [_add_meld_restraint(tracker, rest, meld_force, alpha, timestep)].  The
    tracker and the force are the two objects of [world]. *)
Definition _add_meld_restraint (rest : SelectableRestraint) (alpha : float)
  (timestep : Z) : M world Z :=
  let scale := scaler rest alpha * ramp rest timestep in
  match rest with
  | Distance rest =>
      rest_index <- create_restraint addDistanceRestraint
        [ AInt (DistanceRestraint.atom_index_1 rest);
          AInt (DistanceRestraint.atom_index_2 rest);
          AFloat (DistanceRestraint.r1 rest alpha);
          AFloat (DistanceRestraint.r2 rest alpha);
          AFloat (DistanceRestraint.r3 rest alpha);
          AFloat (DistanceRestraint.r4 rest alpha);
          AFloat (DistanceRestraint.k rest * scale) ] ;;
      append_distance rest ;;;
      ret rest_index
  | HyperbolicDistance rest =>
      rest_index <- create_restraint addHyperbolicDistanceRestraint
        [ AInt (HyperbolicDistanceRestraint.atom_index_1 rest);
          AInt (HyperbolicDistanceRestraint.atom_index_2 rest);
          AFloat (HyperbolicDistanceRestraint.r1 rest);
          AFloat (HyperbolicDistanceRestraint.r2 rest);
          AFloat (HyperbolicDistanceRestraint.r3 rest);
          AFloat (HyperbolicDistanceRestraint.r4 rest);
          AFloat (HyperbolicDistanceRestraint.k rest * scale);
          AFloat (HyperbolicDistanceRestraint.asymptote rest * scale) ] ;;
      append_hyperbolic rest ;;;
      ret rest_index
  | Torsion rest =>
      rest_index <- create_restraint addTorsionRestraint
        [ AInt (TorsionRestraint.atom_index_1 rest);
          AInt (TorsionRestraint.atom_index_2 rest);
          AInt (TorsionRestraint.atom_index_3 rest);
          AInt (TorsionRestraint.atom_index_4 rest);
          AFloat (TorsionRestraint.phi rest);
          AFloat (TorsionRestraint.delta_phi rest);
          AFloat (TorsionRestraint.k rest * scale) ] ;;
      append_torsion rest ;;;
      ret rest_index
  | DistProfile rest =>
      cols <- lift (rmap (ndarray2.column (DistProfileRestraint.spline_params rest))
                         [0; 1; 2; 3]%nat) ;;
      rest_index <- create_restraint addDistProfileRestraint
        ([ AInt (DistProfileRestraint.atom_index_1 rest);
           AInt (DistProfileRestraint.atom_index_2 rest);
           AFloat (DistProfileRestraint.r_min rest);
           AFloat (DistProfileRestraint.r_max rest);
           AInt (DistProfileRestraint.n_bins rest) ]
         ++ map AFloatList cols
         ++ [ AFloat (DistProfileRestraint.scale_factor rest * scale) ]) ;;
      append_dist_prof rest ;;;
      ret rest_index
  | TorsProfile rest =>
      cols <- lift (rmap (ndarray2.column (TorsProfileRestraint.spline_params rest))
                         [0; 1; 2; 3; 4; 5; 6; 7;
                          8; 9; 10; 11; 12; 13; 14; 15]%nat) ;;
      rest_index <- create_restraint addTorsProfileRestraint
        ([ AInt (TorsProfileRestraint.atom_index_1 rest);
           AInt (TorsProfileRestraint.atom_index_2 rest);
           AInt (TorsProfileRestraint.atom_index_3 rest);
           AInt (TorsProfileRestraint.atom_index_4 rest);
           AInt (TorsProfileRestraint.atom_index_5 rest);
           AInt (TorsProfileRestraint.atom_index_6 rest);
           AInt (TorsProfileRestraint.atom_index_7 rest);
           AInt (TorsProfileRestraint.atom_index_8 rest);
           AInt (TorsProfileRestraint.n_bins rest) ]
         ++ map AFloatList cols
         ++ [ AFloat (TorsProfileRestraint.scale_factor rest * scale) ]) ;;
      append_torsion_profile rest ;;;
      ret rest_index
  | GMMDistance rest =>
      let nd := GMMDistanceRestraint.n_distances rest in
      let nc := GMMDistanceRestraint.n_components rest in
      let w := GMMDistanceRestraint.weights rest in
      let m := ndarray2.flatten (GMMDistanceRestraint.means rest) in
      d_o <- lift (_setup_precisions (GMMDistanceRestraint.precisions rest) nd nc) ;;
      rest_index <- create_restraint addGMMRestraint
        [ AInt nd; AInt nc; AFloat scale;
          AIntList (GMMDistanceRestraint.atoms rest);
          AFloatList w; AFloatList m;
          AFloatList (fst d_o); AFloatList (snd d_o) ] ;;
      append_gmm rest ;;;
      ret rest_index
  | OtherSelectable class_name _ _ =>
      raise (RuntimeError ("Do not know how to handle restraint " ++ class_name))
  end.

Local Close Scope float_scope.

(* ================================================================== *)
(** * The transformer *)
(* ================================================================== *)

(** An [openmm.System], of which only the list of forces matters here. *)
Inductive Force : Type :=
| MeldForceObject (f : MeldForce)
| OtherForce (name : string).

Definition System : Type := list Force.

Definition addForce (system : System) (f : MeldForce) : System :=
  system ++ [MeldForceObject f].

(** [MeldRestraintTransformer].  The attribute [force] does not exist until
    [add_interactions] sets it. *)
Module MeldRestraintTransformer.
Record t : Type := mk {
  param_manager : ParameterManager.t;
  tracker : _RestraintTracker.t;
  always_on : list SelectableRestraint;
  selective_on : list SelectivelyActiveCollection.t;
  active : bool;
  force : option MeldForce
}.
End MeldRestraintTransformer.

Import MeldRestraintTransformer.

Definition is_selectable (r : Restraint) : bool :=
  match r with
  | Selectable _ => true
  | NonSelectable _ => false
  end.

(** [[r for r in l if isinstance(r, restraints.SelectableRestraint)]]. *)
Fixpoint selectable_of (l : list Restraint) : list SelectableRestraint :=
  match l with
  | [] => []
  | Selectable r :: l' => r :: selectable_of l'
  | NonSelectable _ :: l' => selectable_of l'
  end.

(** Modelled from the spec: [_delete_from_always_active] of
    [meld.runner.transform.restraints.util] is not part of the sources at
    hand.  The constructor "mutat[es] the caller-owned input lists by
    removing what it claims": the claimed restraints are the selectable ones,
    so what stays in the caller's list are the others, in their order. *)
Definition _delete_from_always_active (claimed : list SelectableRestraint)
  (always_active_restraints : list Restraint) : list Restraint :=
  filter (fun r => negb (is_selectable r)) always_active_restraints.

(** [bool(l)] for a list. *)
Definition truthy {A : Type} (l : list A) : bool :=
  match l with
  | [] => false
  | _ :: _ => true
  end.

(** [MeldRestraintTransformer.__init__].  It returns the new object and what
    it leaves in the two lists of the caller.  Every collection is removed
    from [selectively_active_restraints]. *)
Definition __init__ (param_manager : ParameterManager.t) (options : RunOptions)
  (always_active_restraints : list Restraint)
  (selectively_active_restraints : list SelectivelyActiveCollection.t)
  : MeldRestraintTransformer.t * list Restraint
    * list SelectivelyActiveCollection.t :=
  let tracker := _RestraintTracker.__init__ in
  let always_on := selectable_of always_active_restraints in
  let always_active_restraints' :=
    _delete_from_always_active always_on always_active_restraints in
  let selective_on := selectively_active_restraints in
  let selectively_active_restraints' : list SelectivelyActiveCollection.t :=
    [] in
  let active := if truthy always_on || truthy selective_on then true else false in
  (MeldRestraintTransformer.mk param_manager tracker always_on selective_on
     active None,
   always_active_restraints', selectively_active_restraints').

(** [_handle_num_active(self, value, state)]. *)
Definition _handle_num_active (self : MeldRestraintTransformer.t)
  (value : num_active_t) (state : IState.t) : result Z :=
  match value with
  | Sampled value =>
      py_int (ParameterManager.extract_value (param_manager self) value
                (IState.parameters state))
  | Literal value => Ok value
  end.

(** The body of [for rest in self.always_on:], with the local
    [group_list] it appends to. *)
Definition add_always_on_rest (group_list : list Z)
  (rest : SelectableRestraint) : M world (list Z) :=
  rest_index <- _add_meld_restraint rest 0%float 0%Z ;;
  group_index <- meld_force_addGroup [rest_index] 1 ;;
  append_group None ;;;
  ret (group_list ++ [group_index]).

(** The always-on part of [add_interactions] (the body of
    [if self.always_on:]). *)
Definition add_always_on (self : MeldRestraintTransformer.t) : M world unit :=
  group_list <- mfold add_always_on_rest (always_on self) [] ;;
  meld_force_addCollection group_list (Z.of_nat (length group_list)) ;;;
  append_collection None.

(** The body of [for rest in group.restraints:], with the local
    [restraint_indices]. *)
Definition add_group_rest (restraint_indices : list Z)
  (rest : SelectableRestraint) : M world (list Z) :=
  rest_index <- _add_meld_restraint rest 0%float 0%Z ;;
  ret (restraint_indices ++ [rest_index]).

(** The body of [for group in coll.groups:].  Its locals are
    [group_indices] and the loop variable [group] itself, which is a local
    of [add_interactions]: unbound until a group has been visited, and
    naming the last group visited ever after. *)
Definition add_group (self : MeldRestraintTransformer.t) (state : IState.t)
  (locals : list Z * option RestraintGroup.t) (group : RestraintGroup.t)
  : M world (list Z * option RestraintGroup.t) :=
  restraint_indices <-
    mfold add_group_rest (RestraintGroup.restraints group) [] ;;
  group_num_active <-
    lift (_handle_num_active self (RestraintGroup.num_active group) state) ;;
  group_index <- meld_force_addGroup restraint_indices group_num_active ;;
  append_group (Some group) ;;;
  ret (fst locals ++ [group_index], Some group).

(** The body of [for coll in self.selective_on:]; it is entered and left
    with the current binding of [group]. *)
Definition add_collection (self : MeldRestraintTransformer.t)
  (state : IState.t) (group_var : option RestraintGroup.t)
  (coll : SelectivelyActiveCollection.t)
  : M world (option RestraintGroup.t) :=
  locals <- mfold (add_group self state)
              (SelectivelyActiveCollection.groups coll) ([], group_var) ;;
  let group_indices := fst locals in
  group <- match snd locals with
           | Some group => ret group
           | None => raise (UnboundLocalError "group")
           end ;;
  coll_num_active <-
    lift (_handle_num_active self (RestraintGroup.num_active group) state) ;;
  meld_force_addCollection group_indices coll_num_active ;;;
  append_collection (Some coll) ;;;
  ret (snd locals).

(** The selectively active part of [add_interactions]. *)
Definition add_selective_on (self : MeldRestraintTransformer.t)
  (state : IState.t) : M world unit :=
  mfold (add_collection self state) (selective_on self) None ;;;
  ret tt.

(** Everything [add_interactions] does to the tracker and to the new
    MeldForce when the transformer is active. *)
Definition register_all (self : MeldRestraintTransformer.t) (state : IState.t)
  : M world unit :=
  (if truthy (always_on self) then add_always_on self else ret tt) ;;;
  add_selective_on self state.

(** [add_interactions(self, state, system, topology)].  It returns the
    transformer and the system as the call leaves them, and the returned
    system or the exception raised.  When an exception is raised the new
    MeldForce is dropped, the tracker keeps what was appended to it. *)
Definition add_interactions (self : MeldRestraintTransformer.t)
  (state : IState.t) (system : System) (topology : Topology)
  : MeldRestraintTransformer.t * System * result System :=
  if active self then
    let meld_force : MeldForce := [] in
    match register_all self state (World (tracker self) meld_force) with
    | (w, Ok _) =>
        let system' := addForce system (w_force w) in
        (MeldRestraintTransformer.mk (param_manager self) (w_tracker w)
           (always_on self) (selective_on self) (active self)
           (Some (w_force w)),
         system', Ok system')
    | (w, Raise e) =>
        (MeldRestraintTransformer.mk (param_manager self) (w_tracker w)
           (always_on self) (selective_on self) (active self) (force self),
         system, Raise e)
    end
  else (self, system, Ok system).

(* ================================================================== *)
(** * The per-step update *)
(* ================================================================== *)

(** The update methods run on the attribute [self.force]; reading it raises
    [AttributeError] while it does not exist. *)
Definition self_force : M (option MeldForce) unit :=
  fun s =>
    match s with
    | Some _ => (s, Ok tt)
    | None => (s, Raise (AttributeError "force"))
    end.

(** A call [self.force.<m>(a...)] whose arguments have been evaluated. *)
Definition force_call (m : method) (a : list arg) : M (option MeldForce) unit :=
  fun s =>
    match s with
    | Some f => (Some (f ++ [Call m a]), Ok tt)
    | None => (s, Raise (AttributeError "force"))
    end.

Local Open Scope float_scope.

(** [_update_restraints(self, alpha, timestep)]: six loops, one per tracked
    kind, each over [enumerate] of the tracker's list.  In a call
    [self.force.m(args)] Python reads [self.force] before it evaluates the
    arguments. *)
Definition _update_restraints (self : MeldRestraintTransformer.t)
  (alpha : float) (timestep : Z) : M (option MeldForce) unit :=
  mfor (fun '(i, dist_rest) =>
      let scale := DistanceRestraint.scaler dist_rest alpha
                   * DistanceRestraint.ramp dist_rest timestep in
      force_call modifyDistanceRestraint
        [ AInt (Z.of_nat i);
          AInt (DistanceRestraint.atom_index_1 dist_rest);
          AInt (DistanceRestraint.atom_index_2 dist_rest);
          AFloat (DistanceRestraint.r1 dist_rest alpha);
          AFloat (DistanceRestraint.r2 dist_rest alpha);
          AFloat (DistanceRestraint.r3 dist_rest alpha);
          AFloat (DistanceRestraint.r4 dist_rest alpha);
          AFloat (DistanceRestraint.k dist_rest * scale) ])
    (enumerate (distance_restraints (tracker self))) ;;;
  mfor (fun '(i, hyper_rest) =>
      let scale := HyperbolicDistanceRestraint.scaler hyper_rest alpha
                   * HyperbolicDistanceRestraint.ramp hyper_rest timestep in
      force_call modifyHyperbolicDistanceRestraint
        [ AInt (Z.of_nat i);
          AInt (HyperbolicDistanceRestraint.atom_index_1 hyper_rest);
          AInt (HyperbolicDistanceRestraint.atom_index_2 hyper_rest);
          AFloat (HyperbolicDistanceRestraint.r1 hyper_rest);
          AFloat (HyperbolicDistanceRestraint.r2 hyper_rest);
          AFloat (HyperbolicDistanceRestraint.r3 hyper_rest);
          AFloat (HyperbolicDistanceRestraint.r4 hyper_rest);
          AFloat (HyperbolicDistanceRestraint.k hyper_rest * scale);
          AFloat (HyperbolicDistanceRestraint.asymptote hyper_rest * scale) ])
    (enumerate (hyperbolic_distance_restraints (tracker self))) ;;;
  mfor (fun '(i, tors_rest) =>
      let scale := TorsionRestraint.scaler tors_rest alpha
                   * TorsionRestraint.ramp tors_rest timestep in
      force_call modifyTorsionRestraint
        [ AInt (Z.of_nat i);
          AInt (TorsionRestraint.atom_index_1 tors_rest);
          AInt (TorsionRestraint.atom_index_2 tors_rest);
          AInt (TorsionRestraint.atom_index_3 tors_rest);
          AInt (TorsionRestraint.atom_index_4 tors_rest);
          AFloat (TorsionRestraint.phi tors_rest);
          AFloat (TorsionRestraint.delta_phi tors_rest);
          AFloat (TorsionRestraint.k tors_rest * scale) ])
    (enumerate (torsion_restraints (tracker self))) ;;;
  mfor (fun '(i, dist_prof_rest) =>
      let scale := DistProfileRestraint.scaler dist_prof_rest alpha
                   * DistProfileRestraint.ramp dist_prof_rest timestep in
      self_force ;;;
      cols <- lift (rmap (ndarray2.column
                            (DistProfileRestraint.spline_params dist_prof_rest))
                         [0; 1; 2; 3]%nat) ;;
      force_call modifyDistProfileRestraint
        ([ AInt (Z.of_nat i);
           AInt (DistProfileRestraint.atom_index_1 dist_prof_rest);
           AInt (DistProfileRestraint.atom_index_2 dist_prof_rest);
           AFloat (DistProfileRestraint.r_min dist_prof_rest);
           AFloat (DistProfileRestraint.r_max dist_prof_rest);
           AInt (DistProfileRestraint.n_bins dist_prof_rest) ]
         ++ map AFloatList cols
         ++ [ AFloat (DistProfileRestraint.scale_factor dist_prof_rest * scale) ]))
    (enumerate (dist_prof_restraints (tracker self))) ;;;
  mfor (fun '(i, tors_prof_rest) =>
      let scale := TorsProfileRestraint.scaler tors_prof_rest alpha
                   * TorsProfileRestraint.ramp tors_prof_rest timestep in
      self_force ;;;
      cols <- lift (rmap (ndarray2.column
                            (TorsProfileRestraint.spline_params tors_prof_rest))
                         [0; 1; 2; 3; 4; 5; 6; 7;
                          8; 9; 10; 11; 12; 13; 14; 15]%nat) ;;
      force_call modifyTorsProfileRestraint
        ([ AInt (Z.of_nat i);
           AInt (TorsProfileRestraint.atom_index_1 tors_prof_rest);
           AInt (TorsProfileRestraint.atom_index_2 tors_prof_rest);
           AInt (TorsProfileRestraint.atom_index_3 tors_prof_rest);
           AInt (TorsProfileRestraint.atom_index_4 tors_prof_rest);
           AInt (TorsProfileRestraint.atom_index_5 tors_prof_rest);
           AInt (TorsProfileRestraint.atom_index_6 tors_prof_rest);
           AInt (TorsProfileRestraint.atom_index_7 tors_prof_rest);
           AInt (TorsProfileRestraint.atom_index_8 tors_prof_rest);
           AInt (TorsProfileRestraint.n_bins tors_prof_rest) ]
         ++ map AFloatList cols
         ++ [ AFloat (TorsProfileRestraint.scale_factor tors_prof_rest * scale) ]))
    (enumerate (torsion_profile_restraints (tracker self))) ;;;
  mfor (fun '(i, gmm_rest) =>
      let scale := GMMDistanceRestraint.scaler gmm_rest alpha
                   * GMMDistanceRestraint.ramp gmm_rest timestep in
      let nd := GMMDistanceRestraint.n_distances gmm_rest in
      let nc := GMMDistanceRestraint.n_components gmm_rest in
      let w := GMMDistanceRestraint.weights gmm_rest in
      let m := ndarray2.flatten (GMMDistanceRestraint.means gmm_rest) in
      d_o <- lift (_setup_precisions
                     (GMMDistanceRestraint.precisions gmm_rest) nd nc) ;;
      force_call modifyGMMRestraint
        [ AInt (Z.of_nat i); AInt nd; AInt nc; AFloat scale;
          AIntList (GMMDistanceRestraint.atoms gmm_rest);
          AFloatList w; AFloatList m;
          AFloatList (fst d_o); AFloatList (snd d_o) ])
    (enumerate (gmm_restraints (tracker self))).

Local Close Scope float_scope.

(** [_update_groups_collections(self, state)]. *)
Definition _update_groups_collections (self : MeldRestraintTransformer.t)
  (state : IState.t) : M (option MeldForce) unit :=
  mfor (fun '(i, coll) =>
      match coll with
      | None => ret tt
      | Some coll =>
          num_active <-
            lift (_handle_num_active self
                    (SelectivelyActiveCollection.num_active coll) state) ;;
          force_call modifyCollectionNumActive [AInt (Z.of_nat i); AInt num_active]
      end)
    (enumerate (collections (tracker self))) ;;;
  mfor (fun '(i, group) =>
      match group with
      | None => ret tt
      | Some group =>
          num_active <-
            lift (_handle_num_active self
                    (RestraintGroup.num_active group) state) ;;
          force_call modifyGroupNumActive [AInt (Z.of_nat i); AInt num_active]
      end)
    (enumerate (groups (tracker self))).

(** [update(self, state, simulation, alpha, timestep)]: the transformer as
    the call leaves it, and [None] or the exception raised. *)
Definition update (self : MeldRestraintTransformer.t) (state : IState.t)
  (simulation : Simulation.t) (alpha : float) (timestep : Z)
  : MeldRestraintTransformer.t * result unit :=
  if active self then
    match (_update_restraints self alpha timestep ;;;
           _update_groups_collections self state ;;;
           force_call updateParametersInContext
             [AContext (Simulation.context simulation)]) (force self) with
    | (force', r) =>
        (MeldRestraintTransformer.mk (param_manager self) (tracker self)
           (always_on self) (selective_on self) (active self) force', r)
    end
  else (self, Ok tt).

Local Close Scope monad_scope.

(* ================================================================== *)
(** * Part II.  Observations and the words of the specification *)
(* ================================================================== *)

(** Nothing below is part of the program: these definitions name what the
    theorems speak about. *)

(** ** The decomposition as the specification words it *)

(** The diagonal entries, components outermost, then distances. *)
Definition diag_by_spec (P : ndarray3.t) (C D : nat) : list float :=
  flat_map (fun c => map (fun d => ndarray3.item P c d d) (seq 0 D)) (seq 0 C).

(** The entries above the diagonal: components outermost, then [j], then
    [k] with [j < k < D] innermost. *)
Definition offdiag_by_spec (P : ndarray3.t) (C D : nat) : list float :=
  flat_map (fun c =>
    flat_map (fun j => map (fun k => ndarray3.item P c j k) (seq (S j) (D - S j)))
             (seq 0 D))
    (seq 0 C).

(** Number of pairs [j < k < D]. *)
Definition n_pairs (D : nat) : nat := D * (D - 1) / 2.

(** Position of the pair [(j, k)] among the pairs [j < k < D] of one
    component. *)
Definition pair_position (D j k : nat) : nat :=
  j * (2 * D - j - 1) / 2 + (k - j - 1).

(** ** Observations on registration *)

(** The six kinds the transformer tracks. *)
Inductive kind : Type :=
| KDistance | KHyperbolic | KTorsion | KDistProfile | KTorsProfile | KGMM.

Definition all_kinds : list kind :=
  [KDistance; KHyperbolic; KTorsion; KDistProfile; KTorsProfile; KGMM].

Definition kind_of (rest : SelectableRestraint) : option kind :=
  match rest with
  | Distance _ => Some KDistance
  | HyperbolicDistance _ => Some KHyperbolic
  | Torsion _ => Some KTorsion
  | DistProfile _ => Some KDistProfile
  | TorsProfile _ => Some KTorsProfile
  | GMMDistance _ => Some KGMM
  | OtherSelectable _ _ _ => None
  end.

Definition kind_eqb (k1 k2 : kind) : bool :=
  match k1, k2 with
  | KDistance, KDistance | KHyperbolic, KHyperbolic | KTorsion, KTorsion
  | KDistProfile, KDistProfile | KTorsProfile, KTorsProfile | KGMM, KGMM => true
  | _, _ => false
  end.

Definition has_kind (k : kind) (rest : SelectableRestraint) : bool :=
  match kind_of rest with
  | Some k' => kind_eqb k k'
  | None => false
  end.

(** The creation method of a kind. *)
Definition add_method (k : kind) : method :=
  match k with
  | KDistance => addDistanceRestraint
  | KHyperbolic => addHyperbolicDistanceRestraint
  | KTorsion => addTorsionRestraint
  | KDistProfile => addDistProfileRestraint
  | KTorsProfile => addTorsProfileRestraint
  | KGMM => addGMMRestraint
  end.

(** The tracker's sequence of a kind. *)
Definition tracked (k : kind) (t : _RestraintTracker.t)
  : list SelectableRestraint :=
  match k with
  | KDistance => map Distance (distance_restraints t)
  | KHyperbolic => map HyperbolicDistance (hyperbolic_distance_restraints t)
  | KTorsion => map Torsion (torsion_restraints t)
  | KDistProfile => map DistProfile (dist_prof_restraints t)
  | KTorsProfile => map TorsProfile (torsion_profile_restraints t)
  | KGMM => map GMMDistance (gmm_restraints t)
  end.

(** The calls a registration makes on a new MeldForce, given a new
    tracker. *)
Definition calls_issued {A : Type} (m : M world A) : result (list call) :=
  match m (World _RestraintTracker.__init__ []) with
  | (w, Ok _) => Ok (w_force w)
  | (_, Raise e) => Raise e
  end.

(** What [_add_meld_restraint] sends to the engine for [rest] at
    [(alpha, timestep)]. *)
Definition registration_of (rest : SelectableRestraint) (alpha : float)
  (timestep : Z) : result (list call) :=
  calls_issued (_add_meld_restraint rest alpha timestep).

(** The tracker after [rest] has been appended to the sequence of its
    kind. *)
Definition track (rest : SelectableRestraint) (t : _RestraintTracker.t)
  : _RestraintTracker.t :=
  match _add_meld_restraint rest 0%float 0%Z (World t []) with
  | (w, _) => w_tracker w
  end.

(** The restraints in the order [add_interactions] visits them. *)
Definition registration_order (self : MeldRestraintTransformer.t)
  : list SelectableRestraint :=
  always_on self
  ++ flat_map (fun coll =>
                 flat_map RestraintGroup.restraints
                          (SelectivelyActiveCollection.groups coll))
              (selective_on self).

(** The update call that goes with a creation call: the update method of
    the kind, and the engine index before the same arguments. *)
Definition as_modify (i : nat) (c : call) : call :=
  Call (modify_of (meth c)) (AInt (Z.of_nat i) :: args c).

(** A sequence of calls of which some could not be built: the calls are
    made in order up to the first that raises. *)
Fixpoint issue (cs : list (result (list call))) (f : MeldForce)
  : option MeldForce * result unit :=
  match cs with
  | [] => (Some f, Ok tt)
  | Ok c :: cs' => issue cs' (f ++ c)
  | Raise e :: _ => (Some f, Raise e)
  end.

(** The refresh of the tracked restraints of one kind, written with the
    registration serializer: in tracker order, the creation call of each
    restraint turned into the update call at its index. *)
Definition refresh_of_kind (k : kind) (t : _RestraintTracker.t)
  (alpha : float) (timestep : Z) : list (result (list call)) :=
  map (fun '(i, rest) =>
         rbind (registration_of rest alpha timestep)
               (fun cs => Ok (map (as_modify i) cs)))
      (enumerate (tracked k t)).

(** The refresh of everything tracked, kind by kind. *)
Definition refresh_by_registration (t : _RestraintTracker.t) (alpha : float)
  (timestep : Z) : list (result (list call)) :=
  flat_map (fun k => refresh_of_kind k t alpha timestep) all_kinds.

(** The arguments of a distance call other than the force constant. *)
Definition distance_geometry (r : DistanceRestraint.t) (alpha : float)
  : list arg :=
  [ AInt (DistanceRestraint.atom_index_1 r);
    AInt (DistanceRestraint.atom_index_2 r);
    AFloat (DistanceRestraint.r1 r alpha);
    AFloat (DistanceRestraint.r2 r alpha);
    AFloat (DistanceRestraint.r3 r alpha);
    AFloat (DistanceRestraint.r4 r alpha) ].

(** The message of the error [_add_meld_restraint] raises. *)
Definition unknown_kind_error (class_name : string) : exn :=
  RuntimeError ("Do not know how to handle restraint " ++ class_name).

Local Open Scope float_scope.
Local Open Scope result_scope.

(** The creation call of a restraint as lines 299-394 build it, with the
    product [scaler(alpha) * ramp(timestep)] replaced by the one number
    [scale]: [alpha] enters only through the bounds [r1] to [r4] of a
    distance restraint, and every scaled quantity is a field of the
    restraint multiplied by [scale], or [scale] itself for a GMM
    restraint. *)
Definition creation_with_scale (rest : SelectableRestraint)
  (alpha scale : float) : result (list call) :=
  match rest with
  | Distance r =>
      Ok [Call addDistanceRestraint
            (distance_geometry r alpha
             ++ [AFloat (DistanceRestraint.k r * scale)])]
  | HyperbolicDistance r =>
      Ok [Call addHyperbolicDistanceRestraint
            [ AInt (HyperbolicDistanceRestraint.atom_index_1 r);
              AInt (HyperbolicDistanceRestraint.atom_index_2 r);
              AFloat (HyperbolicDistanceRestraint.r1 r);
              AFloat (HyperbolicDistanceRestraint.r2 r);
              AFloat (HyperbolicDistanceRestraint.r3 r);
              AFloat (HyperbolicDistanceRestraint.r4 r);
              AFloat (HyperbolicDistanceRestraint.k r * scale);
              AFloat (HyperbolicDistanceRestraint.asymptote r * scale) ]]
  | Torsion r =>
      Ok [Call addTorsionRestraint
            [ AInt (TorsionRestraint.atom_index_1 r);
              AInt (TorsionRestraint.atom_index_2 r);
              AInt (TorsionRestraint.atom_index_3 r);
              AInt (TorsionRestraint.atom_index_4 r);
              AFloat (TorsionRestraint.phi r);
              AFloat (TorsionRestraint.delta_phi r);
              AFloat (TorsionRestraint.k r * scale) ]]
  | DistProfile r =>
      cols <-? rmap (ndarray2.column (DistProfileRestraint.spline_params r))
                    (seq 0 4) ;;
      Ok [Call addDistProfileRestraint
            ([ AInt (DistProfileRestraint.atom_index_1 r);
               AInt (DistProfileRestraint.atom_index_2 r);
               AFloat (DistProfileRestraint.r_min r);
               AFloat (DistProfileRestraint.r_max r);
               AInt (DistProfileRestraint.n_bins r) ]
             ++ map AFloatList cols
             ++ [AFloat (DistProfileRestraint.scale_factor r * scale)])]
  | TorsProfile r =>
      cols <-? rmap (ndarray2.column (TorsProfileRestraint.spline_params r))
                    (seq 0 16) ;;
      Ok [Call addTorsProfileRestraint
            ([ AInt (TorsProfileRestraint.atom_index_1 r);
               AInt (TorsProfileRestraint.atom_index_2 r);
               AInt (TorsProfileRestraint.atom_index_3 r);
               AInt (TorsProfileRestraint.atom_index_4 r);
               AInt (TorsProfileRestraint.atom_index_5 r);
               AInt (TorsProfileRestraint.atom_index_6 r);
               AInt (TorsProfileRestraint.atom_index_7 r);
               AInt (TorsProfileRestraint.atom_index_8 r);
               AInt (TorsProfileRestraint.n_bins r) ]
             ++ map AFloatList cols
             ++ [AFloat (TorsProfileRestraint.scale_factor r * scale)])]
  | GMMDistance r =>
      d_o <-? _setup_precisions (GMMDistanceRestraint.precisions r)
                (GMMDistanceRestraint.n_distances r)
                (GMMDistanceRestraint.n_components r) ;;
      Ok [Call addGMMRestraint
            [ AInt (GMMDistanceRestraint.n_distances r);
              AInt (GMMDistanceRestraint.n_components r);
              AFloat scale;
              AIntList (GMMDistanceRestraint.atoms r);
              AFloatList (GMMDistanceRestraint.weights r);
              AFloatList (ndarray2.flatten (GMMDistanceRestraint.means r));
              AFloatList (fst d_o); AFloatList (snd d_o) ]]
  | OtherSelectable class_name _ _ => Raise (unknown_kind_error class_name)
  end.

Local Close Scope result_scope.
Local Close Scope float_scope.

(** ** The registration invariant *)

(** A call that creates a restraint. *)
Definition is_creation (c : call) : bool := is_restraint_creation (meth c).

(** The restraint registered at engine number [z], if any. *)
Definition registered_at {X : Type} (l : list X) (z : Z) : option X :=
  nth_error l (Z.to_nat z).

(** The [addGroup] call that created the group of a tracker entry: a
    sentinel entry stands for a group of one restraint with one active; a
    tracked group was created with its own resolved [num_active] and with
    the engine numbers of its own restraints, in order. *)
Definition group_entry_ok (self : MeldRestraintTransformer.t)
  (state : IState.t) (rs : list SelectableRestraint)
  (entry : option RestraintGroup.t) (c : call) : Prop :=
  exists idxs n,
    c = Call addGroup [AIntList idxs; AInt n]
    /\ match entry with
       | None => n = 1%Z
                 /\ exists rest, map (registered_at rs) idxs = [Some rest]
       | Some g =>
           _handle_num_active self (RestraintGroup.num_active g) state = Ok n
           /\ map (registered_at rs) idxs
              = map Some (RestraintGroup.restraints g)
       end.

(** The [addCollection] call that created the collection of a tracker
    entry: the sentinel collection holds sentinel groups only, all of them
    active; a tracked collection holds the engine numbers of its own
    groups, in order. *)
Definition collection_entry_ok (gs : list (option RestraintGroup.t))
  (entry : option SelectivelyActiveCollection.t) (c : call) : Prop :=
  exists idxs n,
    c = Call addCollection [AIntList idxs; AInt n]
    /\ match entry with
       | None => n = Z.of_nat (length idxs)
                 /\ Forall (fun z => registered_at gs z = Some None) idxs
       | Some coll =>
           map (registered_at gs) idxs
           = map (fun g => Some (Some g))
                 (SelectivelyActiveCollection.groups coll)
       end.

(** What holds of the tracker and of the MeldForce while
    [add_interactions] runs, [rs] being the restraints registered so far,
    [gs] the group entries and [cs] the collection entries made so far. *)
Record registered (self : MeldRestraintTransformer.t) (state : IState.t)
  (w : world) (rs : list SelectableRestraint)
  (gs : list (option RestraintGroup.t))
  (cs : list (option SelectivelyActiveCollection.t)) : Prop := {
  reg_tracked : forall k, tracked k (w_tracker w) = filter (has_kind k) rs;
  reg_groups : groups (w_tracker w) = gs;
  reg_collections : collections (w_tracker w) = cs;
  reg_creations :
    Forall2 (fun r c => registration_of r 0%float 0%Z = Ok [c])
            rs (filter is_creation (w_force w));
  reg_group_calls :
    Forall2 (group_entry_ok self state rs) gs (calls_of addGroup (w_force w));
  reg_collection_calls :
    Forall2 (collection_entry_ok gs) cs (calls_of addCollection (w_force w));
  reg_methods :
    Forall (fun c => is_creation c = true \/ meth c = addGroup
                     \/ meth c = addCollection) (w_force w)
}.

(** The group entries and the collection entries [add_interactions]
    makes: a sentinel per always-on restraint, then the groups of the
    collections; the sentinel collection when there is an always-on
    restraint, then the collections. *)
Definition group_entries (self : MeldRestraintTransformer.t)
  : list (option RestraintGroup.t) :=
  repeat None (length (always_on self))
  ++ flat_map (fun coll => map Some (SelectivelyActiveCollection.groups coll))
              (selective_on self).

Definition collection_entries (self : MeldRestraintTransformer.t)
  : list (option SelectivelyActiveCollection.t) :=
  (if truthy (always_on self) then [None] else [])
  ++ map Some (selective_on self).

(** A transformer as the constructor leaves it. *)
Definition constructed (self : MeldRestraintTransformer.t) : Prop :=
  tracker self = _RestraintTracker.__init__
  /\ force self = None
  /\ active self = truthy (always_on self) || truthy (selective_on self).

(** ** Observations on updates *)

(** The calls made on the transformer's MeldForce so far. *)
Definition calls_on (self : MeldRestraintTransformer.t) : MeldForce :=
  match force self with
  | Some f => f
  | None => []
  end.

(** The update of the count of the group or collection at an entry of the
    tracker: nothing for a sentinel, and for a tracked entity the method
    [m] with its index and its resolved [num_active]. *)
Definition count_refresh {X : Type} (self : MeldRestraintTransformer.t)
  (state : IState.t) (m : method) (num_active : X -> num_active_t)
  (p : nat * option X) : result (list call) :=
  match snd p with
  | None => Ok []
  | Some x =>
      rbind (_handle_num_active self (num_active x) state)
            (fun n => Ok [Call m [AInt (Z.of_nat (fst p)); AInt n]])
  end.

(** The calls of one [update], in order: the restraints, the collections,
    the groups, and the request to recompute. *)
Definition update_calls (self : MeldRestraintTransformer.t)
  (state : IState.t) (simulation : Simulation.t) (alpha : float)
  (timestep : Z) : list (result (list call)) :=
  refresh_by_registration (tracker self) alpha timestep
  ++ map (count_refresh self state modifyCollectionNumActive
            SelectivelyActiveCollection.num_active)
         (enumerate (collections (tracker self)))
  ++ map (count_refresh self state modifyGroupNumActive
            RestraintGroup.num_active)
         (enumerate (groups (tracker self)))
  ++ [Ok [Call updateParametersInContext
            [AContext (Simulation.context simulation)]]].

(** [n] updates in a row, with the state, simulation, alpha and timestep of
    each. *)
Fixpoint run_updates (self : MeldRestraintTransformer.t)
  (steps : list (IState.t * Simulation.t * float * Z))
  : MeldRestraintTransformer.t :=
  match steps with
  | [] => self
  | (state, simulation, alpha, timestep) :: steps' =>
      run_updates (fst (update self state simulation alpha timestep)) steps'
  end.

(** A call addresses the entity of index [i] through method [m]. *)
Definition targets (m : method) (i : nat) (c : call) : Prop :=
  meth c = m /\ exists rest, args c = AInt (Z.of_nat i) :: rest.

Definition is_restraint_update (m : method) : bool :=
  match m with
  | modifyDistanceRestraint | modifyHyperbolicDistanceRestraint
  | modifyTorsionRestraint | modifyDistProfileRestraint
  | modifyTorsProfileRestraint | modifyGMMRestraint => true
  | _ => false
  end.

(** The calls an update makes: updates of restraints, the request to
    recompute, and updates of the counts of tracked (non-sentinel) groups
    and collections at their indices. *)
Definition update_call_ok (t : _RestraintTracker.t) (c : call) : Prop :=
  is_restraint_update (meth c) = true
  \/ meth c = updateParametersInContext
  \/ (exists j n g, c = Call modifyGroupNumActive [AInt (Z.of_nat j); AInt n]
                    /\ nth_error (groups t) j = Some (Some g))
  \/ (exists j n coll,
        c = Call modifyCollectionNumActive [AInt (Z.of_nat j); AInt n]
        /\ nth_error (collections t) j = Some (Some coll)).

(** A call of one of the two operations the transformer exposes. *)
Inductive invocation : Type :=
| AddInteractions (state : IState.t) (system : System) (topology : Topology)
| Update (state : IState.t) (simulation : Simulation.t) (alpha : float)
         (timestep : Z).

(** The transformer after an invocation. *)
Definition invoke (self : MeldRestraintTransformer.t) (inv : invocation)
  : MeldRestraintTransformer.t :=
  match inv with
  | AddInteractions state system topology =>
      fst (fst (add_interactions self state system topology))
  | Update state simulation alpha timestep =>
      fst (update self state simulation alpha timestep)
  end.

(** ** Sample data *)

(** A stack of 2 components over 3 distances; entry [c, j, k] is
    [100 c + 10 j + k]. *)
Definition stack_2_3_3 : ndarray3.t :=
  ndarray3.mk 2 3 3
    (fun c j k => PrimFloat.of_uint63
                    (Uint63.of_Z (Z.of_nat (100 * c + 10 * j + k)))).

Local Open Scope float_scope.

(** A distance restraint with k = 0.1, a scaler that is 0.2 everywhere and a
    ramp that is 0.3 everywhere. *)
Definition distance_tenth : DistanceRestraint.t :=
  DistanceRestraint.mk 1 2 (fun _ => 0) (fun _ => 1) (fun _ => 2) (fun _ => 3)
    0.1 (fun _ => 0.2) (fun _ => 0.3).

(** One always-active distance restraint (k = 10, scaler and ramp
    constantly 1), a restraint of another subsystem, and one collection of
    two groups, each of one torsion restraint (k = 5); the collection
    enforces both groups ([num_active = 2]), each group its one restraint
    ([num_active = 1]). *)
Definition sample_distance : DistanceRestraint.t :=
  DistanceRestraint.mk 1 2 (fun _ => 0) (fun _ => 0) (fun _ => 0.3)
    (fun _ => 0.4) 10 (fun _ => 1) (fun _ => 1).

Definition sample_torsion : TorsionRestraint.t :=
  TorsionRestraint.mk 1 2 3 4 0.5 0.25 5 (fun alpha => alpha) (fun _ => 1).

Definition sample_group : RestraintGroup.t :=
  RestraintGroup.mk [Torsion sample_torsion] (Literal 1).

Definition sample_collection : SelectivelyActiveCollection.t :=
  SelectivelyActiveCollection.mk [sample_group; sample_group] (Literal 2).

(** A sampling collaborator that reads the value at the parameter's index. *)
Definition sample_manager : ParameterManager.t :=
  ParameterManager.mk (fun p values => nth (param_index p) values (NInt 0)).

Definition sample_state : IState.t := IState.mk [NFloat 2.7].

Definition sample_always_active : list Restraint :=
  [Selectable (Distance sample_distance); NonSelectable "CartesianRestraint"].

Definition sample_transformer : MeldRestraintTransformer.t :=
  fst (fst (__init__ sample_manager tt sample_always_active
              [sample_collection])).

(** The transformer and the system after [add_interactions]. *)
Definition sample_registered : MeldRestraintTransformer.t :=
  fst (fst (add_interactions sample_transformer sample_state [] tt)).

Definition sample_system : System :=
  snd (fst (add_interactions sample_transformer sample_state [] tt)).

Local Close Scope float_scope.

(** ** Shapes, members and counts *)

(** The stack is large enough for [n_conditions] components over
    [n_distances] distances: no entry the two passes read lies outside
    it. *)
Definition stack_fits (P : ndarray3.t) (n_distances n_conditions : Z)
  : bool :=
  (n_conditions <=? 0)%Z || (n_distances <=? 0)%Z
  || ((Z.to_nat n_conditions <=? ndarray3.dim0 P)
      && (Z.to_nat n_distances <=? ndarray3.dim1 P)
      && (Z.to_nat n_distances <=? ndarray3.dim2 P)).

(** A restraint the serializer can turn into a call: it is of one of the
    six kinds, a profile has the spline columns the call reads (4 for a
    distance profile, 16 for a torsion profile), and the precision stack of
    a GMM restraint is large enough. *)
Definition serializable (rest : SelectableRestraint) : bool :=
  match rest with
  | Distance _ | HyperbolicDistance _ | Torsion _ => true
  | DistProfile r =>
      4 <=? ndarray2.ncols (DistProfileRestraint.spline_params r)
  | TorsProfile r =>
      16 <=? ndarray2.ncols (TorsProfileRestraint.spline_params r)
  | GMMDistance r =>
      stack_fits (GMMDistanceRestraint.precisions r)
        (GMMDistanceRestraint.n_distances r)
        (GMMDistanceRestraint.n_components r)
  | OtherSelectable _ _ _ => false
  end.

(** The members a group or a collection is created with. *)
Definition members (c : call) : list Z :=
  match args c with
  | AIntList l :: _ => l
  | _ => []
  end.

(** The restraint numbers put in groups, and the group numbers put in
    collections, in the order of the creation calls. *)
Definition group_members (f : MeldForce) : list Z :=
  flat_map members (calls_of addGroup f).

Definition collection_members (f : MeldForce) : list Z :=
  flat_map members (calls_of addCollection f).

(** The engine numbers [0, 1, ..., n-1]. *)
Definition iota (n : nat) : list Z := map Z.of_nat (seq 0 n).

(** [num_active] resolves in this state. *)
Definition resolves (self : MeldRestraintTransformer.t) (state : IState.t)
  (value : num_active_t) : bool :=
  match _handle_num_active self value state with
  | Ok _ => true
  | Raise _ => false
  end.

(** All the groups of the collections, in order. *)
Definition all_groups (l : list SelectivelyActiveCollection.t)
  : list RestraintGroup.t :=
  flat_map SelectivelyActiveCollection.groups l.

(** There is no collection, or the first one has a group. *)
Definition first_has_group (l : list SelectivelyActiveCollection.t) : bool :=
  match l with
  | [] => true
  | coll :: _ => truthy (SelectivelyActiveCollection.groups coll)
  end.

(** What holds of the tracker and of the MeldForce while a registration
    started on tracker [t0] and a new MeldForce runs: [rs], [gs] and [cs]
    are the restraints registered and the group and collection entries made
    so far, [pending_r] the restraint numbers not yet put in a group (the
    local [restraint_indices]), [pending_g] the group numbers not yet put in
    a collection (the locals [group_list] and [group_indices]). *)
Record laid_out (self : MeldRestraintTransformer.t) (state : IState.t)
  (t0 : _RestraintTracker.t) (w : world) (rs : list SelectableRestraint)
  (gs : list (option RestraintGroup.t))
  (cs : list (option SelectivelyActiveCollection.t))
  (pending_r pending_g : list Z) : Prop := {
  lo_tracked :
    forall k, tracked k (w_tracker w)
              = tracked k t0 ++ filter (has_kind k) rs;
  lo_groups : groups (w_tracker w) = groups t0 ++ gs;
  lo_collections : collections (w_tracker w) = collections t0 ++ cs;
  lo_n_restraints : n_restraints (w_force w) = length rs;
  lo_n_groups : n_groups (w_force w) = length gs;
  lo_n_collections : n_collections (w_force w) = length cs;
  lo_group_members :
    group_members (w_force w) ++ pending_r = iota (length rs);
  lo_collection_members :
    collection_members (w_force w) ++ pending_g = iota (length gs);
  lo_serializable : Forall (fun r => serializable r = true) rs;
  lo_resolves :
    Forall (fun entry =>
              match entry with
              | Some g => resolves self state (RestraintGroup.num_active g)
                          = true
              | None => True
              end) gs
}.

(** Every restraint the transformer owns is serializable, the
    [num_active] of every group resolves in [state], and the first
    collection, if there is one, has a group. *)
Definition can_register (self : MeldRestraintTransformer.t)
  (state : IState.t) : bool :=
  forallb serializable (registration_order self)
  && forallb (fun g => resolves self state (RestraintGroup.num_active g))
             (all_groups (selective_on self))
  && first_has_group (selective_on self).

(** How many restraints the tracker holds, and how many entries of a group
    or collection sequence are not sentinels. *)
Definition n_tracked (t : _RestraintTracker.t) : nat :=
  length (flat_map (fun k => tracked k t) all_kinds).

Definition n_live {X : Type} (l : list (option X)) : nat :=
  length (filter (fun entry => match entry with
                               | Some _ => true
                               | None => false
                               end) l).

(** The request to recompute what the context derives from the
    parameters. *)
Definition recompute (simulation : Simulation.t) : call :=
  Call updateParametersInContext [AContext (Simulation.context simulation)].

(** The calls of an update before the request to recompute. *)
Definition update_body (self : MeldRestraintTransformer.t)
  (state : IState.t) (alpha : float) (timestep : Z)
  : list (result (list call)) :=
  refresh_by_registration (tracker self) alpha timestep
  ++ map (count_refresh self state modifyCollectionNumActive
            SelectivelyActiveCollection.num_active)
         (enumerate (collections (tracker self)))
  ++ map (count_refresh self state modifyGroupNumActive
            RestraintGroup.num_active)
         (enumerate (groups (tracker self))).

(** How many calls a sequence of built calls holds. *)
Definition n_calls (l : list (result (list call))) : nat :=
  list_sum (map (fun r => match r with
                          | Ok cs => length cs
                          | Raise _ => 0
                          end) l).

(** An update call addresses something the engine has created: the call
    is the request to recompute, or it is the update that goes with a
    creation method and its first argument is an index below the number of
    calls of that creation method made on [f]. *)
Definition addresses_created (f : MeldForce) (c : call) : Prop :=
  meth c = updateParametersInContext
  \/ exists m i rest,
       meth c = modify_of m /\ modify_of m <> m
       /\ args c = AInt (Z.of_nat i) :: rest
       /\ i < length (calls_of m f).

(** An update call addresses an entry of the tracker: the call is the
    request to recompute, the update of a restraint of kind [k] at an index
    of the tracker's sequence of that kind, or the update of a count at an
    index of the group or collection sequence. *)
Definition addresses_tracked (t : _RestraintTracker.t) (c : call) : Prop :=
  meth c = updateParametersInContext
  \/ (exists k i a,
        c = Call (modify_of (add_method k)) (AInt (Z.of_nat i) :: a)
        /\ i < length (tracked k t))
  \/ (exists j n,
        c = Call modifyGroupNumActive [AInt (Z.of_nat j); AInt n]
        /\ j < length (groups t))
  \/ (exists j n,
        c = Call modifyCollectionNumActive [AInt (Z.of_nat j); AInt n]
        /\ j < length (collections t)).

(** The exception [_add_meld_restraint] raises on a restraint it cannot
    serialize. *)
Definition serializer_error (rest : SelectableRestraint) : exn :=
  match rest with
  | OtherSelectable class_name _ _ => unknown_kind_error class_name
  | _ => IndexError
  end.

(** The exception [e] is the one of a restraint of [rs] that cannot be
    serialized, or the one of resolving the [num_active] of a group of
    [gs]. *)
Definition raised_by (self : MeldRestraintTransformer.t) (state : IState.t)
  (rs : list SelectableRestraint) (gs : list RestraintGroup.t) (e : exn)
  : Prop :=
  (exists rest, In rest rs /\ serializable rest = false
                /\ e = serializer_error rest)
  \/ (exists g, In g gs
                /\ _handle_num_active self (RestraintGroup.num_active g) state
                   = Raise e).

(** Every [num_active] an update resolves does resolve in [state]: that
    of every collection and that of every group. *)
Definition can_update (self : MeldRestraintTransformer.t) (state : IState.t)
  : bool :=
  forallb (fun coll =>
             resolves self state
               (SelectivelyActiveCollection.num_active coll))
          (selective_on self)
  && forallb (fun g => resolves self state (RestraintGroup.num_active g))
             (all_groups (selective_on self)).

(** A call that could be built. *)
Definition built (r : result (list call)) : Prop := exists cs, r = Ok cs.

(** The entry is a sentinel, or its [num_active] resolves. *)
Definition entry_resolves {X : Type} (self : MeldRestraintTransformer.t)
  (state : IState.t) (num_active : X -> num_active_t) (entry : option X)
  : Prop :=
  match entry with
  | Some x => resolves self state (num_active x) = true
  | None => True
  end.

(** ** More sample data *)

(** The worked configuration with a first collection that has no group. *)
Definition sample_empty_collection : SelectivelyActiveCollection.t :=
  SelectivelyActiveCollection.mk [] (Literal 1).

Definition sample_ungrouped : MeldRestraintTransformer.t :=
  fst (fst (__init__ sample_manager tt sample_always_active
              [sample_empty_collection; sample_collection])).

(** The worked configuration after one update at alpha = 0.5 and
    timestep = 10. *)
Definition sample_updated : MeldRestraintTransformer.t :=
  fst (update sample_registered sample_state (Simulation.mk 7) 0.5%float 10).

(* ================================================================== *)
(** * Part III.  Lemmas and theorems *)
(* ================================================================== *)

(* ================================================================== *)
(** * Lists and loops *)
(* ================================================================== *)

Section Loops.
Context {A B : Type}.

(** A loop whose body only appends builds the concatenation of what each
    round appends. *)
Lemma rfold_append (g : A -> list B) (body : list B -> A -> result (list B))
  (l : list A) :
  (forall acc x, In x l -> body acc x = Ok (acc ++ g x)) ->
  forall acc, rfold body l acc = Ok (acc ++ flat_map g l).
Proof.
  induction l as [|x l IH]; intros Hbody acc; simpl.
  - now rewrite app_nil_r.
  - rewrite Hbody by now left. simpl.
    rewrite IH by (intros; apply Hbody; now right).
    now rewrite app_assoc.
Qed.

Lemma flat_map_singleton (f : A -> B) (l : list A) :
  flat_map (fun x => [f x]) l = map f l.
Proof. induction l; simpl; congruence. Qed.

Lemma length_flat_map_uniform (g : A -> list B) (n : nat) (l : list A) :
  (forall x, In x l -> length (g x) = n) ->
  length (flat_map g l) = length l * n.
Proof.
  induction l as [|x l IH]; intros H; simpl; [reflexivity|].
  rewrite length_app, H by now left.
  rewrite IH by (intros; apply H; now right). reflexivity.
Qed.

(** Entry [j] of the block of the [i]-th element sits after the blocks of
    the elements before it. *)
Lemma nth_error_flat_map_block (g : A -> list B) (l : list A) (i : nat)
  (x : A) (j : nat) :
  nth_error l i = Some x -> j < length (g x) ->
  nth_error (flat_map g l) (length (flat_map g (firstn i l)) + j)
  = nth_error (g x) j.
Proof.
  revert i; induction l as [|y l IH]; intros [|i] Hi Hj; simpl in *;
    try discriminate.
  - injection Hi as ->. now rewrite nth_error_app1.
  - rewrite length_app, <- Nat.add_assoc, nth_error_app2 by lia.
    replace (length (g y) + (length (flat_map g (firstn i l)) + j) - length (g y))
      with (length (flat_map g (firstn i l)) + j) by lia.
    now apply IH.
Qed.

End Loops.

Lemma firstn_seq (a n i : nat) : i <= n -> firstn i (seq a n) = seq a i.
Proof.
  revert a n; induction i as [|i IH]; intros a [|n] H; simpl; try reflexivity;
    try lia.
  f_equal. apply IH. lia.
Qed.

Lemma nth_error_seq (a n i : nat) : i < n -> nth_error (seq a n) i = Some (a + i).
Proof.
  revert a i; induction n as [|n IH]; intros a [|i] H; simpl; try lia.
  - f_equal; lia.
  - rewrite IH by lia. f_equal; lia.
Qed.

Lemma getitem_in_range (P : ndarray3.t) (i j k : nat) :
  i < ndarray3.dim0 P -> j < ndarray3.dim1 P -> k < ndarray3.dim2 P ->
  ndarray3.getitem P i j k = Ok (ndarray3.item P i j k).
Proof.
  intros Hi Hj Hk. unfold ndarray3.getitem.
  apply Nat.ltb_lt in Hi, Hj, Hk. now rewrite Hi, Hj, Hk.
Qed.

(** The pairs of the rows before row [j]. *)
Lemma length_rows_before (f : nat -> nat -> float) (D j : nat) :
  j <= D ->
  length (flat_map (fun j' => map (f j') (seq (S j') (D - S j'))) (seq 0 j))
  = j * (2 * D - j - 1) / 2.
Proof.
  induction j as [|j IH]; intros H; [reflexivity|].
  rewrite seq_S, flat_map_app, length_app, IH by lia. simpl flat_map.
  rewrite app_nil_r, length_map, length_seq.
  replace (S j * (2 * D - S j - 1)) with (j * (2 * D - j - 1) + (D - S j) * 2)
    by nia.
  now rewrite Nat.div_add by discriminate.
Qed.

Lemma length_rows (f : nat -> nat -> float) (D : nat) :
  length (flat_map (fun j' => map (f j') (seq (S j') (D - S j'))) (seq 0 D))
  = n_pairs D.
Proof.
  rewrite length_rows_before by lia. unfold n_pairs.
  f_equal. nia.
Qed.

(* ================================================================== *)
(** * The precision decomposer: properties *)
(* ================================================================== *)

(** On a stack of shape (C, D, D) both passes of [_setup_precisions] run to
    completion and build the two sequences of the specification. *)
Lemma setup_precisions_by_spec (P : ndarray3.t) (C D : nat) :
  ndarray3.shape P = (C, D, D) ->
  _setup_precisions P (Z.of_nat D) (Z.of_nat C)
  = Ok (diag_by_spec P C D, offdiag_by_spec P C D).
Proof.
  intros Hshape. unfold ndarray3.shape in Hshape.
  injection Hshape as H0 H1 H2.
  unfold _setup_precisions, range, range_from. rewrite !Nat2Z.id.
  rewrite (rfold_append
             (fun c => map (fun d => ndarray3.item P c d d) (seq 0 D))).
  2:{ intros acc c Hc. apply in_seq in Hc.
      rewrite (rfold_append (fun d => [ndarray3.item P c d d])).
      - now rewrite flat_map_singleton.
      - intros acc' d Hd. apply in_seq in Hd.
        rewrite getitem_in_range by lia. reflexivity. }
  simpl rbind.
  rewrite (rfold_append
             (fun c => flat_map
                (fun j => map (fun k => ndarray3.item P c j k)
                              (seq (S j) (D - S j)))
                (seq 0 D))).
  2:{ intros acc c Hc. apply in_seq in Hc.
      apply rfold_append. intros acc' j Hj. apply in_seq in Hj.
      rewrite (rfold_append (fun k => [ndarray3.item P c j k])).
      - now rewrite flat_map_singleton.
      - intros acc'' k Hk. apply in_seq in Hk.
        rewrite getitem_in_range by lia. reflexivity. }
  reflexivity.
Qed.

Lemma nth_error_diag_by_spec (P : ndarray3.t) (C D c d : nat) :
  c < C -> d < D ->
  nth_error (diag_by_spec P C D) (c * D + d) = Some (ndarray3.item P c d d).
Proof.
  intros Hc Hd. unfold diag_by_spec.
  set (g := fun c => map (fun d => ndarray3.item P c d d) (seq 0 D)).
  assert (Hlen : forall x, length (g x) = D)
    by (intros; unfold g; now rewrite length_map, length_seq).
  replace (c * D) with (length (flat_map g (firstn c (seq 0 C)))).
  - rewrite (nth_error_flat_map_block g (seq 0 C) c c).
    + unfold g. rewrite nth_error_map, nth_error_seq by lia. reflexivity.
    + now rewrite nth_error_seq by lia.
    + now rewrite Hlen.
  - rewrite firstn_seq by lia.
    rewrite (length_flat_map_uniform g D) by auto.
    now rewrite length_seq.
Qed.

Lemma nth_error_offdiag_by_spec (P : ndarray3.t) (C D c j k : nat) :
  c < C -> j < k -> k < D ->
  nth_error (offdiag_by_spec P C D) (c * n_pairs D + pair_position D j k)
  = Some (ndarray3.item P c j k).
Proof.
  intros Hc Hjk Hk. unfold offdiag_by_spec, pair_position.
  set (row := fun c j => map (fun k => ndarray3.item P c j k)
                             (seq (S j) (D - S j))).
  set (g := fun c => flat_map (row c) (seq 0 D)).
  assert (Hlen : forall x, length (g x) = n_pairs D)
    by (intros; unfold g, row; apply length_rows).
  assert (Hin : j * (2 * D - j - 1) / 2 + (k - j - 1) < length (g c)).
  { unfold g.
    rewrite <- (firstn_skipn j (seq 0 D)), flat_map_app, length_app.
    rewrite firstn_seq by lia. unfold row at 1.
    rewrite length_rows_before by lia.
    rewrite skipn_seq. replace (D - j) with (S (D - S j)) by lia.
    simpl flat_map. rewrite length_app. unfold row at 1.
    rewrite length_map, length_seq. lia. }
  replace (c * n_pairs D) with (length (flat_map g (firstn c (seq 0 C)))).
  - rewrite (nth_error_flat_map_block g (seq 0 C) c c); trivial.
    + unfold g.
      replace (j * (2 * D - j - 1) / 2)
        with (length (flat_map (row c) (firstn j (seq 0 D)))).
      * rewrite (nth_error_flat_map_block (row c) (seq 0 D) j j).
        -- unfold row. rewrite nth_error_map, nth_error_seq by lia.
           simpl. do 2 f_equal. lia.
        -- now rewrite nth_error_seq by lia.
        -- unfold row. rewrite length_map, length_seq. lia.
      * rewrite firstn_seq by lia. unfold row. apply length_rows_before. lia.
    + now rewrite nth_error_seq by lia.
  - rewrite firstn_seq by lia.
    rewrite (length_flat_map_uniform g (n_pairs D)) by auto.
    now rewrite length_seq.
Qed.

(** C3. For every precision-matrix stack shaped (C components, D distances,
    D distances), [_setup_precisions] returns a pair [(diag, offdiag)] where
    [diag] has length C*D with [diag[c*D+d] = precisions[c,d,d]], and
    [offdiag] lists [precisions[c,j,k]] for every component c and every pair
    0 <= j < k < D, components outermost, then j, then k innermost: it is
    the nested enumeration of the specification, it has D*(D-1)/2 entries per
    component, and the entry of (c, j, k) stands at the position that
    enumeration gives it. *)
Theorem setup_precisions_decomposes (P : ndarray3.t) (C D : nat) :
  ndarray3.shape P = (C, D, D) ->
  exists diag offdiag,
    _setup_precisions P (Z.of_nat D) (Z.of_nat C) = Ok (diag, offdiag)
    /\ length diag = C * D
    /\ (forall c d, c < C -> d < D ->
          nth_error diag (c * D + d) = Some (ndarray3.item P c d d))
    /\ offdiag = offdiag_by_spec P C D
    /\ length offdiag = C * n_pairs D
    /\ (forall c j k, c < C -> j < k -> k < D ->
          nth_error offdiag (c * n_pairs D + pair_position D j k)
          = Some (ndarray3.item P c j k)).
Proof.
  intros Hshape.
  exists (diag_by_spec P C D), (offdiag_by_spec P C D).
  split; [now apply setup_precisions_by_spec|].
  split.
  { unfold diag_by_spec.
    rewrite (length_flat_map_uniform _ D), length_seq; trivial.
    intros; now rewrite length_map, length_seq. }
  split; [intros; now apply nth_error_diag_by_spec|].
  split; [reflexivity|].
  split.
  { unfold offdiag_by_spec.
    rewrite (length_flat_map_uniform _ (n_pairs D)), length_seq; trivial.
    intros; apply length_rows. }
  intros; now apply nth_error_offdiag_by_spec.
Qed.

Lemma setup_precisions_decomposes_witness :
  exists diag offdiag,
    _setup_precisions stack_2_3_3 (Z.of_nat 3) (Z.of_nat 2) = Ok (diag, offdiag)
    /\ length diag = 2 * 3
    /\ (forall c d, c < 2 -> d < 3 ->
          nth_error diag (c * 3 + d) = Some (ndarray3.item stack_2_3_3 c d d))
    /\ offdiag = offdiag_by_spec stack_2_3_3 2 3
    /\ length offdiag = 2 * n_pairs 3
    /\ (forall c j k, c < 2 -> j < k -> k < 3 ->
          nth_error offdiag (c * n_pairs 3 + pair_position 3 j k)
          = Some (ndarray3.item stack_2_3_3 c j k)).
Proof.
  exact (setup_precisions_decomposes stack_2_3_3 2 3 eq_refl).
Defined.

(** The 2-component, 3-distance stack: six diagonal entries in
    component-major order, and three pairs per component. *)
Example setup_precisions_2_3_3 :
  _setup_precisions stack_2_3_3 3 2
  = Ok ([0; 11; 22; 100; 111; 122]%float, [1; 2; 12; 101; 102; 112]%float).
Proof. vm_compute. reflexivity. Qed.

(* ================================================================== *)
(** * The active-count resolver: properties *)
(* ================================================================== *)

Lemma trunc_magnitude_nonneg (m : positive) (e : Z) :
  (0 <= trunc_magnitude m e)%Z.
Proof.
  unfold trunc_magnitude. destruct (0 <=? e)%Z eqn:He.
  - apply Z.shiftl_nonneg. lia.
  - apply Z.shiftr_nonneg. lia.
Qed.

(** [trunc_magnitude m e] is the integer part of [m * 2^e]. *)
Lemma trunc_magnitude_spec (m : positive) (e : Z) :
  ((0 <= e -> trunc_magnitude m e = Z.pos m * 2 ^ e)
   /\ (e < 0 ->
       trunc_magnitude m e * 2 ^ (- e) <= Z.pos m
       < (trunc_magnitude m e + 1) * 2 ^ (- e)))%Z.
Proof.
  unfold trunc_magnitude. split; intros He.
  - apply Z.leb_le in He as He'. rewrite He'. now apply Z.shiftl_mul_pow2.
  - assert (He' : (0 <=? e)%Z = false) by (apply Z.leb_gt; lia).
    rewrite He'. rewrite Z.shiftr_div_pow2 by lia.
    assert (Hpos : (0 < 2 ^ (- e))%Z) by (apply Z.pow_pos_nonneg; lia).
    pose proof (Z.div_mod (Z.pos m) (2 ^ (- e))) as Hdm.
    pose proof (Z.mod_pos_bound (Z.pos m) (2 ^ (- e)) Hpos) as Hb.
    nia.
Qed.

(** C4. For every [num_active] value and state: a literal integer is
    returned unchanged, whatever the state; a sampled-parameter reference
    resolves to [int(extract_value(reference, state.parameters))], where
    [int] leaves an int as it is and truncates a finite float towards zero
    (the result has the sign of the float and the integer part of its
    magnitude [m * 2^e]). *)
Theorem handle_num_active_resolves (self : MeldRestraintTransformer.t)
  (state : IState.t) :
  (forall n : Z, _handle_num_active self (Literal n) state = Ok n)
  /\ (forall p : SampledParameter,
        _handle_num_active self (Sampled p) state
        = py_int (ParameterManager.extract_value (param_manager self) p
                    (IState.parameters state)))
  /\ (forall z : Z, py_int (NInt z) = Ok z)
  /\ (forall (f : float) (s : bool) (m : positive) (e : Z),
        Prim2SF f = S754_finite s m e ->
        exists mag : Z,
          py_int (NFloat f) = Ok (if s then (- mag)%Z else mag)
          /\ (0 <= mag)%Z
          /\ (0 <= e -> mag = Z.pos m * 2 ^ e)%Z
          /\ (e < 0 -> mag * 2 ^ (- e) <= Z.pos m < (mag + 1) * 2 ^ (- e))%Z).
Proof.
  repeat split; try reflexivity.
  intros f s m e Hf. exists (trunc_magnitude m e).
  split; [simpl; now rewrite Hf|].
  split; [apply trunc_magnitude_nonneg|].
  apply trunc_magnitude_spec.
Qed.

(* ================================================================== *)
(** * Registration of one restraint *)
(* ================================================================== *)

Arguments rmap {A B} f l : simpl never.
Arguments _setup_precisions precisions n_distances n_conditions : simpl never.

Ltac run_registration :=
  unfold registration_of, calls_issued, track, _add_meld_restraint,
    create_restraint, create, append_distance, append_hyperbolic,
    append_torsion, append_dist_prof, append_torsion_profile, append_gmm,
    on_tracker, push_distance, push_hyperbolic, push_torsion, push_dist_prof,
    push_torsion_profile, push_gmm, bind, ret, lift, raise; simpl.

(** [_add_meld_restraint] either makes the one creation call of the
    restraint, appends the restraint to the tracker and returns the number of
    restraints created before, or raises and changes nothing. *)
Lemma add_meld_restraint_run (rest : SelectableRestraint) (alpha : float)
  (timestep : Z) (w : world) :
  _add_meld_restraint rest alpha timestep w
  = match registration_of rest alpha timestep with
    | Ok cs => (World (track rest (w_tracker w)) (w_force w ++ cs),
                Ok (Z.of_nat (n_restraints (w_force w))))
    | Raise e => (w, Raise e)
    end.
Proof.
  destruct w as [t f]. destruct rest as [r|r|r|r|r|r|name s rp];
    run_registration; try reflexivity.
  - destruct (rmap _ _); reflexivity.
  - destruct (rmap _ _); reflexivity.
  - destruct (_setup_precisions _ _ _); reflexivity.
Qed.

(** A registration that succeeds makes exactly one call, the creation call
    of the restraint's kind. *)
Lemma registration_of_ok (rest : SelectableRestraint) (alpha : float)
  (timestep : Z) (cs : list call) :
  registration_of rest alpha timestep = Ok cs ->
  exists k a, kind_of rest = Some k /\ cs = [Call (add_method k) a].
Proof.
  destruct rest as [r|r|r|r|r|r|name s rp]; run_registration; intros H.
  - injection H as <-. exists KDistance. eexists. split; reflexivity.
  - injection H as <-. exists KHyperbolic. eexists. split; reflexivity.
  - injection H as <-. exists KTorsion. eexists. split; reflexivity.
  - destruct (rmap _ _); [|discriminate].
    injection H as <-. exists KDistProfile. eexists. split; reflexivity.
  - destruct (rmap _ _); [|discriminate].
    injection H as <-. exists KTorsProfile. eexists. split; reflexivity.
  - destruct (_setup_precisions _ _ _); [|discriminate].
    injection H as <-. exists KGMM. eexists. split; reflexivity.
  - discriminate.
Qed.

Lemma tracked_track (rest : SelectableRestraint) (alpha : float)
  (timestep : Z) (cs : list call) (t : _RestraintTracker.t) (k : kind) :
  registration_of rest alpha timestep = Ok cs ->
  tracked k (track rest t) = tracked k t ++ filter (has_kind k) [rest].
Proof.
  destruct t.
  destruct rest as [r|r|r|r|r|r|name s rp]; run_registration; intros H;
    try discriminate.
  1-3: destruct k; simpl; rewrite ?map_app, ?app_nil_r; reflexivity.
  1-2: destruct (rmap _ _); [|discriminate];
       destruct k; simpl; rewrite ?map_app, ?app_nil_r; reflexivity.
  destruct (_setup_precisions _ _ _); [|discriminate];
    destruct k; simpl; rewrite ?map_app, ?app_nil_r; reflexivity.
Qed.

Lemma groups_track (rest : SelectableRestraint) (t : _RestraintTracker.t) :
  groups (track rest t) = groups t
  /\ collections (track rest t) = collections t.
Proof.
  destruct t.
  destruct rest as [r|r|r|r|r|r|name s rp]; run_registration; auto.
  1-2: destruct (rmap _ _); auto.
  destruct (_setup_precisions _ _ _); auto.
Qed.

(* ================================================================== *)
(** * The refresh, kind by kind *)
(* ================================================================== *)

Lemma issue_app (l1 l2 : list (result (list call))) (f : MeldForce) :
  issue (l1 ++ l2) f
  = match issue l1 f with
    | (Some f', Ok _) => issue l2 f'
    | other => other
    end.
Proof.
  revert f; induction l1 as [|[c|e] l1 IH]; intros f; simpl; auto.
Qed.

Lemma issue_some (l : list (result (list call))) (f : MeldForce) :
  exists f' r, issue l f = (Some f', r).
Proof.
  revert f; induction l as [|[c|e] l IH]; intros f; simpl; eauto.
Qed.

Lemma enumerate_map {X Y : Type} (g : X -> Y) (l : list X) :
  enumerate (map g l) = map (fun p => (fst p, g (snd p))) (enumerate l).
Proof.
  unfold enumerate. rewrite length_map. generalize 0.
  induction l as [|x l IH]; intros s; simpl; [reflexivity|].
  now rewrite IH.
Qed.

(** A loop over [enumerate] whose body makes the calls [g] builds, or
    raises what building them raises. *)
Lemma mfor_issue {X : Type} (body : nat * X -> M (option MeldForce) unit)
  (g : nat * X -> result (list call)) :
  (forall p f, body p (Some f)
               = match g p with
                 | Ok cs => (Some (f ++ cs), Ok tt)
                 | Raise e => (Some f, Raise e)
                 end) ->
  forall (l : list (nat * X)) (f : MeldForce),
    mfor body l (Some f) = issue (map g l) f.
Proof.
  intros Hbody l. induction l as [|p l IH]; intros f; simpl; [reflexivity|].
  unfold bind. rewrite Hbody. destruct (g p); auto.
Qed.

Ltac run_refresh :=
  unfold force_call, self_force, bind, ret, lift; simpl;
  run_registration.

Ltac loop_as_issue :=
  match goal with
  | |- context [@mfor _ _ ?b (enumerate ?l) (Some ?f0)] =>
      match goal with
      | |- context [map ?g (enumerate l)] =>
          rewrite (@mfor_issue _ b g);
          [| let i := fresh "i" in let r := fresh "r" in let f1 := fresh "f" in
             intros [i r] f1; run_refresh; try reflexivity;
             try (destruct (rmap _ _); reflexivity);
             try (destruct (_setup_precisions _ _ _); reflexivity) ]
      end
  end.

(** [_update_restraints] makes, for every tracked restraint, the call its
    registration would make at the same alpha and timestep, as an update at
    the restraint's index in the tracker's sequence of its kind. *)
Lemma update_restraints_issue (self : MeldRestraintTransformer.t)
  (alpha : float) (timestep : Z) (f : MeldForce) :
  _update_restraints self alpha timestep (Some f)
  = issue (refresh_by_registration (tracker self) alpha timestep) f.
Proof.
  unfold _update_restraints, refresh_by_registration, refresh_of_kind,
    all_kinds.
  simpl flat_map. rewrite app_nil_r.
  unfold tracked. rewrite !enumerate_map, !map_map.
  revert f.
  do 5 (intros f; rewrite issue_app; unfold bind at 1; loop_as_issue;
        match goal with
        | |- context [issue ?l f] =>
            destruct (issue_some l f) as (f' & r & ->)
        end;
        destruct r; trivial; revert f'; clear f).
  intros f. loop_as_issue. reflexivity.
Qed.

Lemma issue_extends (l : list (result (list call))) (f : MeldForce) :
  exists calls r, issue l f = (Some (f ++ calls), r).
Proof.
  revert f; induction l as [|[c|e] l IH]; intros f; simpl.
  - exists [], (Ok tt). now rewrite app_nil_r.
  - destruct (IH (f ++ c)) as (calls & r & ->).
    exists (c ++ calls), r. now rewrite app_assoc.
  - exists [], (Raise e). now rewrite app_nil_r.
Qed.

Lemma issue_ok (l : list (result (list call))) (f f' : MeldForce) :
  issue l f = (Some f', Ok tt) ->
  exists css, l = map Ok css /\ f' = f ++ concat css.
Proof.
  revert f; induction l as [|[c|e] l IH]; intros f; simpl; intros H.
  - injection H as <-. exists []. now rewrite app_nil_r.
  - destruct (IH _ H) as (css & -> & ->).
    exists (c :: css). simpl. now rewrite app_assoc.
  - discriminate.
Qed.

Lemma issue_all_ok {X : Type} (h : X -> list call) (l : list X)
  (more : list (result (list call))) (f : MeldForce) :
  issue (map (fun x => Ok (h x)) l ++ more) f = issue more (f ++ flat_map h l).
Proof.
  revert f; induction l as [|x l IH]; intros f; simpl.
  - now rewrite app_nil_r.
  - rewrite IH. now rewrite app_assoc.
Qed.

Lemma nth_error_combine_seq {X : Type} (l : list X) (s i : nat) (x : X) :
  nth_error l i = Some x ->
  nth_error (combine (seq s (length l)) l) i = Some (s + i, x).
Proof.
  revert s i; induction l as [|y l IH]; intros s [|i] H; simpl in *;
    try discriminate.
  - injection H as ->. now rewrite Nat.add_0_r.
  - rewrite (IH (S s) i H). do 2 f_equal. lia.
Qed.

Lemma nth_error_enumerate {X : Type} (l : list X) (i : nat) (x : X) :
  nth_error l i = Some x -> nth_error (enumerate l) i = Some (i, x).
Proof. intros H. apply (nth_error_combine_seq l 0 i x H). Qed.

Lemma tracked_kind (k : kind) (t : _RestraintTracker.t)
  (rest : SelectableRestraint) :
  In rest (tracked k t) -> kind_of rest = Some k.
Proof.
  destruct k; simpl; intros H; apply in_map_iff in H;
    destruct H as (r & <- & _); reflexivity.
Qed.

(* ================================================================== *)
(** * The restraint serializer: properties *)
(* ================================================================== *)

(** C7. For every restraint kind and every restraint of that kind, the
    refresh passes the engine the parameter list of the creation call for
    that kind, with the same arity, order and per-slot content, computed at
    the (alpha, timestep) of the refresh and preceded by the engine index:
    [_update_restraints] makes exactly the calls that
    [_add_meld_restraint] would make for the tracked restraints, kind by
    kind and in tracker order, each turned into the update call of its
    kind with the index in front, and it raises where that registration
    would raise. *)
Theorem refresh_matches_registration (self : MeldRestraintTransformer.t)
  (alpha : float) (timestep : Z) (f : MeldForce) :
  _update_restraints self alpha timestep (Some f)
  = issue (refresh_by_registration (tracker self) alpha timestep) f
  /\ (forall (rest : SelectableRestraint) (w : world) (cs : list call),
        registration_of rest alpha timestep = Ok cs ->
        w_force (fst (_add_meld_restraint rest alpha timestep w))
        = w_force w ++ cs)
  /\ (forall f' : MeldForce,
        _update_restraints self alpha timestep (Some f) = (Some f', Ok tt) ->
        exists calls,
          f' = f ++ calls
          /\ forall (k : kind) (i : nat) (rest : SelectableRestraint),
               nth_error (tracked k (tracker self)) i = Some rest ->
               exists a,
                 registration_of rest alpha timestep
                 = Ok [Call (add_method k) a]
                 /\ In (Call (modify_of (add_method k)) (AInt (Z.of_nat i) :: a))
                       calls).
Proof.
  split; [apply update_restraints_issue|].
  split; [intros rest w cs H; now rewrite add_meld_restraint_run, H|].
  intros f' H. rewrite update_restraints_issue in H.
  apply issue_ok in H. destruct H as (css & Hcss & ->).
  exists (concat css). split; [reflexivity|].
  intros k i rest Hi.
  assert (Hin : In (rbind (registration_of rest alpha timestep)
                          (fun cs => Ok (map (as_modify i) cs)))
                   (refresh_by_registration (tracker self) alpha timestep)).
  { unfold refresh_by_registration. apply in_flat_map. exists k. split.
    - destruct k; simpl; auto 10.
    - unfold refresh_of_kind. apply in_map_iff. exists (i, rest). split; [reflexivity|].
      eapply nth_error_In. apply nth_error_enumerate, Hi. }
  rewrite Hcss in Hin. apply in_map_iff in Hin. destruct Hin as (cs' & Hcs' & Hin).
  destruct (registration_of rest alpha timestep) as [cs|e] eqn:Hreg;
    [|discriminate].
  simpl in Hcs'. injection Hcs' as ->.
  destruct (registration_of_ok _ _ _ _ Hreg) as (k' & a & Hk' & ->).
  apply nth_error_In, tracked_kind in Hi.
  assert (k' = k) by congruence. subst k'.
  exists a. split; [reflexivity|].
  apply in_concat. eexists. split; [exact Hin|]. now left.
Qed.

Local Open Scope float_scope.

(** C2 (as amended). For every Distance restraint with scaler s, ramp r and
    force constant K, and for every (alpha, timestep), the force constant
    passed to the engine by the registration call and by the refresh call
    is K * (s(alpha) * r(timestep)): the scale s(alpha) * r(timestep) is
    computed first and K is multiplied by it, in binary64 arithmetic.
    Nothing is special at alpha = 0, alpha = 1 or timestep = 0. *)
Theorem distance_force_constant (r : DistanceRestraint.t) (alpha : float)
  (timestep : Z) :
  (forall w : world,
     _add_meld_restraint (Distance r) alpha timestep w
     = (World (track (Distance r) (w_tracker w))
          (w_force w
           ++ [Call addDistanceRestraint
                 (distance_geometry r alpha
                  ++ [AFloat (DistanceRestraint.k r
                              * (DistanceRestraint.scaler r alpha
                                 * DistanceRestraint.ramp r timestep))])]),
        Ok (Z.of_nat (n_restraints (w_force w)))))
  /\ (forall (self : MeldRestraintTransformer.t) (f : MeldForce) (i : nat),
        nth_error (distance_restraints (tracker self)) i = Some r ->
        exists calls res,
          _update_restraints self alpha timestep (Some f)
          = (Some (f ++ calls), res)
          /\ nth_error calls i
             = Some (Call modifyDistanceRestraint
                       (AInt (Z.of_nat i)
                        :: distance_geometry r alpha
                        ++ [AFloat (DistanceRestraint.k r
                                    * (DistanceRestraint.scaler r alpha
                                       * DistanceRestraint.ramp r timestep))]))).
Proof.
  split.
  - intros w. rewrite add_meld_restraint_run. reflexivity.
  - intros self f i Hi. rewrite update_restraints_issue.
    unfold refresh_by_registration, refresh_of_kind, all_kinds.
    simpl flat_map. rewrite enumerate_map, map_map.
    set (h := fun p : nat * DistanceRestraint.t =>
                [Call modifyDistanceRestraint
                   (AInt (Z.of_nat (fst p))
                    :: distance_geometry (snd p) alpha
                    ++ [AFloat (DistanceRestraint.k (snd p)
                          * (DistanceRestraint.scaler (snd p) alpha
                             * DistanceRestraint.ramp (snd p) timestep))])]).
    rewrite (map_ext _ (fun p => Ok (h p))) by (intros [j d]; reflexivity).
    rewrite issue_all_ok.
    match goal with
    | |- context [issue ?l ?f0] =>
        destruct (issue_extends l f0) as (more & res & ->)
    end.
    rewrite <- app_assoc. do 2 eexists. split; [reflexivity|].
    apply nth_error_enumerate in Hi.
    assert (Hflat : flat_map h (enumerate (distance_restraints (tracker self)))
                    = map (fun p => Call modifyDistanceRestraint
                   (AInt (Z.of_nat (fst p))
                    :: distance_geometry (snd p) alpha
                    ++ [AFloat (DistanceRestraint.k (snd p)
                          * (DistanceRestraint.scaler (snd p) alpha
                             * DistanceRestraint.ramp (snd p) timestep))]))
                          (enumerate (distance_restraints (tracker self))))
      by apply flat_map_singleton.
    rewrite Hflat.
    rewrite nth_error_app1.
    + rewrite nth_error_map, Hi. reflexivity.
    + rewrite length_map. apply nth_error_Some. now rewrite Hi.
Qed.

(** C2, counterexample. With K = 0.1, s = 0.2 and r = 0.3 the force constant
    the registration passes is 0.1 * (0.2 * 0.3), which is not the float
    0.1 * 0.2 * 0.3: the two differ in the last place. *)
Lemma distance_force_constant_counterexample :
  exists fc : float,
    w_force (fst (_add_meld_restraint (Distance distance_tenth) 0.5 10
                    (World _RestraintTracker.__init__ [])))
    = [Call addDistanceRestraint
         (distance_geometry distance_tenth 0.5 ++ [AFloat fc])]
    /\ fc <> DistanceRestraint.k distance_tenth
              * DistanceRestraint.scaler distance_tenth 0.5
              * DistanceRestraint.ramp distance_tenth 10.
Proof.
  eexists. split; [reflexivity|].
  vm_compute. discriminate.
Qed.

Local Close Scope float_scope.

(* ================================================================== *)
(** * The registration invariant *)
(* ================================================================== *)

Lemma registered_fresh (self : MeldRestraintTransformer.t) (state : IState.t) :
  registered self state (World _RestraintTracker.__init__ []) [] [] [].
Proof.
  split; simpl; try constructor. intros []; reflexivity.
Qed.

Lemma registered_at_app {X : Type} (l more : list X) (idxs : list Z)
  (xs : list X) :
  map (registered_at l) idxs = map Some xs ->
  map (registered_at (l ++ more)) idxs = map Some xs.
Proof.
  revert xs; induction idxs as [|z idxs IH]; intros [|x xs] H; simpl in *;
    try discriminate; trivial.
  injection H as Hz H. f_equal; [|now apply IH].
  unfold registered_at in *. rewrite nth_error_app1; trivial.
  apply nth_error_Some. now rewrite Hz.
Qed.

Lemma group_entry_ok_app self state rs more entry c :
  group_entry_ok self state rs entry c ->
  group_entry_ok self state (rs ++ more) entry c.
Proof.
  intros (idxs & n & -> & H). exists idxs, n. split; trivial.
  destruct entry as [g|].
  - destruct H as [Hn H]. split; trivial. now apply registered_at_app.
  - destruct H as [Hn [rest H]]. split; trivial. exists rest.
    now apply (registered_at_app rs more idxs [rest]).
Qed.

Lemma collection_entry_ok_app gs more entry c :
  collection_entry_ok gs entry c ->
  collection_entry_ok (gs ++ more) entry c.
Proof.
  intros (idxs & n & -> & H). exists idxs, n. split; trivial.
  destruct entry as [coll|].
  - rewrite <- map_map with (f := Some) (g := Some).
    apply registered_at_app. now rewrite map_map.
  - destruct H as [Hn H]. split; trivial.
    eapply Forall_impl; [|exact H]. intros z Hz. unfold registered_at in *.
    rewrite nth_error_app1; trivial. apply nth_error_Some. now rewrite Hz.
Qed.

Lemma registered_counts {self state w rs gs cs} :
  registered self state w rs gs cs ->
  n_restraints (w_force w) = length rs
  /\ n_groups (w_force w) = length gs
  /\ n_collections (w_force w) = length cs.
Proof.
  intros [_ _ _ Hc Hg Hcc _].
  unfold n_restraints, n_groups, n_collections.
  apply Forall2_length in Hc, Hg, Hcc. unfold is_creation in Hc.
  repeat split; congruence.
Qed.

Lemma calls_of_app (m : method) (f1 f2 : MeldForce) :
  calls_of m (f1 ++ f2) = calls_of m f1 ++ calls_of m f2.
Proof. apply filter_app. Qed.

Lemma Forall2_snoc {X Y : Type} (R : X -> Y -> Prop) (l : list X)
  (l' : list Y) (x : X) (y : Y) :
  Forall2 R l l' -> R x y -> Forall2 R (l ++ [x]) (l' ++ [y]).
Proof. intros H Hxy. apply Forall2_app; auto. Qed.

(** A restraint has been registered. *)
Lemma registered_restraint {self state w rs gs cs} rest {css} :
  registered self state w rs gs cs ->
  registration_of rest 0%float 0%Z = Ok css ->
  registered self state (World (track rest (w_tracker w)) (w_force w ++ css))
    (rs ++ [rest]) gs cs.
Proof.
  intros [Ht Hg Hc Hcr Hgc Hcc Hm] Hreg.
  destruct (registration_of_ok _ _ _ _ Hreg) as (k & a & Hk & ->).
  assert (Hcre : is_creation (Call (add_method k) a) = true)
    by (destruct k; reflexivity).
  assert (HnG : method_eqb (add_method k) addGroup = false)
    by (destruct k; reflexivity).
  assert (HnC : method_eqb (add_method k) addCollection = false)
    by (destruct k; reflexivity).
  split; simpl.
  - intros k'. rewrite (tracked_track _ _ _ _ _ _ Hreg), Ht.
    now rewrite filter_app.
  - now rewrite (proj1 (groups_track rest _)).
  - now rewrite (proj2 (groups_track rest _)).
  - rewrite filter_app. simpl. rewrite Hcre. now apply Forall2_snoc.
  - rewrite calls_of_app. simpl. rewrite HnG, app_nil_r.
    eapply Forall2_impl; [|exact Hgc].
    intros; now apply group_entry_ok_app.
  - rewrite calls_of_app. simpl. rewrite HnC, app_nil_r. exact Hcc.
  - apply Forall_app. split; trivial. constructor; auto.
Qed.

(** A group has been created and recorded. *)
Lemma registered_group {self state w rs gs cs entry idxs n} :
  registered self state w rs gs cs ->
  group_entry_ok self state rs entry (Call addGroup [AIntList idxs; AInt n]) ->
  registered self state
    (World (push_group entry (w_tracker w))
           (w_force w ++ [Call addGroup [AIntList idxs; AInt n]]))
    rs (gs ++ [entry]) cs.
Proof.
  intros [Ht Hg Hc Hcr Hgc Hcc Hm] Hentry.
  split; simpl.
  - intros k. rewrite <- Ht. destruct k; reflexivity.
  - now rewrite Hg.
  - exact Hc.
  - rewrite filter_app. simpl. now rewrite app_nil_r.
  - rewrite calls_of_app. simpl. now apply Forall2_snoc.
  - rewrite calls_of_app. simpl. rewrite app_nil_r.
    eapply Forall2_impl; [|exact Hcc].
    intros; now apply collection_entry_ok_app.
  - apply Forall_app. split; trivial. constructor; auto.
Qed.

(** A collection has been created and recorded. *)
Lemma registered_collection {self state w rs gs cs entry idxs n} :
  registered self state w rs gs cs ->
  collection_entry_ok gs entry (Call addCollection [AIntList idxs; AInt n]) ->
  registered self state
    (World (push_collection entry (w_tracker w))
           (w_force w ++ [Call addCollection [AIntList idxs; AInt n]]))
    rs gs (cs ++ [entry]).
Proof.
  intros [Ht Hg Hc Hcr Hgc Hcc Hm] Hentry.
  split; simpl.
  - intros k. rewrite <- Ht. destruct k; reflexivity.
  - exact Hg.
  - now rewrite Hc.
  - rewrite filter_app. simpl. now rewrite app_nil_r.
  - rewrite calls_of_app. simpl. now rewrite app_nil_r.
  - rewrite calls_of_app. simpl. now apply Forall2_snoc.
  - apply Forall_app. split; trivial. constructor; auto.
Qed.

Lemma add_always_on_rest_run (group_list : list Z)
  (rest : SelectableRestraint) (w : world) :
  add_always_on_rest group_list rest w
  = match registration_of rest 0%float 0%Z with
    | Ok cs =>
        (World (push_group None (track rest (w_tracker w)))
           ((w_force w ++ cs)
            ++ [Call addGroup
                  [AIntList [Z.of_nat (n_restraints (w_force w))]; AInt 1]]),
         Ok (group_list ++ [Z.of_nat (n_groups (w_force w ++ cs))]))
    | Raise e => (w, Raise e)
    end.
Proof.
  unfold add_always_on_rest, bind. rewrite add_meld_restraint_run.
  destruct (registration_of rest 0%float 0%Z); reflexivity.
Qed.

Lemma add_group_rest_run (restraint_indices : list Z)
  (rest : SelectableRestraint) (w : world) :
  add_group_rest restraint_indices rest w
  = match registration_of rest 0%float 0%Z with
    | Ok cs =>
        (World (track rest (w_tracker w)) (w_force w ++ cs),
         Ok (restraint_indices ++ [Z.of_nat (n_restraints (w_force w))]))
    | Raise e => (w, Raise e)
    end.
Proof.
  unfold add_group_rest, bind. rewrite add_meld_restraint_run.
  destruct (registration_of rest 0%float 0%Z); reflexivity.
Qed.

Lemma registered_at_last {X : Type} (l : list X) (x : X) :
  registered_at (l ++ [x]) (Z.of_nat (length l)) = Some x.
Proof.
  unfold registered_at. rewrite Nat2Z.id, nth_error_app2, Nat.sub_diag; auto.
Qed.

(** The loop over the always-on restraints. *)
Lemma always_on_loop self state (l : list SelectableRestraint) :
  forall gl w gl' w' rs gs cs,
    registered self state w rs gs cs ->
    mfold add_always_on_rest l gl w = (w', Ok gl') ->
    registered self state w' (rs ++ l) (gs ++ repeat None (length l)) cs
    /\ gl' = gl ++ map Z.of_nat (seq (length gs) (length l)).
Proof.
  induction l as [|rest l IH]; intros gl w gl' w' rs gs cs Hreg Hrun.
  - simpl in Hrun. injection Hrun as <- <-. simpl.
    now rewrite !app_nil_r.
  - simpl in Hrun. unfold bind in Hrun.
    rewrite add_always_on_rest_run in Hrun.
    destruct (registration_of rest 0%float 0%Z) as [css|e] eqn:Hr;
      [|discriminate].
    destruct (registered_counts Hreg) as (Hnr & Hng & _).
    pose proof (registered_restraint rest Hreg Hr) as H1.
    destruct (registered_counts H1) as (_ & Hng1 & _). simpl in Hng1.
    assert (H2 : registered self state
              (World (push_group None (track rest (w_tracker w)))
                 ((w_force w ++ css)
                  ++ [Call addGroup
                        [AIntList [Z.of_nat (n_restraints (w_force w))];
                         AInt 1]]))
              (rs ++ [rest]) (gs ++ [None]) cs).
    { apply (registered_group (w := World _ _) H1).
      do 2 eexists. split; [reflexivity|]. split; trivial.
      exists rest. simpl. now rewrite Hnr, registered_at_last. }
    destruct (IH _ _ _ _ _ _ _ H2 Hrun) as [H3 ->].
    rewrite <- !app_assoc in H3. simpl in H3. split; trivial.
    rewrite Hng1, length_app, <- app_assoc. simpl.
    do 2 f_equal. now rewrite Nat.add_1_r.
Qed.

Lemma registered_at_sentinels (gs : list (option RestraintGroup.t)) (n : nat) :
  Forall (fun z => registered_at (gs ++ repeat None n) z = Some None)
         (map Z.of_nat (seq (length gs) n)).
Proof.
  apply Forall_forall. intros z Hz. apply in_map_iff in Hz.
  destruct Hz as (i & <- & Hi). apply in_seq in Hi.
  unfold registered_at. rewrite Nat2Z.id, nth_error_app2 by lia.
  apply nth_error_repeat. lia.
Qed.

(** The always-on part of [add_interactions]. *)
Lemma add_always_on_registered self state w w' rs gs cs :
  registered self state w rs gs cs ->
  add_always_on self w = (w', Ok tt) ->
  registered self state w' (rs ++ always_on self)
    (gs ++ repeat None (length (always_on self))) (cs ++ [None]).
Proof.
  intros Hreg Hrun. unfold add_always_on, bind in Hrun.
  destruct (mfold add_always_on_rest (always_on self) [] w)
    as [w1 [gl|e]] eqn:Hloop; [|discriminate].
  destruct (always_on_loop self state _ _ _ _ _ _ _ _ Hreg Hloop) as [H1 ->].
  unfold meld_force_addCollection, create, append_collection, on_tracker
    in Hrun. simpl in Hrun. injection Hrun as <-.
  apply (registered_collection H1).
  do 2 eexists. split; [reflexivity|]. split; trivial.
  apply registered_at_sentinels.
Qed.

Lemma registered_at_block {X : Type} (l block : list X) :
  map (registered_at (l ++ block))
      (map Z.of_nat (seq (length l) (length block)))
  = map Some block.
Proof.
  rewrite map_map. revert l. induction block as [|x block IH]; intros l;
    [reflexivity|].
  simpl. f_equal.
  - unfold registered_at. rewrite Nat2Z.id, nth_error_app2, Nat.sub_diag; auto.
  - specialize (IH (l ++ [x])). rewrite <- app_assoc, length_app in IH.
    simpl in IH. now rewrite Nat.add_1_r in IH.
Qed.

(** The loop over the restraints of a group. *)
Lemma group_rest_loop self state (l : list SelectableRestraint) :
  forall acc w acc' w' rs gs cs,
    registered self state w rs gs cs ->
    mfold add_group_rest l acc w = (w', Ok acc') ->
    registered self state w' (rs ++ l) gs cs
    /\ acc' = acc ++ map Z.of_nat (seq (length rs) (length l)).
Proof.
  induction l as [|rest l IH]; intros acc w acc' w' rs gs cs Hreg Hrun.
  - simpl in Hrun. injection Hrun as <- <-. simpl. now rewrite !app_nil_r.
  - simpl in Hrun. unfold bind in Hrun. rewrite add_group_rest_run in Hrun.
    destruct (registration_of rest 0%float 0%Z) as [css|e] eqn:Hr;
      [|discriminate].
    destruct (registered_counts Hreg) as (Hnr & _ & _).
    pose proof (registered_restraint rest Hreg Hr) as H1.
    destruct (IH _ _ _ _ _ _ _ H1 Hrun) as [H2 ->].
    rewrite <- app_assoc in H2. simpl in H2. split; trivial.
    rewrite Hnr, length_app, <- app_assoc. simpl.
    do 2 f_equal. now rewrite Nat.add_1_r.
Qed.

(** One group of a collection. *)
Lemma add_group_registered self state locals g w locals' w' rs gs cs :
  registered self state w rs gs cs ->
  add_group self state locals g w = (w', Ok locals') ->
  registered self state w' (rs ++ RestraintGroup.restraints g)
    (gs ++ [Some g]) cs
  /\ locals' = (fst locals ++ [Z.of_nat (length gs)], Some g).
Proof.
  intros Hreg Hrun. unfold add_group, bind in Hrun.
  destruct (mfold add_group_rest (RestraintGroup.restraints g) [] w)
    as [w1 [idxs|e]] eqn:Hloop; [|discriminate].
  destruct (group_rest_loop self state _ _ _ _ _ _ _ _ Hreg Hloop) as [H1 ->].
  unfold lift in Hrun.
  destruct (_handle_num_active self (RestraintGroup.num_active g) state)
    as [n|e] eqn:Hn; [|discriminate].
  unfold meld_force_addGroup, create, append_group, on_tracker, ret in Hrun.
  simpl in Hrun. injection Hrun as <- <-.
  destruct (registered_counts H1) as (_ & Hng & _).
  split; [|now rewrite Hng].
  apply (registered_group H1).
  do 2 eexists. split; [reflexivity|]. split; trivial.
  apply registered_at_block.
Qed.

Lemma last_cons_default {X : Type} (l : list X) (x d d' : X) :
  last (x :: l) d = last (x :: l) d'.
Proof.
  revert x; induction l as [|y l IH]; intros x; [reflexivity|].
  change (last (y :: l) d = last (y :: l) d'). apply IH.
Qed.

(** The loop over the groups of a collection. *)
Lemma groups_loop self state (l : list RestraintGroup.t) :
  forall locals w locals' w' rs gs cs,
    registered self state w rs gs cs ->
    mfold (add_group self state) l locals w = (w', Ok locals') ->
    registered self state w'
      (rs ++ flat_map RestraintGroup.restraints l) (gs ++ map Some l) cs
    /\ fst locals' = fst locals ++ map Z.of_nat (seq (length gs) (length l))
    /\ snd locals' = last (map Some l) (snd locals).
Proof.
  induction l as [|g l IH]; intros locals w locals' w' rs gs cs Hreg Hrun.
  - simpl in Hrun. injection Hrun as <- <-. simpl. now rewrite !app_nil_r.
  - simpl in Hrun. unfold bind in Hrun.
    destruct (add_group self state locals g w) as [w1 [locals1|e]] eqn:Hg;
      [|discriminate].
    destruct (add_group_registered self state _ _ _ _ _ _ _ _ Hreg Hg) as [H1 ->].
    destruct (IH _ _ _ _ _ _ _ H1 Hrun) as (H2 & Hfst & Hsnd).
    rewrite <- !app_assoc in H2. simpl in H2. split; trivial.
    simpl fst in Hfst. simpl snd in Hsnd. split.
    + rewrite Hfst, length_app, <- app_assoc. simpl.
      do 2 f_equal. now rewrite Nat.add_1_r.
    + rewrite Hsnd. destruct l as [|g' l]; [reflexivity|].
      simpl map.
      etransitivity; [apply (last_cons_default _ _ _ (snd locals))|reflexivity].
Qed.

(** One selectively active collection. *)
Lemma add_collection_registered self state gv coll w gv' w' rs gs cs :
  registered self state w rs gs cs ->
  add_collection self state gv coll w = (w', Ok gv') ->
  registered self state w'
    (rs ++ flat_map RestraintGroup.restraints
             (SelectivelyActiveCollection.groups coll))
    (gs ++ map Some (SelectivelyActiveCollection.groups coll))
    (cs ++ [Some coll]).
Proof.
  intros Hreg Hrun. unfold add_collection, bind in Hrun.
  destruct (mfold (add_group self state)
              (SelectivelyActiveCollection.groups coll) ([], gv) w)
    as [w1 [locals|e]] eqn:Hloop; [|discriminate].
  destruct (groups_loop self state _ _ _ _ _ _ _ _ Hreg Hloop)
    as (H1 & Hfst & _).
  destruct (snd locals) as [group|]; [|discriminate].
  unfold ret, lift in Hrun.
  destruct (_handle_num_active self (RestraintGroup.num_active group) state)
    as [n|e]; [|discriminate].
  unfold meld_force_addCollection, create, append_collection, on_tracker
    in Hrun. simpl in Hrun. injection Hrun as <- _.
  apply (registered_collection H1).
  do 2 eexists. split; [reflexivity|].
  rewrite Hfst. simpl.
  rewrite <- (length_map Some (SelectivelyActiveCollection.groups coll)).
  rewrite registered_at_block. now rewrite map_map.
Qed.

(** The loop over the selectively active collections. *)
Lemma collections_loop self state (l : list SelectivelyActiveCollection.t) :
  forall gv w gv' w' rs gs cs,
    registered self state w rs gs cs ->
    mfold (add_collection self state) l gv w = (w', Ok gv') ->
    registered self state w'
      (rs ++ flat_map (fun coll =>
                         flat_map RestraintGroup.restraints
                                  (SelectivelyActiveCollection.groups coll)) l)
      (gs ++ flat_map (fun coll =>
                         map Some (SelectivelyActiveCollection.groups coll)) l)
      (cs ++ map Some l).
Proof.
  induction l as [|coll l IH]; intros gv w gv' w' rs gs cs Hreg Hrun.
  - simpl in Hrun. injection Hrun as <- _. simpl. now rewrite !app_nil_r.
  - simpl in Hrun. unfold bind in Hrun.
    destruct (add_collection self state gv coll w) as [w1 [gv1|e]] eqn:Hc;
      [|discriminate].
    pose proof (add_collection_registered self state _ _ _ _ _ _ _ _ Hreg Hc) as H1.
    pose proof (IH _ _ _ _ _ _ _ H1 Hrun) as H2.
    rewrite <- !app_assoc in H2. exact H2.
Qed.

(** Everything [add_interactions] registers, on a new tracker and a new
    MeldForce. *)
Lemma register_all_registered self state w' :
  register_all self state (World _RestraintTracker.__init__ []) = (w', Ok tt) ->
  registered self state w' (registration_order self) (group_entries self)
    (collection_entries self).
Proof.
  intros Hrun. unfold register_all, bind in Hrun.
  pose proof (registered_fresh self state) as H0.
  unfold registration_order, group_entries, collection_entries.
  destruct (always_on self) as [|rest l] eqn:Hon;
    cbv beta iota delta [truthy] in Hrun |- *.
  - unfold ret in Hrun. unfold add_selective_on, bind in Hrun.
    destruct (mfold (add_collection self state) (selective_on self) None _)
      as [w1 [gv|e]] eqn:Hloop; [|discriminate].
    injection Hrun as <-.
    apply (collections_loop self state _ _ _ _ _ _ _ _ H0 Hloop).
  - destruct (add_always_on self _) as [w1 [[]|e]] eqn:Halways; [|discriminate].
    pose proof (add_always_on_registered self state _ _ _ _ _ H0 Halways) as H1.
    rewrite Hon in H1. simpl app in H1.
    unfold add_selective_on, bind in Hrun.
    destruct (mfold (add_collection self state) (selective_on self) None _)
      as [w2 [gv|e]] eqn:Hloop; [|discriminate].
    injection Hrun as <-.
    apply (collections_loop self state _ _ _ _ _ _ _ _ H1 Hloop).
Qed.

(* ================================================================== *)
(** * The whole update *)
(* ================================================================== *)

Lemma bind_issue (m1 m2 : M (option MeldForce) unit)
  (l1 l2 : list (result (list call))) :
  (forall f, m1 (Some f) = issue l1 f) ->
  (forall f, m2 (Some f) = issue l2 f) ->
  forall f, bind m1 (fun _ => m2) (Some f) = issue (l1 ++ l2) f.
Proof.
  intros H1 H2 f. unfold bind. rewrite H1, issue_app.
  destruct (issue_some l1 f) as (f' & r & ->).
  destruct r as [[]|e]; [apply H2|reflexivity].
Qed.

Lemma count_refresh_issue {X : Type} (self : MeldRestraintTransformer.t)
  (state : IState.t) (m : method) (num_active : X -> num_active_t)
  (l : list (option X)) (f : MeldForce) :
  mfor (fun '(i, x) =>
          match x with
          | None => ret tt
          | Some x =>
              bind (lift (_handle_num_active self (num_active x) state))
                   (fun n => force_call m [AInt (Z.of_nat i); AInt n])
          end) (enumerate l) (Some f)
  = issue (map (count_refresh self state m num_active) (enumerate l)) f.
Proof.
  apply mfor_issue.
  intros [i [x|]] f0; unfold count_refresh; simpl.
  - unfold bind, lift, force_call.
    destruct (_handle_num_active self _ state); reflexivity.
  - unfold ret. now rewrite app_nil_r.
Qed.

Lemma update_groups_collections_issue (self : MeldRestraintTransformer.t)
  (state : IState.t) (f : MeldForce) :
  _update_groups_collections self state (Some f)
  = issue (map (count_refresh self state modifyCollectionNumActive
                  SelectivelyActiveCollection.num_active)
               (enumerate (collections (tracker self)))
           ++ map (count_refresh self state modifyGroupNumActive
                     RestraintGroup.num_active)
                  (enumerate (groups (tracker self)))) f.
Proof.
  unfold _update_groups_collections.
  apply bind_issue; intros f0; apply count_refresh_issue.
Qed.

(** An [update] of an active transformer that has its MeldForce. *)
Lemma update_issue (self : MeldRestraintTransformer.t) (state : IState.t)
  (simulation : Simulation.t) (alpha : float) (timestep : Z) (f : MeldForce) :
  active self = true -> force self = Some f ->
  update self state simulation alpha timestep
  = (MeldRestraintTransformer.mk (param_manager self) (tracker self)
       (always_on self) (selective_on self) (active self)
       (fst (issue (update_calls self state simulation alpha timestep) f)),
     snd (issue (update_calls self state simulation alpha timestep) f)).
Proof.
  intros Hact Hf. unfold update, update_calls. rewrite Hact, Hf.
  rewrite (bind_issue _ _ (refresh_by_registration (tracker self) alpha timestep)
             (map (count_refresh self state modifyCollectionNumActive
                     SelectivelyActiveCollection.num_active)
                  (enumerate (collections (tracker self)))
              ++ map (count_refresh self state modifyGroupNumActive
                        RestraintGroup.num_active)
                     (enumerate (groups (tracker self)))
              ++ [Ok [Call updateParametersInContext
                        [AContext (Simulation.context simulation)]]])).
  - destruct (issue _ f); reflexivity.
  - apply update_restraints_issue.
  - intros f0. rewrite app_assoc. apply bind_issue.
    + apply update_groups_collections_issue.
    + reflexivity.
Qed.

(* ================================================================== *)
(** * What an update can send *)
(* ================================================================== *)

Lemma issue_calls (l : list (result (list call))) (f f' : MeldForce)
  (r : result unit) :
  issue l f = (Some f', r) ->
  exists calls,
    f' = f ++ calls
    /\ forall c, In c calls -> exists cs, In (Ok cs) l /\ In c cs.
Proof.
  revert f; induction l as [|[cs|e] l IH]; intros f; simpl; intros H.
  - injection H as <- _. exists []. rewrite app_nil_r. split; [trivial|].
    intros c [].
  - destruct (IH _ H) as (calls & -> & Hin).
    exists (cs ++ calls). rewrite app_assoc. split; [trivial|].
    intros c Hc. apply in_app_or in Hc. destruct Hc as [Hc|Hc].
    + exists cs. auto.
    + destruct (Hin c Hc) as (cs' & H1 & H2). exists cs'. auto.
  - injection H as <- _. exists []. rewrite app_nil_r. split; [trivial|].
    intros c [].
Qed.

Lemma in_enumerate {X : Type} (l : list X) (i : nat) (x : X) :
  In (i, x) (enumerate l) -> nth_error l i = Some x.
Proof.
  unfold enumerate. intros H.
  assert (G : forall s, In (i, x) (combine (seq s (length l)) l) ->
                        s <= i /\ nth_error l (i - s) = Some x).
  { clear H. induction l as [|y l IH]; intros s H; simpl in H; [easy|].
    destruct H as [H|H].
    - injection H as -> ->. rewrite Nat.sub_diag. auto.
    - destruct (IH _ H) as [Hs Hn]. split; [lia|].
      replace (i - s) with (S (i - S s)) by lia. exact Hn. }
  destruct (G 0 H) as [_ Hn]. now rewrite Nat.sub_0_r in Hn.
Qed.

Lemma count_refresh_ok {X : Type} (self : MeldRestraintTransformer.t)
  (state : IState.t) (m : method) (num_active : X -> num_active_t)
  (l : list (option X)) (cs : list call) (c : call) :
  In (Ok cs) (map (count_refresh self state m num_active) (enumerate l)) ->
  In c cs ->
  exists j n x, c = Call m [AInt (Z.of_nat j); AInt n]
                /\ nth_error l j = Some (Some x).
Proof.
  intros H Hc. apply in_map_iff in H. destruct H as ([j [x|]] & Hp & Hin).
  - unfold count_refresh in Hp. simpl in Hp.
    destruct (_handle_num_active self (num_active x) state) as [n|e];
      [|discriminate].
    simpl in Hp. injection Hp as <-. destruct Hc as [<-|[]].
    exists j, n, x. split; trivial. now apply in_enumerate.
  - unfold count_refresh in Hp. simpl in Hp. injection Hp as <-. destruct Hc.
Qed.

(** Every call of an update is one an update can send. *)
Lemma update_calls_ok (self : MeldRestraintTransformer.t) (state : IState.t)
  (simulation : Simulation.t) (alpha : float) (timestep : Z)
  (cs : list call) (c : call) :
  In (Ok cs) (update_calls self state simulation alpha timestep) ->
  In c cs -> update_call_ok (tracker self) c.
Proof.
  unfold update_calls. intros H Hc.
  apply in_app_or in H. destruct H as [H|H].
  { left. unfold refresh_by_registration in H. apply in_flat_map in H.
    destruct H as (k & _ & H). unfold refresh_of_kind in H.
    apply in_map_iff in H.
    destruct H as ([i rest] & Hp & _).
    destruct (registration_of rest alpha timestep) as [cs0|e] eqn:Hreg;
      [|discriminate].
    simpl in Hp. injection Hp as <-.
    destruct (registration_of_ok _ _ _ _ Hreg) as (k' & a & _ & ->).
    destruct Hc as [<-|[]]. destruct k'; reflexivity. }
  apply in_app_or in H. destruct H as [H|H].
  { right; right; right.
    destruct (count_refresh_ok _ _ _ _ _ _ _ H Hc) as (j & n & x & -> & Hj).
    now exists j, n, x. }
  apply in_app_or in H. destruct H as [H|H].
  { right; right; left.
    destruct (count_refresh_ok _ _ _ _ _ _ _ H Hc) as (j & n & x & -> & Hj).
    now exists j, n, x. }
  destruct H as [H|[]]. injection H as <-. destruct Hc as [<-|[]].
  right; left. reflexivity.
Qed.

(** Any number of updates leaves the tracker as it is and only adds calls
    an update can send. *)
Lemma run_updates_calls (steps : list (IState.t * Simulation.t * float * Z)) :
  forall (self : MeldRestraintTransformer.t) (f : MeldForce),
    force self = Some f ->
    exists calls,
      force (run_updates self steps) = Some (f ++ calls)
      /\ tracker (run_updates self steps) = tracker self
      /\ Forall (update_call_ok (tracker self)) calls.
Proof.
  induction steps as [|[[[state simulation] alpha] timestep] steps IH];
    intros self f Hf; simpl.
  - exists []. rewrite app_nil_r. auto.
  - destruct (active self) eqn:Hact.
    + rewrite (update_issue self state simulation alpha timestep f Hact Hf).
      simpl fst.
      destruct (issue_some (update_calls self state simulation alpha timestep) f)
        as (f1 & r & Hissue).
      destruct (issue_calls _ _ _ _ Hissue) as (calls1 & -> & Hcalls1).
      rewrite Hissue. simpl fst.
      set (self1 := MeldRestraintTransformer.mk _ _ _ _ _ _).
      destruct (IH self1 (f ++ calls1) eq_refl) as (calls2 & Hf2 & Ht2 & Hok2).
      exists (calls1 ++ calls2). rewrite app_assoc. repeat split; trivial.
      apply Forall_app. split; [|exact Hok2].
      apply Forall_forall. intros c Hc.
      destruct (Hcalls1 c Hc) as (cs & Hcs & Hin).
      eapply update_calls_ok; eauto.
    + unfold update. rewrite Hact. simpl fst. now apply IH.
Qed.

(* ================================================================== *)
(** * Sentinels *)
(* ================================================================== *)

Lemma nth_error_set_nth_other {X : Type} (l : list X) (i j : nat) (x : X) :
  i <> j -> nth_error (set_nth j x l) i = nth_error l i.
Proof.
  revert i j; induction l as [|y l IH]; intros [|i] [|j] H; simpl; trivial;
    try congruence.
  apply IH. congruence.
Qed.

Lemma update_call_skips_group (t : _RestraintTracker.t) (c : call) (i : nat) :
  update_call_ok t c -> nth_error (groups t) i = Some None ->
  ~ targets modifyGroupNumActive i c
  /\ forall counts,
       nth_error (apply_count addGroup modifyGroupNumActive counts c) i
       = nth_error counts i.
Proof.
  intros Hok Hi. unfold targets, apply_count.
  destruct Hok as [H|[H|[(j & n & g & -> & Hj)|(j & n & coll & -> & Hj)]]].
  - split; [intros [Hm _]; rewrite Hm in H; discriminate|].
    intros counts. destruct (meth c); try discriminate; reflexivity.
  - split; [intros [Hm _]; congruence|]. intros counts. now rewrite H.
  - assert (Hij : i <> j) by (intros ->; congruence).
    split.
    + intros [_ (rest & Hargs)]. simpl in Hargs. injection Hargs as Hz _. lia.
    + intros counts. simpl. rewrite Nat2Z.id.
      now apply nth_error_set_nth_other.
  - split; [intros [Hm _]; discriminate|]. reflexivity.
Qed.

Lemma update_call_skips_collection (t : _RestraintTracker.t) (c : call)
  (i : nat) :
  update_call_ok t c -> nth_error (collections t) i = Some None ->
  ~ targets modifyCollectionNumActive i c
  /\ forall counts,
       nth_error (apply_count addCollection modifyCollectionNumActive counts c) i
       = nth_error counts i.
Proof.
  intros Hok Hi. unfold targets, apply_count.
  destruct Hok as [H|[H|[(j & n & g & -> & Hj)|(j & n & coll & -> & Hj)]]].
  - split; [intros [Hm _]; rewrite Hm in H; discriminate|].
    intros counts. destruct (meth c); try discriminate; reflexivity.
  - split; [intros [Hm _]; congruence|]. intros counts. now rewrite H.
  - split; [intros [Hm _]; discriminate|]. reflexivity.
  - assert (Hij : i <> j) by (intros ->; congruence).
    split.
    + intros [_ (rest & Hargs)]. simpl in Hargs. injection Hargs as Hz _. lia.
    + intros counts. simpl. rewrite Nat2Z.id.
      now apply nth_error_set_nth_other.
Qed.

Lemma fold_count_skips (step : list Z -> call -> list Z) (calls : list call)
  (i : nat) :
  Forall (fun c => forall counts,
            nth_error (step counts c) i = nth_error counts i) calls ->
  forall counts,
    nth_error (fold_left step calls counts) i = nth_error counts i.
Proof.
  induction 1 as [|c calls Hc _ IH]; intros counts; simpl; trivial.
  now rewrite IH, Hc.
Qed.

(* ================================================================== *)
(** * After add_interactions *)
(* ================================================================== *)

Lemma init_constructed (param_manager : ParameterManager.t)
  (options : RunOptions) (always_active_restraints : list Restraint)
  (selectively_active_restraints : list SelectivelyActiveCollection.t) :
  constructed (fst (fst (__init__ param_manager options
                           always_active_restraints
                           selectively_active_restraints))).
Proof.
  unfold constructed. simpl.
  destruct (truthy _ || truthy _); auto.
Qed.

(** A successful [add_interactions] on a constructed transformer leaves
    the tracker and the MeldForce registered for everything the
    transformer owns. *)
Lemma add_interactions_registered (self self' : MeldRestraintTransformer.t)
  (state : IState.t) (system system' : System) (topology : Topology) :
  constructed self ->
  add_interactions self state system topology = (self', system', Ok system') ->
  registered self state (World (tracker self') (calls_on self'))
    (registration_order self) (group_entries self) (collection_entries self)
  /\ (active self = true ->
      force self' = Some (calls_on self')
      /\ system' = addForce system (calls_on self'))
  /\ (active self = false -> self' = self /\ system' = system).
Proof.
  intros (Htr & Hf & Hact) Hrun. unfold add_interactions in Hrun.
  destruct (active self) eqn:Ha.
  - rewrite Htr in Hrun.
    destruct (register_all self state _) as [w [[]|e]] eqn:Hreg;
      [|discriminate].
    injection Hrun as <- <-. unfold calls_on. simpl.
    split; [|split; [auto|discriminate]].
    destruct w. now apply register_all_registered.
  - injection Hrun as <- <-.
    split; [|split; [discriminate|auto]].
    symmetry in Hact. apply orb_false_iff in Hact. destruct Hact as [H1 H2].
    unfold calls_on, registration_order, group_entries, collection_entries.
    rewrite Hf, Htr.
    destruct (always_on self); [|discriminate].
    destruct (selective_on self); [|discriminate].
    apply registered_fresh.
Qed.

(** C5. The groups and the collection that wrap the always-active
    restraints are recorded as sentinels by [add_interactions]; and for
    every sentinel entry of the tracker, of a group or of a collection, no
    number of updates ever makes an update call against its index: every
    call the updates add to the MeldForce addresses something else, the
    tracker entry stays what it was, and the entity's [num_active] in the
    engine after the updates is what it was before them. *)
Theorem sentinels_never_updated :
  (forall (param_manager : ParameterManager.t) (options : RunOptions)
          (always_active_restraints : list Restraint)
          (selectively_active_restraints : list SelectivelyActiveCollection.t)
          (state : IState.t) (system system' : System) (topology : Topology)
          (self' : MeldRestraintTransformer.t),
     add_interactions
       (fst (fst (__init__ param_manager options
                    always_active_restraints selectively_active_restraints)))
       state system topology = (self', system', Ok system') ->
     (forall i, i < length (selectable_of always_active_restraints) ->
                nth_error (groups (tracker self')) i = Some None)
     /\ (selectable_of always_active_restraints <> [] ->
         nth_error (collections (tracker self')) 0 = Some None))
  /\ (forall (self : MeldRestraintTransformer.t) (f : MeldForce)
             (steps : list (IState.t * Simulation.t * float * Z)),
        force self = Some f ->
        exists calls,
          force (run_updates self steps) = Some (f ++ calls)
          /\ tracker (run_updates self steps) = tracker self
          /\ (forall i,
                nth_error (groups (tracker self)) i = Some None ->
                Forall (fun c => ~ targets modifyGroupNumActive i c) calls
                /\ nth_error (group_counts (f ++ calls)) i
                   = nth_error (group_counts f) i)
          /\ (forall i,
                nth_error (collections (tracker self)) i = Some None ->
                Forall (fun c => ~ targets modifyCollectionNumActive i c) calls
                /\ nth_error (collection_counts (f ++ calls)) i
                   = nth_error (collection_counts f) i)).
Proof.
  split.
  - intros pm opts always selective state system system' topology self' Hrun.
    destruct (add_interactions_registered _ _ _ _ _ _
                (init_constructed pm opts always selective) Hrun)
      as ([_ Hg Hc _ _ _ _] & _).
    simpl in Hg, Hc. rewrite Hg, Hc.
    unfold group_entries, collection_entries. simpl.
    split.
    + intros i Hi. rewrite nth_error_app1 by now rewrite repeat_length.
      now apply nth_error_repeat.
    + intros Hne. destruct (selectable_of always); [congruence|reflexivity].
  - intros self f steps Hf.
    destruct (run_updates_calls steps self f Hf) as (calls & Hforce & Htr & Hok).
    exists calls. repeat split; trivial.
    + apply Forall_forall. intros c Hc.
      rewrite Forall_forall in Hok.
      now apply (update_call_skips_group (tracker self) c i (Hok c Hc)).
    + unfold group_counts. rewrite fold_left_app.
      apply fold_count_skips. eapply Forall_impl; [|exact Hok].
      intros c Hc. now apply (update_call_skips_group (tracker self) c i Hc).
    + apply Forall_forall. intros c Hc.
      rewrite Forall_forall in Hok.
      now apply (update_call_skips_collection (tracker self) c i (Hok c Hc)).
    + unfold collection_counts. rewrite fold_left_app.
      apply fold_count_skips. eapply Forall_impl; [|exact Hok].
      intros c Hc.
      now apply (update_call_skips_collection (tracker self) c i Hc).
Qed.

(* ================================================================== *)
(** * Order preservation *)
(* ================================================================== *)

Lemma update_tracker (self : MeldRestraintTransformer.t) (state : IState.t)
  (simulation : Simulation.t) (alpha : float) (timestep : Z) :
  tracker (fst (update self state simulation alpha timestep)) = tracker self.
Proof.
  unfold update. destruct (active self); [|reflexivity].
  match goal with |- context [let (_, _) := ?x in _] => destruct x end.
  reflexivity.
Qed.

Lemma run_updates_tracker (steps : list (IState.t * Simulation.t * float * Z)) :
  forall self, tracker (run_updates self steps) = tracker self.
Proof.
  induction steps as [|[[[state simulation] alpha] timestep] steps IH];
    intros self; simpl; [reflexivity|].
  now rewrite IH, update_tracker.
Qed.

Lemma add_method_eqb (k k' : kind) :
  method_eqb (add_method k') (add_method k) = kind_eqb k k'.
Proof. destruct k, k'; reflexivity. Qed.

Lemma calls_of_creation (k : kind) (f : MeldForce) :
  calls_of (add_method k) (filter is_creation f) = calls_of (add_method k) f.
Proof.
  unfold calls_of. induction f as [|c f IH]; simpl; [reflexivity|].
  unfold is_creation at 1.
  destruct (is_restraint_creation (meth c)) eqn:Hc; simpl; rewrite IH.
  - reflexivity.
  - destruct (method_eqb (meth c) (add_method k)) eqn:Hm; [|reflexivity].
    destruct (meth c), k; discriminate.
Qed.

(** The creation calls of one kind are those of the restraints of that
    kind, in order. *)
Lemma creations_of_kind (k : kind) (rs : list SelectableRestraint)
  (cs : list call) :
  Forall2 (fun r c => registration_of r 0%float 0%Z = Ok [c]) rs cs ->
  Forall2 (fun r c => registration_of r 0%float 0%Z = Ok [c])
          (filter (has_kind k) rs) (calls_of (add_method k) cs).
Proof.
  induction 1 as [|r c rs cs Hrc _ IH]; simpl; [constructor|].
  destruct (registration_of_ok _ _ _ _ Hrc) as (k' & a & Hk' & Hc).
  injection Hc as ->. unfold has_kind. rewrite Hk'. simpl.
  rewrite add_method_eqb. destruct (kind_eqb k k'); auto.
Qed.

(** C9. After [add_interactions] on a newly constructed transformer, for
    every kind: the tracker's sequence is the restraints of that kind in
    the order they were registered; the i-th creation call of that kind on
    the engine is the call made for the i-th element of the sequence; and
    the refresh of that kind at index i is computed from that same element.
    The group and collection sequences correspond in the same way to the
    [addGroup] and [addCollection] calls: entry i is the sentinel or the
    source of the i-th call, which holds the engine numbers of the entry's
    own members, and the count refresh at index i is computed from entry i.
    No update changes the tracker. *)
Theorem tracker_order_preserved
  (pm : ParameterManager.t) (options : RunOptions)
  (always_active_restraints : list Restraint)
  (selectively_active_restraints : list SelectivelyActiveCollection.t)
  (state : IState.t) (system system' : System) (topology : Topology)
  (self' : MeldRestraintTransformer.t) :
  add_interactions
    (fst (fst (__init__ pm options always_active_restraints
                 selectively_active_restraints)))
    state system topology = (self', system', Ok system') ->
  (forall k : kind,
     tracked k (tracker self')
     = filter (has_kind k)
         (registration_order
            (fst (fst (__init__ pm options
                         always_active_restraints
                         selectively_active_restraints))))
     /\ Forall2 (fun rest c => registration_of rest 0%float 0%Z = Ok [c])
                (tracked k (tracker self'))
                (calls_of (add_method k) (calls_on self'))
     /\ forall (i : nat) (rest : SelectableRestraint) (alpha : float)
               (timestep : Z),
          nth_error (tracked k (tracker self')) i = Some rest ->
          nth_error (refresh_of_kind k (tracker self') alpha timestep) i
          = Some (rbind (registration_of rest alpha timestep)
                        (fun cs => Ok (map (as_modify i) cs))))
  /\ groups (tracker self')
     = group_entries
         (fst (fst (__init__ pm options
                      always_active_restraints selectively_active_restraints)))
  /\ Forall2 (group_entry_ok self' state
                (registration_order
                   (fst (fst (__init__ pm options
                                always_active_restraints
                                selectively_active_restraints)))))
             (groups (tracker self')) (calls_of addGroup (calls_on self'))
  /\ collections (tracker self')
     = collection_entries
         (fst (fst (__init__ pm options
                      always_active_restraints selectively_active_restraints)))
  /\ Forall2 (collection_entry_ok (groups (tracker self')))
             (collections (tracker self'))
             (calls_of addCollection (calls_on self'))
  /\ (forall (i : nat) (x : option RestraintGroup.t) (state' : IState.t),
        nth_error (groups (tracker self')) i = Some x ->
        nth_error (map (count_refresh self' state' modifyGroupNumActive
                          RestraintGroup.num_active)
                       (enumerate (groups (tracker self')))) i
        = Some (count_refresh self' state' modifyGroupNumActive
                  RestraintGroup.num_active (i, x)))
  /\ (forall (i : nat) (x : option SelectivelyActiveCollection.t)
             (state' : IState.t),
        nth_error (collections (tracker self')) i = Some x ->
        nth_error (map (count_refresh self' state' modifyCollectionNumActive
                          SelectivelyActiveCollection.num_active)
                       (enumerate (collections (tracker self')))) i
        = Some (count_refresh self' state' modifyCollectionNumActive
                  SelectivelyActiveCollection.num_active (i, x)))
  /\ (forall steps : list (IState.t * Simulation.t * float * Z),
        tracker (run_updates self' steps) = tracker self')
  /\ (forall (state' : IState.t) (simulation : Simulation.t) (alpha : float)
             (timestep : Z) (f : MeldForce),
        active self' = true -> force self' = Some f ->
        update self' state' simulation alpha timestep
        = (MeldRestraintTransformer.mk (param_manager self') (tracker self')
             (always_on self') (selective_on self') (active self')
             (fst (issue (update_calls self' state' simulation alpha timestep)
                         f)),
           snd (issue (update_calls self' state' simulation alpha timestep) f))).
Proof.
  intros Hrun.
  destruct (add_interactions_registered _ _ _ _ _ _
              (init_constructed pm options always_active_restraints
                 selectively_active_restraints) Hrun)
    as ([Ht Hg Hc Hcr Hgc Hcc _] & _).
  simpl w_tracker in *. simpl w_force in *.
  split.
  { intros k. split; [apply Ht|]. split.
    - rewrite Ht, <- calls_of_creation. now apply creations_of_kind.
    - intros i rest alpha timestep Hi. unfold refresh_of_kind.
      rewrite nth_error_map, (nth_error_enumerate _ _ _ Hi). reflexivity. }
  split; [exact Hg|].
  split.
  { rewrite Hg. eapply Forall2_impl; [|exact Hgc].
    intros entry c (idxs & n & -> & H). exists idxs, n. split; trivial.
    destruct entry; trivial. destruct H as [H1 H2]. split; trivial.
    unfold add_interactions in Hrun. simpl in Hrun.
    destruct (truthy _ || truthy _) in Hrun.
    - destruct (register_all _ _ _) as [w [[]|e]] in Hrun; [|discriminate].
      injection Hrun as <- _. exact H1.
    - injection Hrun as <- _. exact H1. }
  split; [exact Hc|].
  split; [rewrite Hg, Hc; exact Hcc|].
  split.
  { intros i x state' Hi.
    rewrite nth_error_map, (nth_error_enumerate _ _ _ Hi). reflexivity. }
  split.
  { intros i x state' Hi.
    rewrite nth_error_map, (nth_error_enumerate _ _ _ Hi). reflexivity. }
  split; [intros; apply run_updates_tracker|].
  intros. now apply update_issue.
Qed.

Lemma registrations_functional (rs : list SelectableRestraint)
  (cs1 cs2 : list call) :
  Forall2 (fun r c => registration_of r 0%float 0%Z = Ok [c]) rs cs1 ->
  Forall2 (fun r c => registration_of r 0%float 0%Z = Ok [c]) rs cs2 ->
  cs1 = cs2.
Proof.
  intros H1. revert cs2. induction H1 as [|r c rs cs1 Hrc _ IH];
    intros cs2 H2; inversion H2 as [|r' c' rs' cs2' Hrc' H2']; subst; trivial.
  f_equal; [congruence|now apply IH].
Qed.

(** What [_add_meld_restraint] sends for each kind, in closed form. *)
Lemma registration_by_spec (rest : SelectableRestraint) (alpha : float)
  (timestep : Z) :
  registration_of rest alpha timestep
  = creation_with_scale rest alpha (scaler rest alpha * ramp rest timestep)%float.
Proof.
  destruct rest as [r|r|r|r|r|r|name s rp]; unfold creation_with_scale;
    run_registration; try reflexivity.
  - change (seq 0 4) with [0; 1; 2; 3]%nat. destruct (rmap _ _); reflexivity.
  - change (seq 0 16)
      with [0; 1; 2; 3; 4; 5; 6; 7; 8; 9; 10; 11; 12; 13; 14; 15]%nat.
    destruct (rmap _ _); reflexivity.
  - destruct (_setup_precisions _ _ _); reflexivity.
Qed.

(** The refresh of a tracked restraint is among the calls of an update. *)
Lemma refresh_in_update_calls (self : MeldRestraintTransformer.t)
  (state : IState.t) (simulation : Simulation.t) (alpha : float)
  (timestep : Z) (k : kind) (i : nat) (rest : SelectableRestraint) :
  nth_error (tracked k (tracker self)) i = Some rest ->
  In (rbind (registration_of rest alpha timestep)
            (fun cs => Ok (map (as_modify i) cs)))
     (update_calls self state simulation alpha timestep).
Proof.
  intros Hi. unfold update_calls. apply in_or_app. left.
  unfold refresh_by_registration. apply in_flat_map. exists k. split.
  - destruct k; simpl; auto 10.
  - unfold refresh_of_kind. apply in_map_iff. exists (i, rest).
    split; [reflexivity|].
    eapply nth_error_In. apply nth_error_enumerate, Hi.
Qed.

(** C10. [add_interactions] registers every restraint, always-active and
    selectively active alike, at alpha = 0 and timestep = 0: the creation
    calls on the engine are, in registration order, the calls
    [_add_meld_restraint] makes at (0, 0), whatever the simulation state
    passed in, and for each of the six kinds that call is the creation
    call of the kind with the one scale [scaler(0) * ramp(0)] and the
    geometry at alpha 0.  Registration makes creation calls only.  The
    values at the current (alpha, timestep) are sent by [update]: an
    [update] of the registered transformer is the issue of its calls, of
    which the refresh of the tracked restraints comes first, and when it
    returns normally it has sent, for every registered restraint, the
    update call at the restraint's index in the sequence of its kind with
    the parameters at the (alpha, timestep) of that update, a call that
    was not on the engine before. *)
Theorem registers_at_zero
  (pm : ParameterManager.t) (options : RunOptions)
  (always_active_restraints : list Restraint)
  (selectively_active_restraints : list SelectivelyActiveCollection.t)
  (state : IState.t) (system system' : System) (topology : Topology)
  (self' : MeldRestraintTransformer.t) :
  add_interactions
    (fst (fst (__init__ pm options always_active_restraints
                 selectively_active_restraints)))
    state system topology = (self', system', Ok system') ->
  Forall2 (fun rest c => registration_of rest 0%float 0%Z = Ok [c])
    (selectable_of always_active_restraints
     ++ flat_map (fun coll =>
                    flat_map RestraintGroup.restraints
                             (SelectivelyActiveCollection.groups coll))
                 selectively_active_restraints)
    (filter is_creation (calls_on self'))
  /\ Forall (fun c => is_creation c = true \/ meth c = addGroup
                      \/ meth c = addCollection) (calls_on self')
  /\ (forall (state2 : IState.t) (system2 system2' : System)
             (self2' : MeldRestraintTransformer.t),
        add_interactions
          (fst (fst (__init__ pm options always_active_restraints
                       selectively_active_restraints)))
          state2 system2 topology = (self2', system2', Ok system2') ->
        filter is_creation (calls_on self2')
        = filter is_creation (calls_on self'))
  /\ (forall (state' : IState.t) (simulation : Simulation.t) (alpha : float)
             (timestep : Z) (f : MeldForce),
        force self' = Some f ->
        _update_restraints self' alpha timestep (Some f)
        = issue (refresh_by_registration (tracker self') alpha timestep) f)
  /\ (forall r : DistanceRestraint.t,
        registration_of (Distance r) 0%float 0%Z
        = Ok [Call addDistanceRestraint
                (distance_geometry r 0%float
                 ++ [AFloat (DistanceRestraint.k r
                             * (DistanceRestraint.scaler r 0
                                * DistanceRestraint.ramp r 0%Z))%float])])
  /\ (forall (rest : SelectableRestraint) (alpha : float) (timestep : Z),
        registration_of rest alpha timestep
        = creation_with_scale rest alpha
            (scaler rest alpha * ramp rest timestep)%float)
  /\ Forall2 (fun rest c =>
                creation_with_scale rest 0%float
                  (scaler rest 0 * ramp rest 0%Z)%float = Ok [c])
       (selectable_of always_active_restraints
        ++ flat_map (fun coll =>
                       flat_map RestraintGroup.restraints
                                (SelectivelyActiveCollection.groups coll))
                    selectively_active_restraints)
       (filter is_creation (calls_on self'))
  /\ (forall (state' : IState.t) (simulation : Simulation.t) (alpha : float)
             (timestep : Z) (f : MeldForce),
        force self' = Some f ->
        update self' state' simulation alpha timestep
        = (MeldRestraintTransformer.mk (param_manager self') (tracker self')
             (always_on self') (selective_on self') (active self')
             (fst (issue (update_calls self' state' simulation alpha timestep)
                         f)),
           snd (issue (update_calls self' state' simulation alpha timestep) f))
        /\ exists later,
             update_calls self' state' simulation alpha timestep
             = refresh_by_registration (tracker self') alpha timestep
               ++ later)
  /\ (forall (state' : IState.t) (simulation : Simulation.t) (alpha : float)
             (timestep : Z) (self2 : MeldRestraintTransformer.t),
        update self' state' simulation alpha timestep = (self2, Ok tt) ->
        exists calls,
          calls_on self2 = calls_on self' ++ calls
          /\ forall (k : kind) (i : nat) (rest : SelectableRestraint),
               nth_error
                 (filter (has_kind k)
                    (selectable_of always_active_restraints
                     ++ flat_map (fun coll =>
                                    flat_map RestraintGroup.restraints
                                      (SelectivelyActiveCollection.groups coll))
                                 selectively_active_restraints)) i
               = Some rest ->
               exists c,
                 creation_with_scale rest alpha
                   (scaler rest alpha * ramp rest timestep)%float = Ok [c]
                 /\ In (as_modify i c) calls
                 /\ ~ In (as_modify i c) (calls_on self')).
Proof.
  intros Hrun.
  pose proof (init_constructed pm options always_active_restraints
                selectively_active_restraints) as Hcon.
  destruct (add_interactions_registered _ _ _ _ _ _ Hcon Hrun)
    as ([Ht _ _ Hcr _ _ Hm] & Hact & Hinact).
  simpl w_force in *. simpl w_tracker in *.
  assert (Hactive : forall f, force self' = Some f -> active self' = true).
  { intros f Hf.
    destruct (active (fst (fst (__init__ pm options
                                  always_active_restraints
                                  selectively_active_restraints)))) eqn:Ha.
    - unfold add_interactions in Hrun. rewrite Ha in Hrun.
      destruct (register_all _ _ _) as [w [[]|e]]; [|discriminate].
      injection Hrun as <- _. reflexivity.
    - destruct (Hinact eq_refl) as (-> & _). simpl in Hf. discriminate. }
  assert (Hfresh : forall k i c,
             ~ In (as_modify i (Call (add_method k) c)) (calls_on self')).
  { intros k i c Hin. rewrite Forall_forall in Hm.
    destruct (Hm _ Hin) as [H|[H|H]]; destruct k; discriminate. }
  split; [exact Hcr|]. split; [exact Hm|]. split.
  { intros state2 system2 system2' self2' Hrun2.
    destruct (add_interactions_registered _ _ _ _ _ _ Hcon Hrun2)
      as ([_ _ _ Hcr2 _ _ _] & _).
    simpl w_force in *. eapply registrations_functional; eauto. }
  split; [intros; apply update_restraints_issue|].
  split; [reflexivity|].
  split; [exact registration_by_spec|].
  split.
  { revert Hcr. apply Forall2_impl. intros rest c H.
    now rewrite <- registration_by_spec. }
  split.
  { intros state' simulation alpha timestep f Hf. split.
    - apply update_issue; [exact (Hactive f Hf)|exact Hf].
    - unfold update_calls. eauto. }
  intros state' simulation alpha timestep self2 Hup.
  destruct (force self') as [f|] eqn:Hf.
  - rewrite (update_issue self' state' simulation alpha timestep f
               (Hactive f eq_refl) Hf) in Hup.
    destruct (issue_some (update_calls self' state' simulation alpha timestep)
                f) as (f' & r & Hissue).
    rewrite Hissue in Hup. simpl in Hup. injection Hup as <- ->.
    apply issue_ok in Hissue. destruct Hissue as (css & Hcss & ->).
    exists (concat css). unfold calls_on. rewrite Hf. simpl force.
    split; [reflexivity|].
    intros k i rest Hi0.
    assert (Hi : nth_error (tracked k (tracker self')) i = Some rest)
      by (rewrite (Ht k); exact Hi0).
    pose proof (refresh_in_update_calls self' state' simulation alpha
                  timestep k i rest Hi) as Hin.
    rewrite Hcss in Hin. apply in_map_iff in Hin.
    destruct Hin as (cs' & Hcs' & Hin).
    destruct (registration_of rest alpha timestep) as [cs|e] eqn:Hreg;
      [|discriminate].
    simpl in Hcs'. injection Hcs' as ->.
    destruct (registration_of_ok _ _ _ _ Hreg) as (k' & a & Hk' & ->).
    exists (Call (add_method k') a).
    rewrite <- registration_by_spec, Hreg. split; [reflexivity|].
    split.
    + apply in_concat. exists (map (as_modify i) [Call (add_method k') a]).
      split; [exact Hin|now left].
    + pose proof (Hfresh k' i a) as Hn. unfold calls_on in Hn.
      rewrite Hf in Hn. exact Hn.
  - exists []. 
    assert (Hself : fst (update self' state' simulation alpha timestep) = self').
    { unfold update. destruct (active self') eqn:Ha; [|reflexivity].
      exfalso.
      destruct (active (fst (fst (__init__ pm options
                                    always_active_restraints
                                    selectively_active_restraints)))) eqn:Ha0.
      - destruct (Hact eq_refl) as (Hsome & _). congruence.
      - destruct (Hinact eq_refl) as (-> & _). congruence. }
    rewrite Hup in Hself. simpl in Hself. subst self2.
    rewrite app_nil_r. split; [reflexivity|].
    intros k i rest Hi0. exfalso.
    assert (Hi : nth_error (tracked k (tracker self')) i = Some rest)
      by (rewrite (Ht k); exact Hi0).
    destruct (active (fst (fst (__init__ pm options
                                  always_active_restraints
                                  selectively_active_restraints)))) eqn:Ha0.
    + destruct (Hact eq_refl) as (Hsome & _). congruence.
    + destruct (Hinact eq_refl) as (-> & _). simpl in Hi.
      destruct k, i; discriminate.
Qed.

(* ================================================================== *)
(** * The inactive transformer *)
(* ================================================================== *)

(** C6. If the constructor is given an always-active list with no
    selectable restraint and an empty list of collections, the transformer
    is inactive and stays what the constructor made it through every
    sequence of later invocations: it never has a MeldForce, so no engine
    call is made; [add_interactions] returns the system it was given, with
    no force added; [update] does nothing. *)
Theorem inactive_is_noop
  (pm : ParameterManager.t) (options : RunOptions)
  (always_active_restraints : list Restraint)
  (selectively_active_restraints : list SelectivelyActiveCollection.t) :
  selectable_of always_active_restraints = [] ->
  selectively_active_restraints = [] ->
  active (fst (fst (__init__ pm options always_active_restraints
                      selectively_active_restraints))) = false
  /\ forall invocations : list invocation,
       let self := fold_left invoke invocations
                     (fst (fst (__init__ pm options
                                  always_active_restraints
                                  selectively_active_restraints))) in
       self = fst (fst (__init__ pm options always_active_restraints
                          selectively_active_restraints))
       /\ force self = None
       /\ (forall state system topology,
             add_interactions self state system topology
             = (self, system, Ok system))
       /\ (forall state simulation alpha timestep,
             update self state simulation alpha timestep = (self, Ok tt)).
Proof.
  intros Hon Hsel.
  set (self0 := fst (fst (__init__ pm options
                            always_active_restraints
                            selectively_active_restraints))).
  assert (Hact : active self0 = false).
  { unfold self0. simpl. now rewrite Hon, Hsel. }
  assert (Hadd : forall state system topology,
             add_interactions self0 state system topology
             = (self0, system, Ok system)).
  { intros. unfold add_interactions. now rewrite Hact. }
  assert (Hupd : forall state simulation alpha timestep,
             update self0 state simulation alpha timestep = (self0, Ok tt)).
  { intros. unfold update. now rewrite Hact. }
  split; [exact Hact|].
  intros invocations.
  assert (Hfix : fold_left invoke invocations self0 = self0).
  { induction invocations as [|[state system topology
                               |state simulation alpha timestep] invs IH];
      simpl; trivial.
    - now rewrite Hadd.
    - now rewrite Hupd. }
  simpl. rewrite Hfix. auto.
Qed.

(* ================================================================== *)
(** * Unknown kinds *)
(* ================================================================== *)

Lemma mfold_app {S X B : Type} (body : B -> X -> M S B) (l1 l2 : list X)
  (acc : B) (s : S) :
  mfold body (l1 ++ l2) acc s
  = match mfold body l1 acc s with
    | (s1, Ok acc1) => mfold body l2 acc1 s1
    | (s1, Raise e) => (s1, Raise e)
    end.
Proof.
  revert acc s; induction l1 as [|x l1 IH]; intros acc s; simpl;
    [reflexivity|].
  unfold bind. destruct (body acc x s) as [s1 [acc1|e]]; auto.
Qed.

Lemma rmap_column_raises (a : ndarray2.t) (l : list nat) (e : exn) :
  rmap (ndarray2.column a) l = Raise e -> e = IndexError.
Proof.
  induction l as [|j l IH]; [unfold rmap; discriminate|].
  unfold rmap; fold (rmap (ndarray2.column a) l).
  unfold ndarray2.column at 1. destruct (j <? ndarray2.ncols a); simpl.
  - destruct (rmap (ndarray2.column a) l) as [ys|e1]; simpl; [discriminate|].
    intros H. injection H as H. subst e1. now apply IH.
  - intros H. injection H as H. now subst e.
Qed.

Lemma rfold_raises {X B : Type} (body : B -> X -> result B) (l : list X) :
  (forall acc x e, body acc x = Raise e -> e = IndexError) ->
  forall acc e, rfold body l acc = Raise e -> e = IndexError.
Proof.
  intros Hbody. induction l as [|x l IH]; intros acc e; simpl;
    [discriminate|].
  destruct (body acc x) as [acc1|e1] eqn:Hb; simpl.
  - apply IH.
  - intros H; injection H as <-. eapply Hbody; eauto.
Qed.

Lemma getitem_raises (P : ndarray3.t) (i j k : nat) (e : exn) :
  ndarray3.getitem P i j k = Raise e -> e = IndexError.
Proof.
  unfold ndarray3.getitem. destruct (_ && _); [discriminate|].
  intros H; now injection H.
Qed.

Lemma rbind_raises {X Y : Type} (r : result X) (k : X -> result Y)
  (e : exn) :
  rbind r k = Raise e ->
  r = Raise e \/ exists a, r = Ok a /\ k a = Raise e.
Proof.
  destruct r as [a|e1]; simpl; intros H.
  - right. exists a. auto.
  - left. injection H as ->. reflexivity.
Qed.

Lemma setup_precisions_raises (P : ndarray3.t) (nd nc : Z) (e : exn) :
  _setup_precisions P nd nc = Raise e -> e = IndexError.
Proof.
  unfold _setup_precisions. intros H.
  apply rbind_raises in H. destruct H as [H|(diags & _ & H)].
  - revert H. apply rfold_raises.
    intros acc i e1. apply rfold_raises. intros acc' j e2 H.
    apply rbind_raises in H. destruct H as [H|(x & _ & H)]; [|discriminate].
    eapply getitem_raises; eauto.
  - apply rbind_raises in H. destruct H as [H|(offs & _ & H)]; [|discriminate].
    revert H. apply rfold_raises.
    intros acc i e1. apply rfold_raises. intros acc' j e2.
    apply rfold_raises. intros acc'' k e3 H.
    apply rbind_raises in H. destruct H as [H|(x & _ & H)]; [|discriminate].
    eapply getitem_raises; eauto.
Qed.

(** A restraint of a known kind can only fail to register with an
    [IndexError], from its arrays. *)
Lemma registration_of_raises (rest : SelectableRestraint) (k : kind)
  (alpha : float) (timestep : Z) (e : exn) :
  kind_of rest = Some k ->
  registration_of rest alpha timestep = Raise e -> e = IndexError.
Proof.
  intros Hk. destruct rest as [x|x|x|x|x|x|name s rp]; try discriminate;
    run_registration; try discriminate.
  - destruct (rmap _ _) as [cols|e1] eqn:Hcols; [discriminate|].
    intros H; injection H as <-. eapply rmap_column_raises; eauto.
  - destruct (rmap _ _) as [cols|e1] eqn:Hcols; [discriminate|].
    intros H; injection H as <-. eapply rmap_column_raises; eauto.
  - destruct (_setup_precisions _ _ _) as [d_o|e1] eqn:Hs; [discriminate|].
    intros H; injection H as <-. eapply setup_precisions_raises; eauto.
Qed.

(** C8. Registering a restraint that is not of one of the six kinds raises
    [RuntimeError] at once and leaves the tracker and the MeldForce as they
    were: no creation call, no append.  A restraint of one of the six kinds
    never raises that error.  The error is not caught and nothing is
    retried: the loop in which it occurs ends there, with the state reached
    before the restraint and nothing after it visited, and
    [add_interactions] ends with the error and the system unchanged. *)
Theorem unknown_kind_is_fatal :
  (forall (class_name : string) (s : float -> float) (r : Z -> float)
          (alpha : float) (timestep : Z) (w : world),
     _add_meld_restraint (OtherSelectable class_name s r) alpha timestep w
     = (w, Raise (unknown_kind_error class_name)))
  /\ (forall (rest : SelectableRestraint) (k : kind) (alpha : float)
             (timestep : Z) (w : world) (msg : string),
        kind_of rest = Some k ->
        snd (_add_meld_restraint rest alpha timestep w)
        <> Raise (RuntimeError msg))
  /\ (forall (pre post : list SelectableRestraint) (class_name : string)
             (s : float -> float) (r : Z -> float) (group_list : list Z)
             (w : world),
        let unknown := OtherSelectable class_name s r in
        match mfold add_always_on_rest pre group_list w with
        | (w1, Ok _) =>
            mfold add_always_on_rest (pre ++ unknown :: post) group_list w
            = (w1, Raise (unknown_kind_error class_name))
        | (w1, Raise e) =>
            mfold add_always_on_rest (pre ++ unknown :: post) group_list w
            = (w1, Raise e)
        end)
  /\ (forall (pre post : list SelectableRestraint) (class_name : string)
             (s : float -> float) (r : Z -> float)
             (restraint_indices : list Z) (w : world),
        let unknown := OtherSelectable class_name s r in
        match mfold add_group_rest pre restraint_indices w with
        | (w1, Ok _) =>
            mfold add_group_rest (pre ++ unknown :: post) restraint_indices w
            = (w1, Raise (unknown_kind_error class_name))
        | (w1, Raise e) =>
            mfold add_group_rest (pre ++ unknown :: post) restraint_indices w
            = (w1, Raise e)
        end)
  /\ (forall (self : MeldRestraintTransformer.t) (state : IState.t)
             (system : System) (topology : Topology)
             (post : list SelectableRestraint) (class_name : string)
             (s : float -> float) (r : Z -> float),
        active self = true ->
        always_on self = OtherSelectable class_name s r :: post ->
        add_interactions self state system topology
        = (self, system, Raise (unknown_kind_error class_name))).
Proof.
  split; [reflexivity|]. split.
  { intros rest k alpha timestep w msg Hk. rewrite add_meld_restraint_run.
    destruct (registration_of rest alpha timestep) as [cs|e] eqn:Hreg;
      [discriminate|].
    simpl. rewrite (registration_of_raises _ _ _ _ _ Hk Hreg). discriminate. }
  split.
  { intros pre post class_name s r group_list w unknown.
    rewrite mfold_app.
    destruct (mfold add_always_on_rest pre group_list w) as [w1 [gl|e]];
      reflexivity. }
  split.
  { intros pre post class_name s r restraint_indices w unknown.
    rewrite mfold_app.
    destruct (mfold add_group_rest pre restraint_indices w) as [w1 [gl|e]];
      reflexivity. }
  intros self state system topology post class_name s r Hact Hon.
  destruct self as [pm0 tr0 on0 sel0 act0 f0]. simpl in Hact, Hon. subst.
  reflexivity.
Qed.

(* ================================================================== *)
(** * The worked configuration *)
(* ================================================================== *)

Lemma sample_add_interactions :
  add_interactions
    (fst (fst (__init__ sample_manager tt sample_always_active
                 [sample_collection])))
    sample_state [] tt
  = (sample_registered, sample_system, Ok sample_system).
Proof. vm_compute. reflexivity. Qed.

(** C1 (the code departs from it). [add_interactions] creates a selectively
    active collection with the resolved [num_active] of a group, the one
    the local [group] names when the loop over the collection's groups has
    ended (the last group of the collection), not with the collection's own
    [num_active].  In the worked configuration the collection's own selector
    resolves to 2 and the collection is created with 1. *)
Theorem collection_created_with_group_count :
  (forall (self : MeldRestraintTransformer.t) (state : IState.t)
          (group_var group_var' : option RestraintGroup.t)
          (coll : SelectivelyActiveCollection.t) (w w' : world),
     add_collection self state group_var coll w = (w', Ok group_var') ->
     exists (f : MeldForce) (group_indices : list Z) (n : Z)
            (group : RestraintGroup.t),
       w_force w' = f ++ [Call addCollection [AIntList group_indices; AInt n]]
       /\ last (map Some (SelectivelyActiveCollection.groups coll)) group_var
          = Some group
       /\ _handle_num_active self (RestraintGroup.num_active group) state
          = Ok n)
  /\ _handle_num_active sample_transformer
       (SelectivelyActiveCollection.num_active sample_collection) sample_state
     = Ok 2%Z
  /\ calls_of addCollection (calls_on sample_registered)
     = [ Call addCollection [AIntList [0%Z]; AInt 1];
         Call addCollection [AIntList [1%Z; 2%Z]; AInt 1] ].
Proof.
  split; [|split; [reflexivity|vm_compute; reflexivity]].
  intros self state gv gv' coll w w' Hrun.
  unfold add_collection, bind in Hrun.
  destruct (mfold (add_group self state)
              (SelectivelyActiveCollection.groups coll) ([], gv) w)
    as [w1 [locals|e]] eqn:Hloop; [|discriminate].
  assert (Hlast : snd locals
                  = last (map Some (SelectivelyActiveCollection.groups coll)) gv).
  { clear Hrun. revert Hloop. generalize (@nil Z). revert gv w.
    induction (SelectivelyActiveCollection.groups coll) as [|g l IH];
      intros gv w idxs Hloop; simpl in Hloop.
    - injection Hloop as _ <-. reflexivity.
    - unfold bind in Hloop.
      destruct (add_group self state (idxs, gv) g w) as [w2 [locals2|e]] eqn:Hg;
        [|discriminate].
      assert (Hl2 : snd locals2 = Some g).
      { unfold add_group, bind in Hg.
        destruct (mfold add_group_rest _ _ w) as [w3 [ri|e]]; [|discriminate].
        unfold lift in Hg.
        destruct (_handle_num_active self _ state); [|discriminate].
        simpl in Hg. now injection Hg as _ <-. }
      destruct locals2 as [idxs2 gv2]. simpl in Hl2. subst gv2.
      rewrite (IH _ _ _ Hloop). destruct l; [reflexivity|].
      simpl map.
      etransitivity; [apply (last_cons_default _ _ _ gv)|reflexivity]. }
  destruct (snd locals) as [group|] eqn:Hsnd; [|discriminate].
  unfold ret, lift in Hrun.
  destruct (_handle_num_active self (RestraintGroup.num_active group) state)
    as [n|e] eqn:Hn; [|discriminate].
  unfold meld_force_addCollection, create, append_collection, on_tracker
    in Hrun. simpl in Hrun. injection Hrun as <- _.
  exists (w_force w1), (fst locals), n, group. simpl. auto.
Qed.

Lemma tracker_order_preserved_witness :
  add_interactions
    (fst (fst (__init__ sample_manager tt sample_always_active
                 [sample_collection])))
    sample_state [] tt
  = (sample_registered, sample_system, Ok sample_system)
  /\ tracked KTorsion (tracker sample_registered)
     = [Torsion sample_torsion; Torsion sample_torsion]
  /\ groups (tracker sample_registered)
     = [None; Some sample_group; Some sample_group]
  /\ collections (tracker sample_registered) = [None; Some sample_collection].
Proof.
  split; [exact sample_add_interactions|].
  pose proof (tracker_order_preserved sample_manager tt sample_always_active
                [sample_collection] sample_state [] sample_system tt
                sample_registered sample_add_interactions) as H.
  destruct H as (Hk & Hg & _ & Hc & _).
  split; [exact (proj1 (Hk KTorsion))|]. split; [exact Hg|exact Hc].
Defined.

(** The update of the worked configuration at alpha = 0.5 and
    timestep = 10 returns normally. *)
Lemma sample_update_returns :
  update sample_registered sample_state (Simulation.mk 7) 0.5%float 10
  = (sample_updated, Ok tt).
Proof. vm_compute. reflexivity. Qed.

Lemma registers_at_zero_witness :
  add_interactions
    (fst (fst (__init__ sample_manager tt sample_always_active
                 [sample_collection])))
    sample_state [] tt
  = (sample_registered, sample_system, Ok sample_system)
  /\ Forall2 (fun rest c => registration_of rest 0%float 0%Z = Ok [c])
       [Distance sample_distance; Torsion sample_torsion;
        Torsion sample_torsion]
       (filter is_creation (calls_on sample_registered))
  /\ exists calls c,
       calls_on sample_updated = calls_on sample_registered ++ calls
       /\ creation_with_scale (Torsion sample_torsion) 0.5%float
            (scaler (Torsion sample_torsion) 0.5
             * ramp (Torsion sample_torsion) 10)%float = Ok [c]
       /\ In (as_modify 1 c) calls
       /\ ~ In (as_modify 1 c) (calls_on sample_registered).
Proof.
  split; [exact sample_add_interactions|].
  destruct (registers_at_zero sample_manager tt sample_always_active
              [sample_collection] sample_state [] sample_system tt
              sample_registered sample_add_interactions)
    as (H1 & _ & _ & _ & _ & _ & _ & _ & H8).
  split; [exact H1|].
  destruct (H8 sample_state (Simulation.mk 7) 0.5%float 10%Z sample_updated
              sample_update_returns) as (calls & Hcalls & Hall).
  destruct (Hall KTorsion 1 (Torsion sample_torsion) eq_refl)
    as (c & Hc & Hin & Hnot).
  exists calls, c. auto.
Defined.

Lemma inactive_is_noop_witness :
  active (fst (fst (__init__ sample_manager tt
                      [NonSelectable "CartesianRestraint"] [])))
  = false.
Proof.
  exact (proj1 (inactive_is_noop sample_manager tt
                  [NonSelectable "CartesianRestraint"] [] eq_refl eq_refl)).
Defined.

(** The sampled count: the collaborator returns 2.7, the resolver 2. *)
Example handle_num_active_sampled :
  _handle_num_active sample_transformer (Sampled {| param_index := 0 |})
    sample_state = Ok 2%Z
  /\ _handle_num_active sample_transformer (Literal 3) sample_state = Ok 3%Z.
Proof. split; reflexivity. Qed.

(** One update of the worked configuration at alpha = 0.5, timestep = 10:
    one distance update, two torsion updates, the count of the tracked
    collection and of the two tracked groups, and the request to recompute;
    nothing for group 0 or collection 0, the sentinels. *)
Example sample_update :
  calls_on (fst (update sample_registered sample_state (Simulation.mk 7)
                   0.5%float 10))
  = calls_on sample_registered
    ++ [ Call modifyDistanceRestraint
           [AInt 0; AInt 1; AInt 2; AFloat 0; AFloat 0; AFloat 0.3;
            AFloat 0.4; AFloat 10];
         Call modifyTorsionRestraint
           [AInt 0; AInt 1; AInt 2; AInt 3; AInt 4; AFloat 0.5; AFloat 0.25;
            AFloat 2.5];
         Call modifyTorsionRestraint
           [AInt 1; AInt 1; AInt 2; AInt 3; AInt 4; AFloat 0.5; AFloat 0.25;
            AFloat 2.5];
         Call modifyCollectionNumActive [AInt 1; AInt 2];
         Call modifyGroupNumActive [AInt 1; AInt 1];
         Call modifyGroupNumActive [AInt 2; AInt 1];
         Call updateParametersInContext [AContext 7] ].
Proof. vm_compute. reflexivity. Qed.

(* ================================================================== *)
(** * The precision decomposer: when it raises *)
(* ================================================================== *)

(** A loop raises when one of its rounds raises whatever it is given. *)
Lemma rfold_fails {X B : Type} (body : B -> X -> result B) (l : list X)
  (x : X) :
  In x l -> (forall acc, exists e, body acc x = Raise e) ->
  forall acc, exists e, rfold body l acc = Raise e.
Proof.
  intros Hin Hx. induction l as [|y l IH]; intros acc; [destruct Hin|].
  simpl. destruct Hin as [->|Hin].
  - destruct (Hx acc) as [e ->]. now exists e.
  - destruct (body acc y) as [acc1|e]; simpl; [now apply IH|now exists e].
Qed.

Lemma diag_pass_by_spec (P : ndarray3.t) (C D : nat) :
  (C = 0 \/ D = 0
   \/ (C <= ndarray3.dim0 P /\ D <= ndarray3.dim1 P /\ D <= ndarray3.dim2 P)) ->
  rfold (fun diags i =>
           rfold (fun diags j =>
                    rbind (ndarray3.getitem P i j j)
                          (fun x => Ok (diags ++ [x])))
                 (seq 0 D) diags)
        (seq 0 C) []
  = Ok (diag_by_spec P C D).
Proof.
  intros Hfit. unfold diag_by_spec.
  rewrite (rfold_append
             (fun c => map (fun d => ndarray3.item P c d d) (seq 0 D)));
    [reflexivity|].
  intros acc c Hc. apply in_seq in Hc.
  rewrite (rfold_append (fun d => [ndarray3.item P c d d])).
  - now rewrite flat_map_singleton.
  - intros acc' d Hd. apply in_seq in Hd.
    rewrite getitem_in_range by lia. reflexivity.
Qed.

Lemma offdiag_pass_by_spec (P : ndarray3.t) (C D : nat) :
  (C = 0 \/ D = 0
   \/ (C <= ndarray3.dim0 P /\ D <= ndarray3.dim1 P /\ D <= ndarray3.dim2 P)) ->
  rfold (fun off_diags i =>
           rfold (fun off_diags j =>
                    rfold (fun off_diags k =>
                             rbind (ndarray3.getitem P i j k)
                                   (fun x => Ok (off_diags ++ [x])))
                          (seq (S j) (D - S j)) off_diags)
                 (seq 0 D) off_diags)
        (seq 0 C) []
  = Ok (offdiag_by_spec P C D).
Proof.
  intros Hfit. unfold offdiag_by_spec.
  rewrite (rfold_append
             (fun c => flat_map
                (fun j => map (fun k => ndarray3.item P c j k)
                              (seq (S j) (D - S j)))
                (seq 0 D)));
    [reflexivity|].
  intros acc c Hc. apply in_seq in Hc.
  apply rfold_append. intros acc' j Hj. apply in_seq in Hj.
  rewrite (rfold_append (fun k => [ndarray3.item P c j k])).
  - now rewrite flat_map_singleton.
  - intros acc'' k Hk. apply in_seq in Hk.
    rewrite getitem_in_range by lia. reflexivity.
Qed.

Lemma stack_fits_spec (P : ndarray3.t) (nd nc : Z) :
  stack_fits P nd nc = true
  <-> (Z.to_nat nc = 0 \/ Z.to_nat nd = 0
       \/ (Z.to_nat nc <= ndarray3.dim0 P /\ Z.to_nat nd <= ndarray3.dim1 P
           /\ Z.to_nat nd <= ndarray3.dim2 P)).
Proof.
  unfold stack_fits.
  rewrite !orb_true_iff, !andb_true_iff, !Z.leb_le, !Nat.leb_le. lia.
Qed.

(** What [_setup_precisions] returns, by the size of the stack. *)
Lemma setup_precisions_run (P : ndarray3.t) (n_distances n_conditions : Z) :
  _setup_precisions P n_distances n_conditions
  = if stack_fits P n_distances n_conditions
    then Ok (diag_by_spec P (Z.to_nat n_conditions) (Z.to_nat n_distances),
             offdiag_by_spec P (Z.to_nat n_conditions) (Z.to_nat n_distances))
    else Raise IndexError.
Proof.
  destruct (stack_fits P n_distances n_conditions) eqn:Hfit.
  - apply stack_fits_spec in Hfit.
    unfold _setup_precisions, range, range_from.
    rewrite (diag_pass_by_spec P _ _ Hfit). simpl rbind.
    rewrite (offdiag_pass_by_spec P _ _ Hfit). reflexivity.
  - assert (Hno : ~ (Z.to_nat n_conditions = 0 \/ Z.to_nat n_distances = 0
                     \/ (Z.to_nat n_conditions <= ndarray3.dim0 P
                         /\ Z.to_nat n_distances <= ndarray3.dim1 P
                         /\ Z.to_nat n_distances <= ndarray3.dim2 P)))
      by (rewrite <- stack_fits_spec; congruence).
    destruct (_setup_precisions P n_distances n_conditions) as [r|e] eqn:Hrun.
    + exfalso. unfold _setup_precisions, range in Hrun.
      set (C := Z.to_nat n_conditions) in *.
      set (D := Z.to_nat n_distances) in *.
      (* the entry read last by the diagonal pass, or the first outside *)
      set (i := if C <=? ndarray3.dim0 P then 0 else ndarray3.dim0 P).
      set (j := if C <=? ndarray3.dim0 P
                then Nat.min (ndarray3.dim1 P) (ndarray3.dim2 P) else 0).
      assert (Hi : In i (seq 0 C)).
      { apply in_seq. unfold i. destruct (Nat.leb_spec C (ndarray3.dim0 P)); lia. }
      assert (Hj : In j (seq 0 D)).
      { apply in_seq. unfold j. destruct (Nat.leb_spec C (ndarray3.dim0 P)); lia. }
      assert (Hbad : ndarray3.getitem P i j j = Raise IndexError).
      { unfold ndarray3.getitem, i, j.
        destruct (Nat.leb_spec C (ndarray3.dim0 P)).
        - destruct (Nat.ltb_spec (Nat.min (ndarray3.dim1 P) (ndarray3.dim2 P))
                      (ndarray3.dim1 P));
          destruct (Nat.ltb_spec (Nat.min (ndarray3.dim1 P) (ndarray3.dim2 P))
                      (ndarray3.dim2 P)); try lia;
          rewrite ?andb_false_r; reflexivity.
        - rewrite Nat.ltb_irrefl. reflexivity. }
      destruct (rfold_fails
                  (fun diags i =>
                     rfold (fun diags j =>
                              rbind (ndarray3.getitem P i j j)
                                    (fun x => Ok (diags ++ [x])))
                           (seq 0 D) diags)
                  (seq 0 C) i Hi) with (acc := @nil float) as [e He].
      { intros acc. apply (rfold_fails _ (seq 0 D) j Hj).
        intros acc'. rewrite Hbad. now exists IndexError. }
      rewrite He in Hrun. discriminate.
    + now rewrite (setup_precisions_raises _ _ _ _ Hrun).
Qed.

(** X1. [_setup_precisions] raises [IndexError] exactly when the stack is
    too small for the entries it reads: with positive [n_conditions] and
    [n_distances], when the stack has fewer than [n_conditions] components
    or fewer than [n_distances] rows or columns.  Otherwise (also on a
    stack larger than asked for, and with a count that is zero or negative,
    where nothing is read) it returns the diagonal entries and the entries
    above the diagonal of the leading [n_conditions] components over
    [n_distances] distances. *)
Theorem setup_precisions_fits (P : ndarray3.t) (n_distances n_conditions : Z) :
  _setup_precisions P n_distances n_conditions
  = if stack_fits P n_distances n_conditions
    then Ok (diag_by_spec P (Z.to_nat n_conditions) (Z.to_nat n_distances),
             offdiag_by_spec P (Z.to_nat n_conditions) (Z.to_nat n_distances))
    else Raise IndexError.
Proof. apply setup_precisions_run. Qed.

(* ================================================================== *)
(** * Registration: when it raises *)
(* ================================================================== *)

Lemma rmap_column_ok (a : ndarray2.t) (l : list nat) :
  Forall (fun j => j < ndarray2.ncols a) l ->
  exists cols, rmap (ndarray2.column a) l = Ok cols.
Proof.
  induction 1 as [|j l Hj _ [cols IH]]; [now exists []|].
  unfold rmap; fold (rmap (ndarray2.column a) l).
  unfold ndarray2.column at 1. apply Nat.ltb_lt in Hj. rewrite Hj.
  simpl. rewrite IH. simpl. eauto.
Qed.

Lemma rmap_column_fails (a : ndarray2.t) (l : list nat) (j : nat) :
  In j l -> ndarray2.ncols a <= j ->
  rmap (ndarray2.column a) l = Raise IndexError.
Proof.
  intros Hin Hj.
  destruct (rmap (ndarray2.column a) l) as [cols|e] eqn:Hrun.
  - exfalso. revert cols Hrun. induction l as [|i l IH]; intros cols Hrun;
      [destruct Hin|].
    unfold rmap in Hrun; fold (rmap (ndarray2.column a) l) in Hrun.
    unfold ndarray2.column at 1 in Hrun.
    destruct (Nat.ltb_spec i (ndarray2.ncols a)); [|discriminate].
    simpl in Hrun. destruct Hin as [->|Hin]; [lia|].
    destruct (rmap (ndarray2.column a) l) as [cols'|e]; [|discriminate].
    now apply (IH Hin cols').
  - now rewrite (rmap_column_raises _ _ _ Hrun).
Qed.

(** What [_add_meld_restraint] sends, or raises, by the shape of the
    restraint alone. *)
Lemma registration_of_cases (rest : SelectableRestraint) (alpha : float)
  (timestep : Z) :
  (serializable rest = true ->
   exists c, registration_of rest alpha timestep = Ok [c]
             /\ is_creation c = true)
  /\ (serializable rest = false ->
      registration_of rest alpha timestep
      = Raise (match rest with
               | OtherSelectable class_name _ _ =>
                   unknown_kind_error class_name
               | _ => IndexError
               end)).
Proof.
  split; intros Hs.
  - assert (Hok : exists cs, registration_of rest alpha timestep = Ok cs).
    { destruct rest as [r|r|r|r|r|r|name s rp]; try discriminate;
        run_registration; try (eexists; reflexivity).
      - destruct (rmap_column_ok (DistProfileRestraint.spline_params r)
                    [0; 1; 2; 3]) as [cols ->]; [|eexists; reflexivity].
        unfold serializable in Hs. apply Nat.leb_le in Hs.
        repeat constructor; lia.
      - destruct (rmap_column_ok (TorsProfileRestraint.spline_params r)
                    [0; 1; 2; 3; 4; 5; 6; 7; 8; 9; 10; 11; 12; 13; 14; 15])
          as [cols ->]; [|eexists; reflexivity].
        unfold serializable in Hs. apply Nat.leb_le in Hs.
        repeat constructor; lia.
      - rewrite setup_precisions_run. unfold serializable in Hs. rewrite Hs.
        eexists; reflexivity. }
    destruct Hok as [cs Hcs].
    destruct (registration_of_ok _ _ _ _ Hcs) as (k & a & _ & ->).
    eexists. split; [exact Hcs|]. destruct k; reflexivity.
  - destruct rest as [r|r|r|r|r|r|name s rp]; try discriminate;
      run_registration; try reflexivity.
    + unfold serializable in Hs. apply Nat.leb_gt in Hs.
      rewrite (rmap_column_fails _ _ 3); simpl; auto. lia.
    + unfold serializable in Hs. apply Nat.leb_gt in Hs.
      rewrite (rmap_column_fails _ _ 15); simpl; auto 20. lia.
    + rewrite setup_precisions_run. unfold serializable in Hs. rewrite Hs.
      reflexivity.
Qed.

Lemma registration_of_serializable (rest : SelectableRestraint)
  (alpha : float) (timestep : Z) (cs : list call) :
  registration_of rest alpha timestep = Ok cs -> serializable rest = true.
Proof.
  intros H. destruct (serializable rest) eqn:Hs; trivial.
  rewrite (proj2 (registration_of_cases rest alpha timestep) Hs) in H.
  discriminate.
Qed.

(** X2. [_add_meld_restraint] on a serializable restraint makes exactly
    one call, the creation call of the restraint's kind, returns the
    number of restraints created before it on this MeldForce, and appends
    the restraint to the tracker's sequence of its kind: that sequence is
    what it was followed by the restraint, and the sequences of the other
    kinds, of the groups and of the collections are what they were.  On
    any other restraint it raises and leaves tracker and MeldForce as they
    were: the [RuntimeError] of line 396 for a class it does not know,
    [IndexError] for a profile with too few spline columns or a GMM
    restraint whose stack is too small. *)
Theorem registration_succeeds_iff (rest : SelectableRestraint) (alpha : float)
  (timestep : Z) (w : world) :
  (serializable rest = true ->
   exists k0 c w',
     _add_meld_restraint rest alpha timestep w
     = (w', Ok (Z.of_nat (n_restraints (w_force w))))
     /\ kind_of rest = Some k0
     /\ meth c = add_method k0
     /\ w_force w' = w_force w ++ [c]
     /\ tracked k0 (w_tracker w') = tracked k0 (w_tracker w) ++ [rest]
     /\ (forall k, k <> k0 ->
                   tracked k (w_tracker w') = tracked k (w_tracker w))
     /\ groups (w_tracker w') = groups (w_tracker w)
     /\ collections (w_tracker w') = collections (w_tracker w))
  /\ (serializable rest = false ->
      _add_meld_restraint rest alpha timestep w
      = (w, Raise (match rest with
                   | OtherSelectable class_name _ _ =>
                       unknown_kind_error class_name
                   | _ => IndexError
                   end))).
Proof.
  rewrite add_meld_restraint_run. split; intros Hs.
  - destruct (proj1 (registration_of_cases rest alpha timestep) Hs)
      as (c & Hreg & _).
    destruct (registration_of_ok _ _ _ _ Hreg) as (k0 & a & Hk0 & Hc).
    injection Hc as ->. rewrite Hreg.
    exists k0, (Call (add_method k0) a). eexists.
    split; [reflexivity|]. simpl w_force. simpl w_tracker.
    destruct (groups_track rest (w_tracker w)) as [Hg Hcl].
    repeat split; trivial.
    + rewrite (tracked_track rest alpha timestep _ (w_tracker w) k0 Hreg).
      simpl. unfold has_kind. rewrite Hk0.
      destruct k0; reflexivity.
    + intros k Hk.
      rewrite (tracked_track rest alpha timestep _ (w_tracker w) k Hreg).
      simpl. unfold has_kind. rewrite Hk0.
      destruct k, k0; simpl; rewrite ?app_nil_r; trivial; congruence.
  - now rewrite (proj2 (registration_of_cases rest alpha timestep) Hs).
Qed.

(* ================================================================== *)
(** * The layout of a registration *)
(* ================================================================== *)

Lemma iota_S (n : nat) : iota (S n) = iota n ++ [Z.of_nat n].
Proof. unfold iota. now rewrite seq_S, map_app. Qed.

Lemma laid_out_start (self : MeldRestraintTransformer.t) (state : IState.t)
  (t0 : _RestraintTracker.t) :
  laid_out self state t0 (World t0 []) [] [] [] [] [].
Proof.
  split; simpl; try reflexivity; try constructor.
  - intros k. now rewrite app_nil_r.
  - now rewrite app_nil_r.
  - now rewrite app_nil_r.
Qed.

(** A restraint has been registered; its number is pending. *)
Lemma laid_out_restraint {self state t0 w rs gs cs pr pg} rest {css} :
  laid_out self state t0 w rs gs cs pr pg ->
  registration_of rest 0%float 0%Z = Ok css ->
  laid_out self state t0 (World (track rest (w_tracker w)) (w_force w ++ css))
    (rs ++ [rest]) gs cs (pr ++ [Z.of_nat (n_restraints (w_force w))]) pg.
Proof.
  intros [Ht Hg Hc Hnr Hng Hnc Hgm Hcm Hs Hr] Hreg.
  pose proof (registration_of_serializable _ _ _ _ Hreg) as Hser.
  destruct (registration_of_ok _ _ _ _ Hreg) as (k & a & Hk & ->).
  assert (HnG : method_eqb (add_method k) addGroup = false)
    by (destruct k; reflexivity).
  assert (HnC : method_eqb (add_method k) addCollection = false)
    by (destruct k; reflexivity).
  assert (Hcre : is_restraint_creation (add_method k) = true)
    by (destruct k; reflexivity).
  split; simpl.
  - intros k'. rewrite (tracked_track _ _ _ _ _ _ Hreg), Ht.
    now rewrite filter_app, app_assoc.
  - now rewrite (proj1 (groups_track rest _)).
  - now rewrite (proj2 (groups_track rest _)).
  - unfold n_restraints in *. rewrite filter_app, !length_app. simpl.
    rewrite Hcre. simpl. lia.
  - unfold n_groups in *. rewrite calls_of_app. simpl.
    now rewrite HnG, app_nil_r.
  - unfold n_collections in *. rewrite calls_of_app. simpl.
    now rewrite HnC, app_nil_r.
  - unfold group_members in *. rewrite calls_of_app. simpl.
    rewrite HnG, app_nil_r, app_assoc, Hgm, length_app, Hnr. simpl.
    now rewrite Nat.add_1_r, iota_S.
  - unfold collection_members in *. rewrite calls_of_app. simpl.
    now rewrite HnC, app_nil_r.
  - apply Forall_app. split; trivial. now constructor.
  - exact Hr.
Qed.

(** The pending restraints have been put in a new group, which is pending. *)
Lemma laid_out_group {self state t0 w rs gs cs pr pg} entry n :
  laid_out self state t0 w rs gs cs pr pg ->
  match entry with
  | Some g => resolves self state (RestraintGroup.num_active g) = true
  | None => True
  end ->
  laid_out self state t0
    (World (push_group entry (w_tracker w))
           (w_force w ++ [Call addGroup [AIntList pr; AInt n]]))
    rs (gs ++ [entry]) cs [] (pg ++ [Z.of_nat (n_groups (w_force w))]).
Proof.
  intros [Ht Hg Hc Hnr Hng Hnc Hgm Hcm Hs Hr] Hentry.
  split; simpl.
  - intros k. rewrite <- Ht. destruct k; reflexivity.
  - now rewrite Hg, app_assoc.
  - exact Hc.
  - unfold n_restraints in *. rewrite filter_app. simpl.
    now rewrite app_nil_r.
  - unfold n_groups in *. rewrite calls_of_app, !length_app. simpl. lia.
  - unfold n_collections in *. rewrite calls_of_app. simpl.
    now rewrite app_nil_r.
  - unfold group_members in *. rewrite calls_of_app, flat_map_app. simpl.
    now rewrite !app_nil_r.
  - unfold collection_members in *. rewrite calls_of_app. simpl.
    rewrite app_nil_r, app_assoc, Hcm, length_app, Hng. simpl.
    now rewrite Nat.add_1_r, iota_S.
  - exact Hs.
  - apply Forall_app. split; trivial. now constructor.
Qed.

(** The pending groups have been put in a new collection. *)
Lemma laid_out_collection {self state t0 w rs gs cs pg} entry n :
  laid_out self state t0 w rs gs cs [] pg ->
  laid_out self state t0
    (World (push_collection entry (w_tracker w))
           (w_force w ++ [Call addCollection [AIntList pg; AInt n]]))
    rs gs (cs ++ [entry]) [] [].
Proof.
  intros [Ht Hg Hc Hnr Hng Hnc Hgm Hcm Hs Hr].
  split; simpl.
  - intros k. rewrite <- Ht. destruct k; reflexivity.
  - exact Hg.
  - now rewrite Hc, app_assoc.
  - unfold n_restraints in *. rewrite filter_app. simpl.
    now rewrite app_nil_r.
  - unfold n_groups in *. rewrite calls_of_app. simpl. now rewrite app_nil_r.
  - unfold n_collections in *. rewrite calls_of_app, !length_app. simpl. lia.
  - unfold group_members in *. rewrite calls_of_app. simpl.
    rewrite !app_nil_r in *. exact Hgm.
  - unfold collection_members in *. rewrite calls_of_app, flat_map_app. simpl.
    rewrite !app_nil_r in *. exact Hcm.
  - exact Hs.
  - exact Hr.
Qed.

Lemma group_rest_laid_out self state t0 (l : list SelectableRestraint) :
  forall acc w acc' w' rs gs cs pg,
    laid_out self state t0 w rs gs cs acc pg ->
    mfold add_group_rest l acc w = (w', Ok acc') ->
    laid_out self state t0 w' (rs ++ l) gs cs acc' pg.
Proof.
  induction l as [|rest l IH]; intros acc w acc' w' rs gs cs pg Hlo Hrun.
  - simpl in Hrun. injection Hrun as <- <-. now rewrite app_nil_r.
  - simpl in Hrun. unfold bind in Hrun. rewrite add_group_rest_run in Hrun.
    destruct (registration_of rest 0%float 0%Z) as [css|e] eqn:Hr;
      [|discriminate].
    pose proof (IH _ _ _ _ _ _ _ _ (laid_out_restraint rest Hlo Hr) Hrun) as H.
    now rewrite <- app_assoc in H.
Qed.

Lemma add_group_laid_out self state t0 locals g w locals' w' rs gs cs :
  laid_out self state t0 w rs gs cs [] (fst locals) ->
  add_group self state locals g w = (w', Ok locals') ->
  laid_out self state t0 w' (rs ++ RestraintGroup.restraints g)
    (gs ++ [Some g]) cs [] (fst locals')
  /\ snd locals' = Some g.
Proof.
  intros Hlo Hrun. unfold add_group, bind in Hrun.
  destruct (mfold add_group_rest (RestraintGroup.restraints g) [] w)
    as [w1 [idxs|e]] eqn:Hloop; [|discriminate].
  pose proof (group_rest_laid_out self state t0 _ _ _ _ _ _ _ _ _ Hlo Hloop)
    as H1.
  unfold lift in Hrun.
  destruct (_handle_num_active self (RestraintGroup.num_active g) state)
    as [n|e] eqn:Hn; [|discriminate].
  unfold meld_force_addGroup, create, append_group, on_tracker, ret in Hrun.
  simpl in Hrun. injection Hrun as <- <-. simpl. split; [|reflexivity].
  apply (laid_out_group (Some g) n H1). unfold resolves. now rewrite Hn.
Qed.

Lemma groups_laid_out self state t0 (l : list RestraintGroup.t) :
  forall locals w locals' w' rs gs cs,
    laid_out self state t0 w rs gs cs [] (fst locals) ->
    mfold (add_group self state) l locals w = (w', Ok locals') ->
    laid_out self state t0 w'
      (rs ++ flat_map RestraintGroup.restraints l) (gs ++ map Some l) cs
      [] (fst locals')
    /\ snd locals' = last (map Some l) (snd locals).
Proof.
  induction l as [|g l IH]; intros locals w locals' w' rs gs cs Hlo Hrun.
  - simpl in Hrun. injection Hrun as <- <-. simpl. now rewrite !app_nil_r.
  - simpl in Hrun. unfold bind in Hrun.
    destruct (add_group self state locals g w) as [w1 [locals1|e]] eqn:Hg;
      [|discriminate].
    destruct (add_group_laid_out self state t0 _ _ _ _ _ _ _ _ Hlo Hg)
      as [H1 Hs1].
    destruct (IH _ _ _ _ _ _ _ H1 Hrun) as [H2 Hs2].
    rewrite <- !app_assoc in H2. split; [exact H2|].
    rewrite Hs2, Hs1. destruct l as [|g' l]; [reflexivity|].
    simpl map.
    etransitivity; [apply (last_cons_default _ _ _ (snd locals))|reflexivity].
Qed.

Lemma add_collection_laid_out self state t0 gv coll w gv' w' rs gs cs :
  laid_out self state t0 w rs gs cs [] [] ->
  add_collection self state gv coll w = (w', Ok gv') ->
  laid_out self state t0 w'
    (rs ++ flat_map RestraintGroup.restraints
             (SelectivelyActiveCollection.groups coll))
    (gs ++ map Some (SelectivelyActiveCollection.groups coll))
    (cs ++ [Some coll]) [] []
  /\ gv' <> None
  /\ (gv <> None
      \/ truthy (SelectivelyActiveCollection.groups coll) = true).
Proof.
  intros Hlo Hrun. unfold add_collection, bind in Hrun.
  destruct (mfold (add_group self state)
              (SelectivelyActiveCollection.groups coll) ([], gv) w)
    as [w1 [locals|e]] eqn:Hloop; [|discriminate].
  destruct (groups_laid_out self state t0 _ ([], gv) _ _ _ _ _ _ Hlo Hloop)
    as [H1 Hs].
  destruct (snd locals) as [group|] eqn:Hsnd; [|discriminate].
  unfold ret, lift in Hrun.
  destruct (_handle_num_active self (RestraintGroup.num_active group) state)
    as [n|e]; [|discriminate].
  unfold meld_force_addCollection, create, append_collection, on_tracker
    in Hrun. simpl in Hrun. injection Hrun as <- <-.
  split; [apply (laid_out_collection (Some coll) n H1)|].
  split; [discriminate|].
  simpl in Hs. destruct (SelectivelyActiveCollection.groups coll); simpl; auto.
  left. simpl in Hs. congruence.
Qed.

Lemma collections_laid_out self state t0
  (l : list SelectivelyActiveCollection.t) :
  forall gv w gv' w' rs gs cs,
    laid_out self state t0 w rs gs cs [] [] ->
    mfold (add_collection self state) l gv w = (w', Ok gv') ->
    laid_out self state t0 w'
      (rs ++ flat_map (fun coll =>
                         flat_map RestraintGroup.restraints
                                  (SelectivelyActiveCollection.groups coll)) l)
      (gs ++ flat_map (fun coll =>
                         map Some (SelectivelyActiveCollection.groups coll)) l)
      (cs ++ map Some l) [] []
    /\ (gv <> None \/ first_has_group l = true).
Proof.
  induction l as [|coll l IH]; intros gv w gv' w' rs gs cs Hlo Hrun.
  - simpl in Hrun. injection Hrun as <- _. simpl. rewrite !app_nil_r. auto.
  - simpl in Hrun. unfold bind in Hrun.
    destruct (add_collection self state gv coll w) as [w1 [gv1|e]] eqn:Hc;
      [|discriminate].
    destruct (add_collection_laid_out self state t0 _ _ _ _ _ _ _ _ Hlo Hc)
      as (H1 & _ & Hb).
    destruct (IH _ _ _ _ _ _ _ H1 Hrun) as [H2 _].
    rewrite <- !app_assoc in H2. split; [exact H2|exact Hb].
Qed.

Lemma always_on_laid_out self state t0 (l : list SelectableRestraint) :
  forall gl w gl' w' rs gs cs,
    laid_out self state t0 w rs gs cs [] gl ->
    mfold add_always_on_rest l gl w = (w', Ok gl') ->
    laid_out self state t0 w' (rs ++ l) (gs ++ repeat None (length l)) cs
      [] gl'.
Proof.
  induction l as [|rest l IH]; intros gl w gl' w' rs gs cs Hlo Hrun.
  - simpl in Hrun. injection Hrun as <- <-. simpl. now rewrite !app_nil_r.
  - simpl in Hrun. unfold bind in Hrun.
    rewrite add_always_on_rest_run in Hrun.
    destruct (registration_of rest 0%float 0%Z) as [css|e] eqn:Hr;
      [|discriminate].
    pose proof (laid_out_restraint rest Hlo Hr) as H1.
    pose proof (laid_out_group None 1%Z H1 I) as H2. simpl in H2.
    pose proof (IH _ _ _ _ _ _ _ H2 Hrun) as H3.
    rewrite <- !app_assoc in H3. exact H3.
Qed.

Lemma add_always_on_laid_out self state t0 w w' rs gs cs :
  laid_out self state t0 w rs gs cs [] [] ->
  add_always_on self w = (w', Ok tt) ->
  laid_out self state t0 w' (rs ++ always_on self)
    (gs ++ repeat None (length (always_on self))) (cs ++ [None]) [] [].
Proof.
  intros Hlo Hrun. unfold add_always_on, bind in Hrun.
  destruct (mfold add_always_on_rest (always_on self) [] w)
    as [w1 [gl|e]] eqn:Hloop; [|discriminate].
  pose proof (always_on_laid_out self state t0 _ _ _ _ _ _ _ _ Hlo Hloop) as H1.
  unfold meld_force_addCollection, create, append_collection, on_tracker
    in Hrun. simpl in Hrun. injection Hrun as <-.
  apply (laid_out_collection None _ H1).
Qed.

(** Everything [add_interactions] registers, on any tracker and a new
    MeldForce. *)
Lemma register_all_laid_out self state t0 w' :
  register_all self state (World t0 []) = (w', Ok tt) ->
  laid_out self state t0 w' (registration_order self) (group_entries self)
    (collection_entries self) [] []
  /\ first_has_group (selective_on self) = true.
Proof.
  intros Hrun. unfold register_all, bind in Hrun.
  pose proof (laid_out_start self state t0) as H0.
  unfold registration_order, group_entries, collection_entries.
  destruct (always_on self) as [|rest l] eqn:Hon;
    cbv beta iota delta [truthy] in Hrun |- *.
  - unfold ret in Hrun. unfold add_selective_on, bind in Hrun.
    destruct (mfold (add_collection self state) (selective_on self) None _)
      as [w1 [gv|e]] eqn:Hloop; [|discriminate].
    injection Hrun as <-.
    destruct (collections_laid_out self state t0 _ _ _ _ _ _ _ _ H0 Hloop)
      as [H1 [Hb|Hb]]; [congruence|]. split; [exact H1|exact Hb].
  - destruct (add_always_on self _) as [w1 [[]|e]] eqn:Halways; [|discriminate].
    pose proof (add_always_on_laid_out self state t0 _ _ _ _ _ H0 Halways)
      as H1.
    rewrite Hon in H1. simpl app in H1.
    unfold add_selective_on, bind in Hrun.
    destruct (mfold (add_collection self state) (selective_on self) None _)
      as [w2 [gv|e]] eqn:Hloop; [|discriminate].
    injection Hrun as <-.
    destruct (collections_laid_out self state t0 _ _ _ _ _ _ _ _ H1 Hloop)
      as [H2 [Hb|Hb]]; [congruence|]. split; [exact H2|exact Hb].
Qed.

(* ================================================================== *)
(** * When a registration runs to its end *)
(* ================================================================== *)

Lemma group_rest_runs (l : list SelectableRestraint) :
  Forall (fun r => serializable r = true) l ->
  forall acc w, exists w' acc', mfold add_group_rest l acc w = (w', Ok acc').
Proof.
  induction 1 as [|rest l Hrest _ IH]; intros acc w; simpl; [unfold ret; eauto|].
  unfold bind. rewrite add_group_rest_run.
  destruct (proj1 (registration_of_cases rest 0%float 0%Z) Hrest)
    as (c & -> & _).
  apply IH.
Qed.

Lemma add_group_runs self state locals g w :
  Forall (fun r => serializable r = true) (RestraintGroup.restraints g) ->
  resolves self state (RestraintGroup.num_active g) = true ->
  exists w' idxs, add_group self state locals g w = (w', Ok (idxs, Some g)).
Proof.
  intros Hs Hr. unfold add_group, bind.
  destruct (group_rest_runs _ Hs [] w) as (w1 & idxs & ->).
  unfold lift, resolves in *.
  destruct (_handle_num_active self (RestraintGroup.num_active g) state);
    [|discriminate].
  unfold meld_force_addGroup, create, append_group, on_tracker, ret. simpl.
  eauto.
Qed.

Lemma groups_run self state (l : list RestraintGroup.t) :
  Forall (fun g => Forall (fun r => serializable r = true)
                          (RestraintGroup.restraints g)
                   /\ resolves self state (RestraintGroup.num_active g) = true)
         l ->
  forall locals w,
  exists w' idxs,
    mfold (add_group self state) l locals w
    = (w', Ok (idxs, last (map Some l) (snd locals))).
Proof.
  induction 1 as [|g l [Hs Hr] _ IH]; intros locals w; simpl.
  - destruct locals. unfold ret. simpl. eauto.
  - unfold bind.
    destruct (add_group_runs self state locals g w Hs Hr) as (w1 & idxs & ->).
    destruct (IH (idxs, Some g) w1) as (w2 & idxs2 & ->).
    exists w2, idxs2. do 2 f_equal. f_equal. simpl snd.
    destruct l as [|g' l]; [reflexivity|]. simpl map.
    etransitivity; [apply (last_cons_default _ _ _ (snd locals))|reflexivity].
Qed.

Lemma last_in_or_default {X : Type} (l : list X) (d : X) :
  last l d = d /\ l = [] \/ In (last l d) l.
Proof.
  induction l as [|x l IH]; [auto|]. right.
  destruct l as [|y l]; [now left|].
  destruct IH as [[_ H]|H]; [discriminate|]. right. exact H.
Qed.

Lemma add_collection_runs self state gv coll w :
  Forall (fun g => Forall (fun r => serializable r = true)
                          (RestraintGroup.restraints g)
                   /\ resolves self state (RestraintGroup.num_active g) = true)
         (SelectivelyActiveCollection.groups coll) ->
  match gv with
  | Some g => resolves self state (RestraintGroup.num_active g) = true
  | None => truthy (SelectivelyActiveCollection.groups coll) = true
  end ->
  exists w' g,
    add_collection self state gv coll w = (w', Ok (Some g))
    /\ resolves self state (RestraintGroup.num_active g) = true.
Proof.
  intros Hgs Hgv.
  assert (Hlast : exists g,
             last (map Some (SelectivelyActiveCollection.groups coll)) gv
             = Some g
             /\ resolves self state (RestraintGroup.num_active g) = true).
  { destruct (last_in_or_default
                (map Some (SelectivelyActiveCollection.groups coll)) gv)
      as [[-> Hnil]|Hin].
    - destruct gv as [g|]; [eauto|].
      destruct (SelectivelyActiveCollection.groups coll); discriminate.
    - apply in_map_iff in Hin. destruct Hin as (g & Hg & Hin).
      exists g. split; [now symmetry|].
      rewrite Forall_forall in Hgs. now apply Hgs. }
  destruct Hlast as (g & Hlast & Hr).
  destruct (groups_run self state _ Hgs ([], gv) w) as (w1 & idxs & Hloop).
  simpl snd in Hloop. rewrite Hlast in Hloop.
  unfold resolves in Hr.
  destruct (_handle_num_active self (RestraintGroup.num_active g) state)
    as [n|e] eqn:Hn; [|discriminate].
  exists (World (push_collection (Some coll) (w_tracker w1))
            (w_force w1 ++ [Call addCollection [AIntList idxs; AInt n]])), g.
  split; [|unfold resolves; now rewrite Hn].
  unfold add_collection, bind. rewrite Hloop. simpl.
  unfold lift. rewrite Hn. reflexivity.
Qed.

Lemma collections_run self state (l : list SelectivelyActiveCollection.t) :
  Forall (fun g => Forall (fun r => serializable r = true)
                          (RestraintGroup.restraints g)
                   /\ resolves self state (RestraintGroup.num_active g) = true)
         (all_groups l) ->
  forall gv w,
    match gv with
    | Some g => resolves self state (RestraintGroup.num_active g) = true
    | None => first_has_group l = true
    end ->
    exists w' gv', mfold (add_collection self state) l gv w = (w', Ok gv').
Proof.
  induction l as [|coll l IH]; intros Hgs gv w Hgv; simpl; [unfold ret; eauto|].
  unfold all_groups in Hgs. simpl in Hgs. apply Forall_app in Hgs.
  destruct Hgs as [Hc Hl]. unfold bind.
  destruct (add_collection_runs self state gv coll w Hc) as (w1 & g & -> & Hr).
  { destruct gv; exact Hgv. }
  now apply (IH Hl (Some g) w1).
Qed.

Lemma always_on_runs (l : list SelectableRestraint) :
  Forall (fun r => serializable r = true) l ->
  forall gl w,
  exists w' gl', mfold add_always_on_rest l gl w = (w', Ok gl').
Proof.
  induction 1 as [|rest l Hrest _ IH]; intros gl w; simpl; [unfold ret; eauto|].
  unfold bind. rewrite add_always_on_rest_run.
  destruct (proj1 (registration_of_cases rest 0%float 0%Z) Hrest)
    as (c & -> & _).
  apply IH.
Qed.

Lemma add_always_on_runs self w :
  Forall (fun r => serializable r = true) (always_on self) ->
  exists w', add_always_on self w = (w', Ok tt).
Proof.
  intros Hs. unfold add_always_on, bind.
  destruct (always_on_runs _ Hs [] w) as (w1 & gl & ->).
  unfold meld_force_addCollection, create, append_collection, on_tracker.
  simpl. eauto.
Qed.

Lemma register_all_runs self state w :
  can_register self state = true ->
  exists w', register_all self state w = (w', Ok tt).
Proof.
  unfold can_register. rewrite !andb_true_iff, !forallb_forall.
  intros [[Hs Hr] Hf].
  assert (Hon : Forall (fun r => serializable r = true) (always_on self)).
  { apply Forall_forall. intros r Hin. apply Hs.
    unfold registration_order. apply in_or_app. now left. }
  assert (Hgs : Forall (fun g => Forall (fun r => serializable r = true)
                                        (RestraintGroup.restraints g)
                                 /\ resolves self state
                                      (RestraintGroup.num_active g) = true)
                       (all_groups (selective_on self))).
  { apply Forall_forall. intros g Hg. split; [|now apply Hr].
    apply Forall_forall. intros r Hin. apply Hs.
    unfold registration_order. apply in_or_app. right.
    unfold all_groups in Hg. apply in_flat_map in Hg.
    destruct Hg as (coll & Hcoll & Hg).
    apply in_flat_map. exists coll. split; trivial.
    apply in_flat_map. now exists g. }
  unfold register_all, bind.
  assert (Hfirst : exists w1,
             (if truthy (always_on self) then add_always_on self else ret tt) w
             = (w1, Ok tt)).
  { destruct (truthy (always_on self)); [now apply add_always_on_runs|].
    unfold ret. eauto. }
  destruct Hfirst as [w1 ->].
  unfold add_selective_on, bind.
  destruct (collections_run self state _ Hgs None w1 Hf) as (w2 & gv & ->).
  unfold ret. eauto.
Qed.

(** What an active [add_interactions] that returns leaves behind. *)
Lemma add_interactions_laid_out (self self' : MeldRestraintTransformer.t)
  (state : IState.t) (system system' : System) (topology : Topology) :
  active self = true ->
  add_interactions self state system topology = (self', system', Ok system') ->
  laid_out self state (tracker self) (World (tracker self') (calls_on self'))
    (registration_order self) (group_entries self) (collection_entries self)
    [] []
  /\ first_has_group (selective_on self) = true
  /\ force self' = Some (calls_on self')
  /\ system' = addForce system (calls_on self')
  /\ always_on self' = always_on self
  /\ selective_on self' = selective_on self
  /\ active self' = true.
Proof.
  intros Hact Hrun. unfold add_interactions in Hrun. rewrite Hact in Hrun.
  destruct (register_all self state _) as [w [[]|e]] eqn:Hreg; [|discriminate].
  injection Hrun as <- <-. unfold calls_on. simpl.
  destruct (register_all_laid_out self state _ _ Hreg) as [Hlo Hf].
  destruct w. auto 10.
Qed.

Lemma group_entries_length (self : MeldRestraintTransformer.t) :
  length (group_entries self)
  = length (always_on self) + length (all_groups (selective_on self)).
Proof.
  unfold group_entries, all_groups. rewrite length_app, repeat_length.
  f_equal. induction (selective_on self) as [|coll l IH]; simpl; trivial.
  now rewrite !length_app, length_map, IH.
Qed.

Lemma collection_entries_length (self : MeldRestraintTransformer.t) :
  length (collection_entries self)
  = (if truthy (always_on self) then 1 else 0) + length (selective_on self).
Proof.
  unfold collection_entries. rewrite length_app, length_map.
  now destruct (truthy (always_on self)).
Qed.

(** X3. After a successful [add_interactions] of an active transformer,
    the groups created on the new MeldForce partition its restraints and
    the collections partition its groups: the member lists of the
    [addGroup] calls, read in order, are the restraint numbers
    0, 1, ..., n-1, each once, and the member lists of the [addCollection]
    calls are the group numbers in the same way.  The MeldForce holds one
    restraint per restraint the transformer owns, one group per always-on
    restraint and per group of the collections, and one collection per
    selectively active collection, plus one when there is an always-on
    restraint. *)
Theorem groups_partition_restraints (self self' : MeldRestraintTransformer.t)
  (state : IState.t) (system system' : System) (topology : Topology) :
  active self = true ->
  add_interactions self state system topology = (self', system', Ok system') ->
  group_members (calls_on self') = iota (n_restraints (calls_on self'))
  /\ collection_members (calls_on self') = iota (n_groups (calls_on self'))
  /\ n_restraints (calls_on self') = length (registration_order self)
  /\ n_groups (calls_on self')
     = length (always_on self) + length (all_groups (selective_on self))
  /\ n_collections (calls_on self')
     = (if truthy (always_on self) then 1 else 0)
       + length (selective_on self).
Proof.
  intros Hact Hrun.
  destruct (add_interactions_laid_out _ _ _ _ _ _ Hact Hrun)
    as ([_ _ _ Hnr Hng Hnc Hgm Hcm _ _] & _).
  simpl in *. rewrite app_nil_r in Hgm, Hcm.
  rewrite Hnr, Hng, Hnc, <- group_entries_length,
    <- collection_entries_length. auto.
Qed.

Lemma resolves_entries (self : MeldRestraintTransformer.t) (state : IState.t) :
  Forall (fun entry =>
            match entry with
            | Some g => resolves self state (RestraintGroup.num_active g) = true
            | None => True
            end) (group_entries self) ->
  forallb (fun g => resolves self state (RestraintGroup.num_active g))
          (all_groups (selective_on self)) = true.
Proof.
  intros H. apply forallb_forall. intros g Hg.
  rewrite Forall_forall in H. apply (H (Some g)).
  unfold group_entries. apply in_or_app. right.
  unfold all_groups in Hg. apply in_flat_map in Hg.
  destruct Hg as (coll & Hcoll & Hg). apply in_flat_map.
  exists coll. split; trivial. now apply in_map.
Qed.

(** X4. Here the engine is a log that accepts every call: the methods of
    the MeldForce and [system.addForce] return normally, and so do the
    restraints' own functions and the parameter manager.  Under that
    assumption [add_interactions] of an active transformer returns
    normally exactly when every restraint the transformer owns is
    serializable, the [num_active] of every group resolves in the state,
    and the first selectively active collection, if there is one, has a
    group.  An exception of the engine, which the source lets through, is
    outside this statement. *)
Theorem add_interactions_succeeds_iff (self : MeldRestraintTransformer.t)
  (state : IState.t) (system : System) (topology : Topology) :
  active self = true ->
  (exists self' system',
     add_interactions self state system topology
     = (self', system', Ok system'))
  <-> can_register self state = true.
Proof.
  intros Hact. split.
  - intros (self' & system' & Hrun).
    destruct (add_interactions_laid_out _ _ _ _ _ _ Hact Hrun)
      as ([_ _ _ _ _ _ _ _ Hs Hr] & Hf & _).
    unfold can_register. rewrite !andb_true_iff. repeat split; trivial.
    + apply forallb_forall. now apply Forall_forall.
    + now apply resolves_entries.
  - intros Hcan. unfold add_interactions. rewrite Hact.
    destruct (register_all_runs self state (World (tracker self) []) Hcan)
      as [w ->].
    eauto.
Qed.

(** X5. When the always-on restraints are serializable and the first
    selectively active collection has no group, [add_interactions] raises
    [UnboundLocalError] for the local [group], which line 150 reads before
    any loop has bound it.  The system is returned as it was and no
    MeldForce is kept, but the always-on restraints have been appended to
    the tracker. *)
Theorem empty_first_collection_is_unbound (self : MeldRestraintTransformer.t)
  (state : IState.t) (system : System) (topology : Topology)
  (coll : SelectivelyActiveCollection.t)
  (others : list SelectivelyActiveCollection.t) :
  active self = true ->
  forallb serializable (always_on self) = true ->
  selective_on self = coll :: others ->
  SelectivelyActiveCollection.groups coll = [] ->
  exists self',
    add_interactions self state system topology
    = (self', system, Raise (UnboundLocalError "group"))
    /\ force self' = force self
    /\ forall k, tracked k (tracker self')
                 = tracked k (tracker self)
                   ++ filter (has_kind k) (always_on self).
Proof.
  intros Hact Hs Hsel Hgroups.
  assert (Hon : Forall (fun r => serializable r = true) (always_on self)).
  { apply Forall_forall. now apply forallb_forall. }
  unfold add_interactions, register_all, bind. rewrite Hact.
  set (w0 := World (tracker self) []).
  assert (Hfirst : exists w1,
             (if truthy (always_on self) then add_always_on self
              else ret tt) w0 = (w1, Ok tt)
             /\ forall k, tracked k (w_tracker w1)
                          = tracked k (tracker self)
                            ++ filter (has_kind k) (always_on self)).
  { destruct (always_on self) as [|r l] eqn:Hal.
    - exists w0. split; [reflexivity|]. intros k. simpl.
      now rewrite app_nil_r.
    - simpl truthy. cbv iota. rewrite <- Hal in Hon.
      destruct (add_always_on_runs self w0 Hon) as [w1 Hw1].
      exists w1. split; [exact Hw1|].
      pose proof (add_always_on_laid_out self state (tracker self) _ _ _ _ _
                    (laid_out_start self state (tracker self)) Hw1) as Hlo.
      destruct Hlo as [Ht _ _ _ _ _ _ _ _ _].
      intros k. rewrite Ht, Hal. reflexivity. }
  destruct Hfirst as (w1 & -> & Htr).
  unfold add_selective_on, bind. rewrite Hsel. simpl mfold.
  unfold bind, add_collection at 1. rewrite Hgroups. simpl.
  eexists. split; [reflexivity|]. split; [reflexivity|exact Htr].
Qed.

(** X6. [add_interactions] appends to the tracker and never resets it:
    after a successful call each sequence of the tracker is what it was,
    followed by what this call registered.  A second successful call
    therefore leaves every restraint twice in the tracker, while the new
    MeldForce, which replaces the first one in [self.force], holds each of
    them once, and the system holds both MeldForces. *)
Theorem add_interactions_appends_to_tracker
  (self self' : MeldRestraintTransformer.t) (state : IState.t)
  (system system' : System) (topology : Topology) :
  active self = true ->
  add_interactions self state system topology = (self', system', Ok system') ->
  (forall k, tracked k (tracker self')
             = tracked k (tracker self)
               ++ filter (has_kind k) (registration_order self))
  /\ groups (tracker self') = groups (tracker self) ++ group_entries self
  /\ collections (tracker self')
     = collections (tracker self) ++ collection_entries self
  /\ (forall (state2 : IState.t) (system2 : System)
             (self2 : MeldRestraintTransformer.t),
        add_interactions self' state2 system' topology
        = (self2, system2, Ok system2) ->
        (forall k, tracked k (tracker self2)
                   = tracked k (tracker self)
                     ++ filter (has_kind k) (registration_order self)
                     ++ filter (has_kind k) (registration_order self))
        /\ n_restraints (calls_on self2) = length (registration_order self)
        /\ system2 = system ++ [MeldForceObject (calls_on self');
                                MeldForceObject (calls_on self2)]).
Proof.
  intros Hact Hrun.
  destruct (add_interactions_laid_out _ _ _ _ _ _ Hact Hrun)
    as ([Ht Hg Hc _ _ _ _ _ _ _] & _ & _ & Hsys & Hon & Hsel & Hact').
  simpl in Ht, Hg, Hc.
  split; [exact Ht|]. split; [exact Hg|]. split; [exact Hc|].
  intros state2 system2 self2 Hrun2.
  destruct (add_interactions_laid_out _ _ _ _ _ _ Hact' Hrun2)
    as ([Ht2 _ _ Hnr2 _ _ _ _ _ _] & _ & _ & Hsys2 & _).
  simpl in Ht2, Hnr2.
  assert (Hord : registration_order self' = registration_order self).
  { unfold registration_order. now rewrite Hon, Hsel. }
  rewrite Hord in *. split; [|split].
  - intros k. now rewrite Ht2, Ht, <- app_assoc.
  - exact Hnr2.
  - rewrite Hsys2, Hsys. unfold addForce. now rewrite <- app_assoc.
Qed.

(* ================================================================== *)
(** * Updates without a MeldForce *)
(* ================================================================== *)

Lemma mfor_none {X : Type} (body : X -> M (option MeldForce) unit)
  (l : list X) :
  (forall x, exists r, body x None = (None, r)) ->
  exists r, mfor body l None = (None, r).
Proof.
  intros Hbody. induction l as [|x l [r IH]]; simpl.
  - unfold ret. eauto.
  - unfold bind. destruct (Hbody x) as [r1 ->].
    destruct r1; [rewrite IH|]; eauto.
Qed.

Lemma bind_none {X Y : Type} (m : M (option MeldForce) X)
  (k : X -> M (option MeldForce) Y) :
  (exists r, m None = (None, r)) ->
  (forall x, exists r, k x None = (None, r)) ->
  exists r, bind m k None = (None, r).
Proof.
  intros [r Hm] Hk. unfold bind. rewrite Hm.
  destruct r as [x|e]; [apply Hk|eauto].
Qed.

Lemma force_call_none (m : method) (a : list arg) :
  force_call m a None = (None, Raise (AttributeError "force")).
Proof. reflexivity. Qed.

Lemma update_restraints_none (self : MeldRestraintTransformer.t)
  (alpha : float) (timestep : Z) :
  exists r, _update_restraints self alpha timestep None = (None, r).
Proof.
  unfold _update_restraints.
  repeat (apply bind_none; [|intros _]);
    apply mfor_none; intros [i x];
    repeat (apply bind_none; [|intros ?]);
    try (rewrite force_call_none; eauto);
    try (unfold self_force; eauto);
    try (unfold lift; eauto).
Qed.

Lemma update_groups_collections_none (self : MeldRestraintTransformer.t)
  (state : IState.t) :
  exists r, _update_groups_collections self state None = (None, r).
Proof.
  unfold _update_groups_collections.
  apply bind_none; [|intros _];
    apply mfor_none; intros [i [x|]];
    try (unfold ret; eauto);
    (apply bind_none; [unfold lift; eauto|intros n]);
    rewrite force_call_none; eauto.
Qed.

(** X7. [update] on an active transformer whose attribute [force] does
    not exist yet (no [add_interactions] has returned) raises and leaves
    the transformer as it is.  With the empty tracker of the constructor
    the exception is the [AttributeError] for [force]. *)
Theorem update_without_force (self : MeldRestraintTransformer.t)
  (state : IState.t) (simulation : Simulation.t) (alpha : float)
  (timestep : Z) :
  active self = true -> force self = None ->
  exists e,
    update self state simulation alpha timestep = (self, Raise e)
    /\ (tracker self = _RestraintTracker.__init__ ->
        e = AttributeError "force").
Proof.
  intros Hact Hf. unfold update. rewrite Hact, Hf.
  destruct self as [pm tr on sel act f]. simpl in *. subst act f.
  unfold bind.
  destruct (update_restraints_none
              (MeldRestraintTransformer.mk pm tr on sel true None)
              alpha timestep) as [r1 H1].
  rewrite H1. destruct r1 as [[]|e1].
  - destruct (update_groups_collections_none
                (MeldRestraintTransformer.mk pm tr on sel true None) state)
      as [r2 H2].
    rewrite H2. destruct r2 as [[]|e2].
    + rewrite force_call_none. eexists. split; [reflexivity|trivial].
    + eexists. split; [reflexivity|]. intros ->.
      unfold _update_groups_collections in H2. simpl in H2.
      discriminate.
  - eexists. split; [reflexivity|]. intros ->.
    unfold _update_restraints in H1. simpl in H1. discriminate.
Qed.

(* ================================================================== *)
(** * The calls of one update *)
(* ================================================================== *)

Lemma update_calls_body (self : MeldRestraintTransformer.t)
  (state : IState.t) (simulation : Simulation.t) (alpha : float)
  (timestep : Z) :
  update_calls self state simulation alpha timestep
  = update_body self state alpha timestep ++ [Ok [recompute simulation]].
Proof.
  unfold update_calls, update_body, recompute. now rewrite <- !app_assoc.
Qed.

Lemma update_body_ok (self : MeldRestraintTransformer.t) (state : IState.t)
  (simulation : Simulation.t) (alpha : float) (timestep : Z)
  (cs : list call) (c : call) :
  In (Ok cs) (update_body self state alpha timestep) -> In c cs ->
  update_call_ok (tracker self) c /\ meth c <> updateParametersInContext.
Proof.
  intros H Hc. split.
  - apply (update_calls_ok self state simulation alpha timestep cs c);
      trivial.
    rewrite update_calls_body. apply in_or_app. now left.
  - unfold update_body in H.
    apply in_app_or in H. destruct H as [H|H].
    { unfold refresh_by_registration in H. apply in_flat_map in H.
      destruct H as (k & _ & H). unfold refresh_of_kind in H.
      apply in_map_iff in H. destruct H as ([i rest] & Hp & _).
      destruct (registration_of rest alpha timestep) as [cs0|e] eqn:Hreg;
        [|discriminate].
      simpl in Hp. injection Hp as <-.
      destruct (registration_of_ok _ _ _ _ Hreg) as (k' & a & _ & ->).
      destruct Hc as [<-|[]]. destruct k'; discriminate. }
    apply in_app_or in H. destruct H as [H|H];
      destruct (count_refresh_ok _ _ _ _ _ _ _ H Hc) as (j & n & x & -> & _);
      discriminate.
Qed.

Lemma issue_raise (l : list (result (list call))) (f f' : MeldForce)
  (e : exn) :
  issue l f = (Some f', Raise e) ->
  exists css more, l = map Ok css ++ Raise e :: more /\ f' = f ++ concat css.
Proof.
  revert f; induction l as [|[cs|e1] l IH]; intros f; simpl; intros H.
  - discriminate.
  - destruct (IH _ H) as (css & more & -> & ->).
    exists (cs :: css), more. simpl. now rewrite app_assoc.
  - injection H as <- <-. exists [], l. simpl. now rewrite app_nil_r.
Qed.

Lemma n_calls_app (l1 l2 : list (result (list call))) :
  n_calls (l1 ++ l2) = n_calls l1 + n_calls l2.
Proof. unfold n_calls. now rewrite map_app, list_sum_app. Qed.

Lemma n_calls_ok (css : list (list call)) :
  n_calls (map Ok css) = length (concat css).
Proof.
  unfold n_calls. induction css as [|cs css IH]; simpl; [reflexivity|].
  now rewrite length_app, <- IH.
Qed.

Lemma n_calls_refresh (l : list (nat * SelectableRestraint)) (alpha : float)
  (timestep : Z) :
  Forall (fun r => exists cs, r = Ok cs)
    (map (fun '(i, rest) =>
            rbind (registration_of rest alpha timestep)
                  (fun cs => Ok (map (as_modify i) cs))) l) ->
  n_calls (map (fun '(i, rest) =>
                  rbind (registration_of rest alpha timestep)
                        (fun cs => Ok (map (as_modify i) cs))) l)
  = length l.
Proof.
  unfold n_calls. induction l as [|[i rest] l IH]; simpl; intros H;
    [reflexivity|].
  inversion H as [|? ? [cs Hcs] Hl]; subst.
  rewrite IH by exact Hl. f_equal.
  destruct (registration_of rest alpha timestep) as [cs0|e] eqn:Hreg;
    [|discriminate].
  destruct (registration_of_ok _ _ _ _ Hreg) as (k & a & _ & ->).
  reflexivity.
Qed.

Lemma n_calls_counts {X : Type} (self : MeldRestraintTransformer.t)
  (state : IState.t) (m : method) (num_active : X -> num_active_t)
  (l : list (nat * option X)) :
  Forall (fun r => exists cs, r = Ok cs)
    (map (count_refresh self state m num_active) l) ->
  n_calls (map (count_refresh self state m num_active) l)
  = n_live (map snd l).
Proof.
  unfold n_calls, n_live. induction l as [|[i [x|]] l IH]; simpl; intros H;
    trivial; inversion H as [|? ? [cs Hcs] Hl]; subst;
    rewrite IH by exact Hl; trivial.
  f_equal. unfold count_refresh in *. simpl in *.
  destruct (_handle_num_active self (num_active x) state); [|discriminate].
  reflexivity.
Qed.

Lemma map_snd_enumerate {X : Type} (l : list X) :
  map snd (enumerate l) = l.
Proof.
  unfold enumerate. generalize 0.
  induction l as [|x l IH]; intros s; simpl; [reflexivity|]. now rewrite IH.
Qed.

Lemma length_enumerate {X : Type} (l : list X) :
  length (enumerate l) = length l.
Proof.
  rewrite <- (map_snd_enumerate l) at 2. now rewrite length_map.
Qed.

(** The number of calls an update body makes when none raises. *)
Lemma n_calls_update_body (self : MeldRestraintTransformer.t)
  (state : IState.t) (alpha : float) (timestep : Z) (css : list (list call)) :
  update_body self state alpha timestep = map Ok css ->
  length (concat css)
  = n_tracked (tracker self) + n_live (collections (tracker self))
    + n_live (groups (tracker self)).
Proof.
  intros H. rewrite <- n_calls_ok, <- H.
  assert (Hall : Forall (fun r => exists cs, r = Ok cs)
                        (update_body self state alpha timestep)).
  { rewrite H. apply Forall_forall. intros r Hr. apply in_map_iff in Hr.
    destruct Hr as (cs & <- & _). eauto. }
  unfold update_body in *.
  apply Forall_app in Hall. destruct Hall as [H1 Hall].
  apply Forall_app in Hall. destruct Hall as [H2 H3].
  rewrite !n_calls_app, (n_calls_counts _ _ _ _ _ H2),
    (n_calls_counts _ _ _ _ _ H3), !map_snd_enumerate, Nat.add_assoc.
  do 2 f_equal.
  clear H H2 H3. unfold refresh_by_registration, n_tracked in *.
  induction all_kinds as [|k ks IH]; simpl in *; [reflexivity|].
  apply Forall_app in H1. destruct H1 as [Hk Hks].
  rewrite n_calls_app, length_app, IH by exact Hks. f_equal.
  unfold refresh_of_kind in *.
  now rewrite n_calls_refresh, length_enumerate.
Qed.

Lemma in_concat_ok (css : list (list call)) (c : call) :
  In c (concat css) -> exists cs, In (Ok cs) (map (@Ok (list call)) css) /\ In c cs.
Proof.
  intros H. apply in_concat in H. destruct H as (cs & H1 & H2).
  exists cs. split; [now apply in_map|trivial].
Qed.

(** X8. An [update] of an active transformer with a MeldForce only adds
    calls at the end of its call sequence: updates of restraints and of
    the counts of tracked groups and collections, none of them the request
    to recompute.  When the update returns normally these are one call per
    tracked restraint, per tracked collection and per tracked group, and
    the request to recompute ([updateParametersInContext]) follows once, as
    the last call.  When the update raises, the calls made before the
    exception stay made and no request to recompute follows them. *)
Theorem update_call_sequence (self self' : MeldRestraintTransformer.t)
  (state : IState.t) (simulation : Simulation.t) (alpha : float)
  (timestep : Z) (f : MeldForce) (r : result unit) :
  active self = true -> force self = Some f ->
  update self state simulation alpha timestep = (self', r) ->
  exists body,
    Forall (fun c => update_call_ok (tracker self) c
                     /\ meth c <> updateParametersInContext) body
    /\ match r with
       | Ok _ =>
           force self' = Some (f ++ body ++ [recompute simulation])
           /\ length body
              = n_tracked (tracker self)
                + n_live (collections (tracker self))
                + n_live (groups (tracker self))
       | Raise _ => force self' = Some (f ++ body)
       end.
Proof.
  intros Hact Hf Hup.
  rewrite (update_issue self state simulation alpha timestep f Hact Hf) in Hup.
  rewrite update_calls_body, issue_app in Hup.
  destruct (issue_some (update_body self state alpha timestep) f)
    as (f' & r0 & Hbody).
  rewrite Hbody in Hup. destruct r0 as [[]|e].
  - destruct (issue_ok _ _ _ Hbody) as (css & Hcss & ->).
    simpl in Hup. injection Hup as <- <-. exists (concat css).
    split; [|split].
    + apply Forall_forall. intros c Hc.
      destruct (in_concat_ok _ _ Hc) as (cs & H1 & H2).
      rewrite <- Hcss in H1.
      exact (update_body_ok self state simulation alpha timestep cs c H1 H2).
    + simpl. now rewrite <- app_assoc.
    + exact (n_calls_update_body self state alpha timestep css Hcss).
  - destruct (issue_raise _ _ _ _ Hbody) as (css & more & Hcss & ->).
    simpl in Hup. injection Hup as <- <-. exists (concat css).
    split; [|reflexivity].
    apply Forall_forall. intros c Hc.
    destruct (in_concat_ok _ _ Hc) as (cs & H1 & H2).
    apply (update_body_ok self state simulation alpha timestep cs c); trivial.
    rewrite Hcss. apply in_or_app. now left.
Qed.

(* ================================================================== *)
(** * Updates and what the engine has created *)
(* ================================================================== *)

Lemma update_none (self : MeldRestraintTransformer.t) (state : IState.t)
  (simulation : Simulation.t) (alpha : float) (timestep : Z) :
  force self = None ->
  fst (update self state simulation alpha timestep) = self.
Proof.
  intros Hf. unfold update. destruct (active self) eqn:Ha; [|reflexivity].
  rewrite Hf.
  match goal with
  | |- context [let (_, _) := ?m None in _] =>
      assert (H : exists r, m None = (None, r))
  end.
  { apply bind_none; [apply update_restraints_none|intros _].
    apply bind_none; [apply update_groups_collections_none|intros _].
    rewrite force_call_none. eauto. }
  destruct H as [r ->]. destruct self; simpl in *; subst; reflexivity.
Qed.

(** The calls of a run of updates, when every call of one update has the
    property [P] of the tracker. *)
Lemma run_updates_calls_with (P : _RestraintTracker.t -> call -> Prop) :
  (forall self state simulation alpha timestep cs c,
     In (Ok cs) (update_calls self state simulation alpha timestep) ->
     In c cs -> P (tracker self) c) ->
  forall (steps : list (IState.t * Simulation.t * float * Z))
         (self : MeldRestraintTransformer.t),
  exists calls,
    calls_on (run_updates self steps) = calls_on self ++ calls
    /\ force (run_updates self steps)
       = match force self with
         | Some f => Some (f ++ calls)
         | None => None
         end
    /\ Forall (P (tracker self)) calls.
Proof.
  intros HP.
  induction steps as [|[[[state simulation] alpha] timestep] steps IH];
    intros self; simpl.
  - exists []. destruct (force self); rewrite ?app_nil_r; auto.
  - destruct (force self) as [f|] eqn:Hf.
    + destruct (active self) eqn:Hact.
      * rewrite (update_issue self state simulation alpha timestep f Hact Hf).
        simpl fst.
        destruct (issue_some
                    (update_calls self state simulation alpha timestep) f)
          as (f1 & r & Hissue).
        destruct (issue_calls _ _ _ _ Hissue) as (calls1 & -> & Hcalls1).
        rewrite Hissue. simpl fst.
        set (self1 := MeldRestraintTransformer.mk _ _ _ _ _ _).
        destruct (IH self1) as (calls2 & Hc2 & Hf2 & Hok2).
        exists (calls1 ++ calls2). unfold calls_on at 2. rewrite Hf.
        rewrite Hc2, Hf2. unfold calls_on, self1. simpl.
        rewrite !app_assoc. repeat split; trivial.
        apply Forall_app. split; [|exact Hok2].
        apply Forall_forall. intros c Hc.
        destruct (Hcalls1 c Hc) as (cs & Hcs & Hin).
        eapply HP; eauto.
      * unfold update. rewrite Hact. simpl fst.
        destruct (IH self) as (calls & Hc & Hf' & Hok).
        rewrite Hf in Hf'. eauto.
    + rewrite update_none by exact Hf.
      destruct (IH self) as (calls & Hc & Hf' & Hok).
      rewrite Hf in Hf'. eauto.
Qed.

Lemma update_call_not_creation (t : _RestraintTracker.t) (c : call) :
  update_call_ok t c ->
  is_creation c = false
  /\ method_eqb (meth c) addGroup = false
  /\ method_eqb (meth c) addCollection = false.
Proof.
  unfold is_creation.
  intros [H|[H|[(j & n & g & -> & _)|(j & n & coll & -> & _)]]];
    try (repeat split; reflexivity).
  - destruct (meth c); try discriminate; repeat split; reflexivity.
  - rewrite H. repeat split; reflexivity.
Qed.

Lemma filter_none {X : Type} (p : X -> bool) (l : list X) :
  Forall (fun x => p x = false) l -> filter p l = [].
Proof.
  induction 1 as [|x l Hx _ IH]; simpl; [reflexivity|]. now rewrite Hx.
Qed.

(** X9. No run of updates creates anything on the MeldForce: the
    restraint creation calls, the [addGroup] calls and the [addCollection]
    calls are the same after the updates as before, and so are the number
    of restraints and the members of the groups and of the collections. *)
Theorem updates_never_create (self : MeldRestraintTransformer.t)
  (steps : list (IState.t * Simulation.t * float * Z)) :
  filter is_creation (calls_on (run_updates self steps))
  = filter is_creation (calls_on self)
  /\ calls_of addGroup (calls_on (run_updates self steps))
     = calls_of addGroup (calls_on self)
  /\ calls_of addCollection (calls_on (run_updates self steps))
     = calls_of addCollection (calls_on self)
  /\ n_restraints (calls_on (run_updates self steps))
     = n_restraints (calls_on self)
  /\ group_members (calls_on (run_updates self steps))
     = group_members (calls_on self)
  /\ collection_members (calls_on (run_updates self steps))
     = collection_members (calls_on self).
Proof.
  destruct (run_updates_calls_with update_call_ok update_calls_ok steps self)
    as (calls & -> & _ & Hok).
  assert (H : filter is_creation calls = []
              /\ calls_of addGroup calls = []
              /\ calls_of addCollection calls = []).
  { repeat split; apply filter_none; revert Hok; apply Forall_impl;
      intros c Hc; apply (update_call_not_creation _ _ Hc). }
  destruct H as (H1 & H2 & H3).
  unfold group_members, collection_members, n_restraints.
  fold is_creation.
  rewrite !calls_of_app, H2, H3, filter_app, H1, !app_nil_r. auto 6.
Qed.

Lemma update_calls_tracked (self : MeldRestraintTransformer.t)
  (state : IState.t) (simulation : Simulation.t) (alpha : float)
  (timestep : Z) (cs : list call) (c : call) :
  In (Ok cs) (update_calls self state simulation alpha timestep) ->
  In c cs -> addresses_tracked (tracker self) c.
Proof.
  intros H Hc.
  pose proof (update_calls_ok self state simulation alpha timestep cs c H Hc)
    as Hok.
  destruct Hok as [Hr|[Hr|[(j & n & g & -> & Hj)|(j & n & coll & -> & Hj)]]].
  - right; left. unfold update_calls in H.
    apply in_app_or in H. destruct H as [H|H].
    + unfold refresh_by_registration in H. apply in_flat_map in H.
      destruct H as (k & _ & H). unfold refresh_of_kind in H.
      apply in_map_iff in H. destruct H as ([i rest] & Hp & Hin).
      apply in_enumerate in Hin.
      destruct (registration_of rest alpha timestep) as [cs0|e] eqn:Hreg;
        [|discriminate].
      simpl in Hp. injection Hp as <-.
      destruct (registration_of_ok _ _ _ _ Hreg) as (k' & a & Hk' & ->).
      destruct Hc as [<-|[]].
      assert (Hk : kind_of rest = Some k).
      { apply (tracked_kind k (tracker self)).
        eapply nth_error_In; eauto. }
      assert (k' = k) by congruence. subst k'.
      exists k, i, a. split; [reflexivity|].
      apply nth_error_Some. congruence.
    + exfalso.
      apply in_app_or in H. destruct H as [H|H];
        [|apply in_app_or in H; destruct H as [H|H]].
      * destruct (count_refresh_ok _ _ _ _ _ _ _ H Hc)
          as (j & n & x & -> & _). discriminate.
      * destruct (count_refresh_ok _ _ _ _ _ _ _ H Hc)
          as (j & n & x & -> & _). discriminate.
      * destruct H as [H|[]]. injection H as <-.
        destruct Hc as [<-|[]]. discriminate.
  - now left.
  - right; right; left. exists j, n. split; [reflexivity|].
    apply nth_error_Some. congruence.
  - right; right; right. exists j, n. split; [reflexivity|].
    apply nth_error_Some. congruence.
Qed.

Lemma registered_lengths {self state w rs gs cs} :
  registered self state w rs gs cs ->
  (forall k, length (tracked k (w_tracker w))
             = length (calls_of (add_method k) (w_force w)))
  /\ length (groups (w_tracker w)) = length (calls_of addGroup (w_force w))
  /\ length (collections (w_tracker w))
     = length (calls_of addCollection (w_force w)).
Proof.
  intros [Ht Hg Hc Hcr Hgc Hcc _]. split; [|split].
  - intros k. rewrite Ht, <- calls_of_creation.
    exact (Forall2_length (creations_of_kind k _ _ Hcr)).
  - rewrite Hg. exact (Forall2_length Hgc).
  - rewrite Hc. exact (Forall2_length Hcc).
Qed.

(** X10. After [add_interactions] on a transformer as the constructor
    leaves it, every call a run of updates makes addresses something the
    registration created: a restraint update carries an index below the
    number of restraints of its kind created on the MeldForce, an update of
    a group or collection count an index below the number of groups or
    collections created. *)
Theorem updates_address_created (self self' : MeldRestraintTransformer.t)
  (state : IState.t) (system system' : System) (topology : Topology)
  (steps : list (IState.t * Simulation.t * float * Z)) :
  constructed self ->
  add_interactions self state system topology = (self', system', Ok system') ->
  exists calls,
    calls_on (run_updates self' steps) = calls_on self' ++ calls
    /\ Forall (addresses_created (calls_on self')) calls.
Proof.
  intros Hc Hrun.
  destruct (add_interactions_registered _ _ _ _ _ _ Hc Hrun) as (Hreg & _).
  destruct (registered_lengths Hreg) as (Hk & Hg & Hcl). simpl in Hk, Hg, Hcl.
  destruct (run_updates_calls_with addresses_tracked update_calls_tracked
              steps self') as (calls & Hcalls & _ & Hok).
  exists calls. split; [exact Hcalls|].
  revert Hok. apply Forall_impl. intros c.
  intros [H|[(k & i & a & -> & Hi)|[(j & n & -> & Hj)|(j & n & -> & Hj)]]].
  - now left.
  - right. exists (add_method k), i, a. rewrite <- Hk.
    repeat split; trivial. destruct k; discriminate.
  - right. exists addGroup, j, [AInt n]. rewrite <- Hg.
    repeat split; trivial. discriminate.
  - right. exists addCollection, j, [AInt n]. rewrite <- Hcl.
    repeat split; trivial. discriminate.
Qed.

(* ================================================================== *)
(** * The counts after an update *)
(* ================================================================== *)

Lemma length_set_nth {X : Type} (i : nat) (x : X) (l : list X) :
  length (set_nth i x l) = length l.
Proof.
  revert i; induction l as [|y l IH]; intros [|i]; simpl; auto.
Qed.

Lemma nth_error_set_nth_same {X : Type} (i : nat) (x : X) (l : list X) :
  i < length l -> nth_error (set_nth i x l) i = Some x.
Proof.
  revert i; induction l as [|y l IH]; intros [|i]; simpl; intros H;
    try lia; trivial.
  apply IH. lia.
Qed.

Lemma enumerate_snoc {X : Type} (l : list X) (x : X) :
  enumerate (l ++ [x]) = enumerate l ++ [(length l, x)].
Proof.
  unfold enumerate.
  assert (G : forall s,
             combine (seq s (length (l ++ [x]))) (l ++ [x])
             = combine (seq s (length l)) l ++ [(s + length l, x)]).
  { induction l as [|y l IH]; intros s; simpl.
    - now rewrite Nat.add_0_r.
    - rewrite IH. now rewrite Nat.add_succ_r. }
  apply G.
Qed.

Lemma fold_left_kept {A B : Type} (step : A -> B -> A) (l : list B) :
  Forall (fun b => forall a, step a b = a) l ->
  forall a, fold_left step l a = a.
Proof.
  induction 1 as [|b l Hb _ IH]; intros a; simpl; trivial.
  now rewrite Hb.
Qed.

Lemma Forall2_in_r {X Y : Type} (R : X -> Y -> Prop) (l : list X)
  (l' : list Y) (y : Y) :
  Forall2 R l l' -> In y l' -> exists x, In x l /\ R x y.
Proof.
  induction 1 as [|x0 y0 l l' H0 _ IH]; simpl; intros Hy; [easy|].
  destruct Hy as [<-|Hy]; [eauto|].
  destruct (IH Hy) as (x & Hx & HR). eauto.
Qed.

(** The table of counts has one entry per creation call when every
    creation call carries a count. *)
Lemma length_counts (create modify : method) (f : MeldForce) :
  Forall (fun c => method_eqb (meth c) create = true ->
                   exists a n, args c = [a; AInt n]) f ->
  forall init,
    length (fold_left (apply_count create modify) f init)
    = length init + length (calls_of create f).
Proof.
  induction 1 as [|c f Hc _ IH]; intros init; simpl; [lia|].
  rewrite IH. unfold apply_count.
  destruct (method_eqb (meth c) create) eqn:Hm.
  - destruct (Hc eq_refl) as (a & n & ->). rewrite length_app. simpl. lia.
  - destruct (method_eqb (meth c) modify); [|lia].
    repeat match goal with
           | |- context [match ?x with _ => _ end] => destruct x
           end; rewrite ?length_set_nth; lia.
Qed.

(** The refresh of the counts of a sequence of tracker entries sets the
    count of every tracked entry to its resolved [num_active]. *)
Lemma count_refresh_sets {X : Type} (self : MeldRestraintTransformer.t)
  (state : IState.t) (create m : method) (num_active : X -> num_active_t) :
  method_eqb m create = false -> method_eqb m m = true ->
  forall (l : list (option X)) (css : list (list call)) (counts : list Z),
    map (count_refresh self state m num_active) (enumerate l) = map Ok css ->
    length l <= length counts ->
    length (fold_left (apply_count create m) (concat css) counts)
    = length counts
    /\ forall j x,
         nth_error l j = Some (Some x) ->
         exists n,
           _handle_num_active self (num_active x) state = Ok n
           /\ nth_error (fold_left (apply_count create m) (concat css) counts)
                        j = Some n.
Proof.
  intros Hm1 Hm2.
  induction l as [|x l IH] using rev_ind; intros css counts H Hlen.
  - destruct css; [|discriminate]. simpl. split; [reflexivity|].
    intros [|j] x Hj; discriminate.
  - rewrite enumerate_snoc, map_app in H. symmetry in H.
    apply map_eq_app in H. destruct H as (css1 & css2 & -> & H1 & H2).
    rewrite length_app in Hlen. simpl in Hlen.
    destruct (IH css1 counts (eq_sym H1) ltac:(lia)) as (Hl1 & Hn1).
    rewrite concat_app, fold_left_app.
    set (counts1 := fold_left (apply_count create m) (concat css1) counts)
      in *.
    destruct css2 as [|cs [|? ?]]; try discriminate.
    simpl in H2. injection H2 as H2. simpl concat. rewrite app_nil_r.
    unfold count_refresh in H2. simpl in H2.
    destruct x as [x|].
    + destruct (_handle_num_active self (num_active x) state) as [n|e]
        eqn:Hn; [|discriminate].
      simpl in H2. injection H2 as ->. simpl fold_left.
      unfold apply_count. simpl meth. rewrite Hm1, Hm2. simpl args. cbv beta iota.
      rewrite Nat2Z.id. split; [now rewrite length_set_nth|].
      intros j x' Hj.
      destruct (Nat.lt_ge_cases j (length l)) as [Hlt|Hge].
      * rewrite nth_error_app1 in Hj by exact Hlt.
        rewrite nth_error_set_nth_other by lia. now apply Hn1.
      * assert (j = length l).
        { assert (Hs : nth_error (l ++ [Some x]) j <> None) by congruence.
          apply nth_error_Some in Hs. rewrite length_app in Hs.
          simpl in Hs. lia. }
        subst j. rewrite nth_error_app2, Nat.sub_diag in Hj by lia.
        injection Hj as <-. exists n. split; [exact Hn|].
        apply nth_error_set_nth_same. lia.
    + injection H2 as ->. simpl. split; [exact Hl1|].
      intros j x' Hj.
      destruct (Nat.lt_ge_cases j (length l)) as [Hlt|Hge].
      * rewrite nth_error_app1 in Hj by exact Hlt. now apply Hn1.
      * assert (j = length l).
        { assert (Hs : nth_error (l ++ [@None X]) j <> None) by congruence.
          apply nth_error_Some in Hs. rewrite length_app in Hs.
          simpl in Hs. lia. }
        subst j. rewrite nth_error_app2, Nat.sub_diag in Hj by lia.
        discriminate.
Qed.

Lemma add_interactions_keeps (self self' : MeldRestraintTransformer.t)
  (state : IState.t) (system system' : System) (topology : Topology)
  (r : result System) :
  add_interactions self state system topology = (self', system', r) ->
  param_manager self' = param_manager self
  /\ always_on self' = always_on self
  /\ selective_on self' = selective_on self
  /\ active self' = active self.
Proof.
  unfold add_interactions. destruct (active self) eqn:Ha.
  - destruct (register_all self state _) as [w [[]|e]];
      intros H; injection H as <- _ _; simpl; auto.
  - intros H; injection H as <- _ _; auto.
Qed.

Lemma handle_num_active_manager (self self' : MeldRestraintTransformer.t)
  (value : num_active_t) (state : IState.t) :
  param_manager self' = param_manager self ->
  _handle_num_active self' value state = _handle_num_active self value state.
Proof. unfold _handle_num_active. now intros ->. Qed.

Lemma refresh_keeps_counts (create m : method) (t : _RestraintTracker.t)
  (alpha : float) (timestep : Z) (css : list (list call)) :
  (forall k, method_eqb (modify_of (add_method k)) create = false) ->
  (forall k, method_eqb (modify_of (add_method k)) m = false) ->
  refresh_by_registration t alpha timestep = map Ok css ->
  forall counts,
    fold_left (apply_count create m) (concat css) counts = counts.
Proof.
  intros Hcr Hm H. apply fold_left_kept. apply Forall_forall. intros c Hc.
  destruct (in_concat_ok _ _ Hc) as (cs & H1 & H2). rewrite <- H in H1.
  unfold refresh_by_registration in H1. apply in_flat_map in H1.
  destruct H1 as (k & _ & H1). unfold refresh_of_kind in H1.
  apply in_map_iff in H1. destruct H1 as ([i rest] & Hp & _).
  destruct (registration_of rest alpha timestep) as [cs0|e] eqn:Hreg;
    [|discriminate].
  simpl in Hp. injection Hp as <-.
  destruct (registration_of_ok _ _ _ _ Hreg) as (k' & a & _ & ->).
  destruct H2 as [<-|[]]. intros counts. unfold apply_count. simpl meth.
  now rewrite Hcr, Hm.
Qed.

Lemma restraint_update_not_count (k : kind) :
  method_eqb (modify_of (add_method k)) addGroup = false
  /\ method_eqb (modify_of (add_method k)) modifyGroupNumActive = false
  /\ method_eqb (modify_of (add_method k)) addCollection = false
  /\ method_eqb (modify_of (add_method k)) modifyCollectionNumActive = false.
Proof. destruct k; repeat split; reflexivity. Qed.

Lemma count_refresh_keeps_counts {X : Type}
  (self : MeldRestraintTransformer.t) (state : IState.t)
  (create modify m : method) (num_active : X -> num_active_t)
  (l : list (option X)) (css : list (list call)) :
  method_eqb m create = false -> method_eqb m modify = false ->
  map (count_refresh self state m num_active) (enumerate l) = map Ok css ->
  forall counts,
    fold_left (apply_count create modify) (concat css) counts = counts.
Proof.
  intros Hcr Hm H. apply fold_left_kept. apply Forall_forall. intros c Hc.
  destruct (in_concat_ok _ _ Hc) as (cs & H1 & H2). rewrite <- H in H1.
  destruct (count_refresh_ok _ _ _ _ _ _ _ H1 H2) as (j & n & x & -> & _).
  intros counts. unfold apply_count. simpl meth. now rewrite Hcr, Hm.
Qed.

Lemma counts_after (create modify : method) (f : MeldForce)
  (cssR cssC cssG : list (list call)) (c : call) :
  method_eqb (meth c) create = false ->
  method_eqb (meth c) modify = false ->
  fold_left (apply_count create modify)
    (f ++ concat (cssR ++ cssC ++ cssG ++ [[c]])) []
  = fold_left (apply_count create modify) (concat cssG)
      (fold_left (apply_count create modify) (concat cssC)
         (fold_left (apply_count create modify) (concat cssR)
            (fold_left (apply_count create modify) f []))).
Proof.
  intros H1 H2. rewrite !concat_app, !fold_left_app. simpl.
  unfold apply_count at 1. now rewrite H1, H2.
Qed.

(** The tables of counts after a successful update on a MeldForce in which
    every group and collection of the tracker has been created. *)
Lemma update_counts (self self' : MeldRestraintTransformer.t)
  (state : IState.t) (simulation : Simulation.t) (alpha : float)
  (timestep : Z) (f : MeldForce) :
  active self = true -> force self = Some f ->
  update self state simulation alpha timestep = (self', Ok tt) ->
  length (groups (tracker self)) <= length (group_counts f) ->
  length (collections (tracker self)) <= length (collection_counts f) ->
  (forall j g,
     nth_error (groups (tracker self)) j = Some (Some g) ->
     exists n,
       _handle_num_active self (RestraintGroup.num_active g) state = Ok n
       /\ nth_error (group_counts (calls_on self')) j = Some n)
  /\ (forall j coll,
        nth_error (collections (tracker self)) j = Some (Some coll) ->
        exists n,
          _handle_num_active self
            (SelectivelyActiveCollection.num_active coll) state = Ok n
          /\ nth_error (collection_counts (calls_on self')) j = Some n).
Proof.
  intros Hact Hf Hup Hg Hc.
  rewrite (update_issue self state simulation alpha timestep f Hact Hf) in Hup.
  destruct (issue_some (update_calls self state simulation alpha timestep) f)
    as (f' & r & Hissue).
  rewrite Hissue in Hup. simpl in Hup. injection Hup as <- ->.
  destruct (issue_ok _ _ _ Hissue) as (css & Hcss & ->).
  unfold update_calls in Hcss. symmetry in Hcss.
  apply map_eq_app in Hcss. destruct Hcss as (cssR & css1 & -> & HR & Hcss).
  apply map_eq_app in Hcss. destruct Hcss as (cssC & css2 & -> & HC & Hcss).
  apply map_eq_app in Hcss. destruct Hcss as (cssG & css3 & -> & HG & H3).
  destruct css3 as [|cs3 [|? ?]]; try discriminate.
  simpl in H3. injection H3 as ->.
  unfold calls_on, group_counts, collection_counts. simpl force.
  cbv beta iota. rewrite !counts_after by reflexivity.
  fold (group_counts f) (collection_counts f).
  rewrite (refresh_keeps_counts addGroup modifyGroupNumActive _ _ _ _
             (fun k => proj1 (restraint_update_not_count k))
             (fun k => proj1 (proj2 (restraint_update_not_count k)))
             (eq_sym HR)).
  rewrite (refresh_keeps_counts addCollection modifyCollectionNumActive
             _ _ _ _
             (fun k => proj1 (proj2 (proj2 (restraint_update_not_count k))))
             (fun k => proj2 (proj2 (proj2 (restraint_update_not_count k))))
             (eq_sym HR)).
  rewrite (count_refresh_keeps_counts self state addGroup
             modifyGroupNumActive modifyCollectionNumActive _ _ _
             eq_refl eq_refl (eq_sym HC)).
  rewrite (count_refresh_keeps_counts self state addCollection
             modifyCollectionNumActive modifyGroupNumActive _ _ _
             eq_refl eq_refl (eq_sym HG)).
  split.
  - apply (count_refresh_sets self state addGroup modifyGroupNumActive
             RestraintGroup.num_active eq_refl eq_refl _ cssG
             (group_counts f) (eq_sym HG) Hg).
  - destruct (count_refresh_sets self state addCollection
                modifyCollectionNumActive
                SelectivelyActiveCollection.num_active eq_refl eq_refl _ cssC
                (collection_counts f) (eq_sym HC) Hc) as (_ & Hn).
    exact Hn.
Qed.

Lemma registered_count_tables {self state w rs gs cs} :
  registered self state w rs gs cs ->
  length (group_counts (w_force w)) = length (groups (w_tracker w))
  /\ length (collection_counts (w_force w))
     = length (collections (w_tracker w)).
Proof.
  intros Hreg. destruct (registered_lengths Hreg) as (_ & Hg & Hc).
  destruct Hreg as [_ _ _ _ Hgc Hcc _].
  unfold group_counts, collection_counts. split.
  - rewrite length_counts, Hg; [reflexivity|].
    apply Forall_forall. intros c Hin Hm.
    assert (Hc' : In c (calls_of addGroup (w_force w)))
      by (apply filter_In; auto).
    destruct (Forall2_in_r _ _ _ _ Hgc Hc')
      as (entry & _ & idxs & n & -> & _). simpl. eauto.
  - rewrite length_counts, Hc; [reflexivity|].
    apply Forall_forall. intros c Hin Hm.
    assert (Hc' : In c (calls_of addCollection (w_force w)))
      by (apply filter_In; auto).
    destruct (Forall2_in_r _ _ _ _ Hcc Hc')
      as (entry & _ & idxs & n & -> & _). simpl. eauto.
Qed.

(** X11. After [add_interactions] on a transformer as the constructor
    leaves it, a successful [update] leaves in the engine, for every
    tracked group, the group's [num_active] resolved in the state of that
    update and, for every tracked collection, the collection's own
    [num_active] resolved in that state, whatever count the collection was
    created with. *)
Theorem update_sets_counts (self self1 self2 : MeldRestraintTransformer.t)
  (state0 state : IState.t) (system system' : System) (topology : Topology)
  (simulation : Simulation.t) (alpha : float) (timestep : Z) :
  constructed self ->
  add_interactions self state0 system topology = (self1, system', Ok system') ->
  update self1 state simulation alpha timestep = (self2, Ok tt) ->
  (forall j g,
     nth_error (group_entries self) j = Some (Some g) ->
     exists n,
       _handle_num_active self (RestraintGroup.num_active g) state = Ok n
       /\ nth_error (group_counts (calls_on self2)) j = Some n)
  /\ (forall j coll,
        nth_error (collection_entries self) j = Some (Some coll) ->
        exists n,
          _handle_num_active self
            (SelectivelyActiveCollection.num_active coll) state = Ok n
          /\ nth_error (collection_counts (calls_on self2)) j = Some n).
Proof.
  intros Hcon Hrun Hup.
  destruct (add_interactions_registered _ _ _ _ _ _ Hcon Hrun)
    as (Hreg & Hact & Hinact).
  destruct (add_interactions_keeps _ _ _ _ _ _ _ Hrun) as (Hpm & _ & _ & Ha).
  destruct (registered_count_tables Hreg) as (Hg & Hc).
  pose proof (reg_groups _ _ _ _ _ _ Hreg) as Hgs.
  pose proof (reg_collections _ _ _ _ _ _ Hreg) as Hcs.
  simpl in Hg, Hc, Hgs, Hcs.
  destruct (active self) eqn:Hact0.
  - destruct (Hact eq_refl) as (Hf & _).
    destruct (update_counts self1 self2 state simulation alpha timestep _
                Ha Hf Hup) as (H1 & H2); [lia|lia|].
    rewrite Hgs in H1. rewrite Hcs in H2.
    split; intros j x Hj.
    + destruct (H1 j x Hj) as (n & Hn & Hnth). exists n.
      rewrite <- (handle_num_active_manager self self1) by exact Hpm. auto.
    + destruct (H2 j x Hj) as (n & Hn & Hnth). exists n.
      rewrite <- (handle_num_active_manager self self1) by exact Hpm. auto.
  - destruct (Hinact eq_refl) as (-> & _).
    destruct Hcon as (Ht & _). rewrite Ht in Hgs, Hcs. simpl in Hgs, Hcs.
    rewrite <- Hgs, <- Hcs. split; intros [|j] x Hj; discriminate.
Qed.

(* ================================================================== *)
(** * The exceptions of a registration *)
(* ================================================================== *)

(** A loop that raises does so in the body, at one of its elements. *)
Lemma mfold_raises {S X B : Type} (body : B -> X -> M S B) (l : list X)
  (acc : B) (s s' : S) (e : exn) :
  mfold body l acc s = (s', Raise e) ->
  exists x acc0 s0, In x l /\ body acc0 x s0 = (s', Raise e).
Proof.
  revert acc s; induction l as [|x l IH]; intros acc s; simpl;
    [discriminate|].
  unfold bind. destruct (body acc x s) as [s1 [acc1|e1]] eqn:Hb.
  - intros H. destruct (IH _ _ H) as (y & acc0 & s0 & Hy & Hbody).
    exists y, acc0, s0. auto.
  - intros H. injection H as <- <-. exists x, acc, s. auto.
Qed.

Lemma raised_by_incl self state rs rs' gs gs' e :
  incl rs rs' -> incl gs gs' ->
  raised_by self state rs gs e -> raised_by self state rs' gs' e.
Proof.
  intros Hr Hg [(rest & Hin & H)|(g & Hin & H)]; [left|right]; eauto.
Qed.

Lemma add_always_on_raises self state w w' e :
  add_always_on self w = (w', Raise e) ->
  raised_by self state (always_on self) [] e.
Proof.
  unfold add_always_on, bind.
  destruct (mfold add_always_on_rest (always_on self) [] w)
    as [w1 [gl|e1]] eqn:Hloop.
  - unfold meld_force_addCollection, create, append_collection, on_tracker.
    discriminate.
  - intros H. injection H as _ <-.
    destruct (mfold_raises _ _ _ _ _ _ Hloop) as (rest & gl & w0 & Hin & Hb).
    rewrite add_always_on_rest_run in Hb. left. exists rest.
    split; [exact Hin|].
    destruct (serializable rest) eqn:Hs.
    + destruct (proj1 (registration_of_cases rest 0%float 0%Z) Hs)
        as (c & Hc & _). rewrite Hc in Hb. discriminate.
    + rewrite (proj2 (registration_of_cases rest 0%float 0%Z) Hs) in Hb.
      injection Hb as _ <-. auto.
Qed.

Lemma add_group_raises self state locals g w w' e :
  add_group self state locals g w = (w', Raise e) ->
  raised_by self state (RestraintGroup.restraints g) [g] e.
Proof.
  unfold add_group, bind.
  destruct (mfold add_group_rest (RestraintGroup.restraints g) [] w)
    as [w1 [idxs|e1]] eqn:Hloop.
  - unfold lift.
    destruct (_handle_num_active self (RestraintGroup.num_active g) state)
      as [n|e1] eqn:Hn.
    + unfold meld_force_addGroup, create, append_group, on_tracker.
      discriminate.
    + intros H. injection H as _ <-. right. exists g. simpl. auto.
  - intros H. injection H as _ <-.
    destruct (mfold_raises _ _ _ _ _ _ Hloop) as (rest & acc & w0 & Hin & Hb).
    rewrite add_group_rest_run in Hb. left. exists rest.
    split; [exact Hin|].
    destruct (serializable rest) eqn:Hs.
    + destruct (proj1 (registration_of_cases rest 0%float 0%Z) Hs)
        as (c & Hc & _). rewrite Hc in Hb. discriminate.
    + rewrite (proj2 (registration_of_cases rest 0%float 0%Z) Hs) in Hb.
      injection Hb as _ <-. auto.
Qed.

(** A group that has been created is bound to [group], and its
    [num_active] resolves. *)
Lemma add_group_binds self state locals g w w' locals' :
  add_group self state locals g w = (w', Ok locals') ->
  snd locals' = Some g
  /\ resolves self state (RestraintGroup.num_active g) = true.
Proof.
  unfold add_group, bind.
  destruct (mfold add_group_rest (RestraintGroup.restraints g) [] w)
    as [w1 [idxs|e1]]; [|discriminate].
  unfold lift, resolves.
  destruct (_handle_num_active self (RestraintGroup.num_active g) state)
    as [n|e1]; [|discriminate].
  unfold meld_force_addGroup, create, append_group, on_tracker, ret.
  simpl. intros H. injection H as _ <-. auto.
Qed.

Lemma groups_bind self state (l : list RestraintGroup.t) :
  forall locals w w' locals',
    mfold (add_group self state) l locals w = (w', Ok locals') ->
    (l = [] /\ locals' = locals)
    \/ exists g, snd locals' = Some g
                 /\ resolves self state (RestraintGroup.num_active g) = true.
Proof.
  induction l as [|g l IH]; intros locals w w' locals'; simpl.
  - unfold ret. intros H. injection H as _ <-. auto.
  - unfold bind.
    destruct (add_group self state locals g w) as [w1 [locals1|e1]] eqn:Hg;
      [|discriminate].
    intros H. right. destruct (IH _ _ _ _ H) as [[-> ->]|Hb]; [|exact Hb].
    exists g. exact (add_group_binds _ _ _ _ _ _ _ Hg).
Qed.

(** Once [group] is bound, or in a collection that has a group, the body
    of the loop over the collections raises only what a restraint or a
    group of the collection raises, and leaves [group] bound. *)
Lemma add_collection_bound self state gv coll w w' r :
  match gv with
  | Some g => resolves self state (RestraintGroup.num_active g) = true
  | None => truthy (SelectivelyActiveCollection.groups coll) = true
  end ->
  add_collection self state gv coll w = (w', r) ->
  match r with
  | Ok gv' =>
      exists g, gv' = Some g
                /\ resolves self state (RestraintGroup.num_active g) = true
  | Raise e =>
      raised_by self state
        (flat_map RestraintGroup.restraints
                  (SelectivelyActiveCollection.groups coll))
        (SelectivelyActiveCollection.groups coll) e
  end.
Proof.
  intros Hgv. unfold add_collection, bind.
  destruct (mfold (add_group self state)
              (SelectivelyActiveCollection.groups coll) ([], gv) w)
    as [w1 [locals|e1]] eqn:Hloop.
  - assert (Hb : exists g,
               snd locals = Some g
               /\ resolves self state (RestraintGroup.num_active g) = true).
    { destruct (groups_bind _ _ _ _ _ _ _ Hloop) as [[Hnil ->]|Hb];
        [|exact Hb].
      rewrite Hnil in Hgv. simpl. destruct gv as [g|]; [eauto|discriminate]. }
    destruct Hb as (g & Hg & Hr). rewrite Hg. unfold ret at 1.
    unfold lift. unfold resolves in Hr.
    destruct (_handle_num_active self (RestraintGroup.num_active g) state)
      as [n|e1] eqn:Hn; [|discriminate].
    unfold meld_force_addCollection, create, append_collection, on_tracker,
      ret.
    simpl. intros H. injection H as _ <-. exists g.
    unfold resolves. now rewrite Hn.
  - intros H. injection H as _ <-.
    destruct (mfold_raises _ _ _ _ _ _ Hloop) as (g & acc & w0 & Hin & Hb).
    apply add_group_raises in Hb. revert Hb. apply raised_by_incl.
    + intros rest Hrest. apply in_flat_map. eauto.
    + intros g' [<-|[]]. exact Hin.
Qed.

Lemma collections_bound self state (l : list SelectivelyActiveCollection.t) :
  forall gv w w' e,
    match gv with
    | Some g => resolves self state (RestraintGroup.num_active g) = true
    | None => first_has_group l = true
    end ->
    mfold (add_collection self state) l gv w = (w', Raise e) ->
    raised_by self state
      (flat_map (fun coll =>
                   flat_map RestraintGroup.restraints
                            (SelectivelyActiveCollection.groups coll)) l)
      (all_groups l) e.
Proof.
  induction l as [|coll l IH]; intros gv w w' e Hgv; simpl; [discriminate|].
  unfold bind.
  destruct (add_collection self state gv coll w) as [w1 [gv1|e1]] eqn:Hc.
  - intros H.
    assert (Hgv' : match gv with
                   | Some g =>
                       resolves self state (RestraintGroup.num_active g) = true
                   | None =>
                       truthy (SelectivelyActiveCollection.groups coll) = true
                   end) by (destruct gv; exact Hgv).
    destruct (add_collection_bound _ _ _ _ _ _ _ Hgv' Hc) as (g & -> & Hr).
    apply (IH (Some g) w1 w' e Hr) in H. revert H.
    apply raised_by_incl; apply incl_appr, incl_refl.
  - intros H. injection H as _ <-.
    assert (Hgv' : match gv with
                   | Some g =>
                       resolves self state (RestraintGroup.num_active g) = true
                   | None =>
                       truthy (SelectivelyActiveCollection.groups coll) = true
                   end) by (destruct gv; exact Hgv).
    pose proof (add_collection_bound _ _ _ _ _ _ _ Hgv' Hc) as H.
    revert H. apply raised_by_incl; apply incl_appl, incl_refl.
Qed.

Lemma add_selective_on_raises self state w w' e :
  add_selective_on self state w = (w', Raise e) ->
  raised_by self state
    (flat_map (fun coll =>
                 flat_map RestraintGroup.restraints
                          (SelectivelyActiveCollection.groups coll))
              (selective_on self))
    (all_groups (selective_on self)) e
  \/ (first_has_group (selective_on self) = false
      /\ e = UnboundLocalError "group"
      /\ w' = w).
Proof.
  unfold add_selective_on, bind.
  destruct (mfold (add_collection self state) (selective_on self) None w)
    as [w1 [gv|e1]] eqn:Hloop; [discriminate|].
  intros H. injection H as <- <-.
  destruct (first_has_group (selective_on self)) eqn:Hfirst.
  - left. exact (collections_bound self state _ None w w1 e1 Hfirst Hloop).
  - right. destruct (selective_on self) as [|coll l]; [discriminate|].
    simpl in Hfirst.
    destruct (SelectivelyActiveCollection.groups coll) eqn:Hg;
      [|discriminate].
    simpl in Hloop. unfold bind, add_collection in Hloop.
    rewrite Hg in Hloop. simpl in Hloop. unfold bind, ret, raise in Hloop.
    injection Hloop as <- <-. auto.
Qed.

Lemma register_all_raises self state w w' e :
  register_all self state w = (w', Raise e) ->
  raised_by self state (registration_order self)
    (all_groups (selective_on self)) e
  \/ (first_has_group (selective_on self) = false
      /\ e = UnboundLocalError "group").
Proof.
  unfold register_all, bind, registration_order.
  destruct ((if truthy (always_on self) then add_always_on self else ret tt) w)
    as [w1 [[]|e1]] eqn:Hon.
  - intros H. destruct (add_selective_on_raises _ _ _ _ _ H) as [Hr|(H1 & H2 & _)].
    + left. revert Hr. apply raised_by_incl;
        [apply incl_appr|]; apply incl_refl.
    + right. auto.
  - intros H. injection H as _ <-. left.
    destruct (truthy (always_on self)); [|discriminate].
    pose proof (add_always_on_raises self state _ _ _ Hon) as Hr.
    revert Hr. apply raised_by_incl; [apply incl_appl, incl_refl|].
    intros g [].
Qed.

(** X12. Here the engine is a log that accepts every call: the methods of
    the MeldForce and [system.addForce] return normally, and so do the
    restraints' own functions and the parameter manager; an exception of
    the engine, which the source lets through, is outside this statement.
    When [add_interactions] raises under that assumption, the system is
    returned as it was and [self.force] is left as it was: the new
    MeldForce is dropped.  The exception is then one of three: that of a
    restraint the transformer owns which cannot be serialized (the
    [RuntimeError] of line 396 for a class the serializer does not know,
    [IndexError] for a profile with too few spline columns or a precision
    stack that is too small); that of resolving the [num_active] of one of
    its groups; or the [UnboundLocalError] for the local [group], and then
    the first selectively active collection has no group. *)
Theorem add_interactions_raises (self self' : MeldRestraintTransformer.t)
  (state : IState.t) (system system' : System) (topology : Topology)
  (e : exn) :
  add_interactions self state system topology = (self', system', Raise e) ->
  system' = system
  /\ force self' = force self
  /\ (raised_by self state (registration_order self)
        (all_groups (selective_on self)) e
      \/ (first_has_group (selective_on self) = false
          /\ e = UnboundLocalError "group")).
Proof.
  unfold add_interactions. destruct (active self); [|discriminate].
  destruct (register_all self state _) as [w [[]|e1]] eqn:Hrun;
    [discriminate|].
  intros H. injection H as <- <- <-. simpl.
  repeat split; trivial.
  exact (register_all_raises _ _ _ _ _ Hrun).
Qed.

(* ================================================================== *)
(** * When an update returns *)
(* ================================================================== *)

Lemma issue_built (l : list (result (list call))) (f : MeldForce) :
  snd (issue l f) = Ok tt <-> Forall built l.
Proof.
  revert f; induction l as [|[cs|e] l IH]; intros f; simpl.
  - split; auto.
  - rewrite IH. split; intros H.
    + constructor; [now exists cs|exact H].
    + now inversion H.
  - split; [discriminate|]. intros H. inversion H as [|? ? [cs Hcs] _].
    discriminate.
Qed.

Lemma update_returns_built (self : MeldRestraintTransformer.t)
  (state : IState.t) (simulation : Simulation.t) (alpha : float)
  (timestep : Z) (f : MeldForce) :
  active self = true -> force self = Some f ->
  (exists self', update self state simulation alpha timestep = (self', Ok tt))
  <-> Forall built (update_calls self state simulation alpha timestep).
Proof.
  intros Hact Hf.
  rewrite (update_issue self state simulation alpha timestep f Hact Hf).
  rewrite <- (issue_built _ f). split.
  - intros (self' & H). now injection H as _ ->.
  - intros ->. eauto.
Qed.

Lemma Forall_enumerate {X Y : Type} (g : nat * X -> Y) (P : Y -> Prop)
  (Q : X -> Prop) (l : list X) :
  (forall i x, P (g (i, x)) <-> Q x) ->
  Forall P (map g (enumerate l)) <-> Forall Q l.
Proof.
  intros Hg. unfold enumerate. generalize 0.
  induction l as [|x l IH]; intros s; simpl.
  - split; constructor.
  - split; intros H; inversion H; subst; constructor;
      try (now apply Hg); try (now apply (IH (S s))).
    now apply (Hg s).
Qed.

Lemma count_refresh_built {X : Type} (self : MeldRestraintTransformer.t)
  (state : IState.t) (m : method) (num_active : X -> num_active_t)
  (i : nat) (entry : option X) :
  built (count_refresh self state m num_active (i, entry))
  <-> entry_resolves self state num_active entry.
Proof.
  unfold built, count_refresh, entry_resolves, resolves. simpl.
  destruct entry as [x|]; [|split; eauto].
  destruct (_handle_num_active self (num_active x) state); simpl;
    split; eauto; try discriminate.
  intros [cs H]. discriminate.
Qed.

Lemma refresh_built (t : _RestraintTracker.t) (alpha : float)
  (timestep : Z) :
  (forall k rest, In rest (tracked k t) -> serializable rest = true) ->
  Forall built (refresh_by_registration t alpha timestep).
Proof.
  intros Hs. apply Forall_forall. intros r Hr.
  unfold refresh_by_registration in Hr. apply in_flat_map in Hr.
  destruct Hr as (k & _ & Hr). unfold refresh_of_kind in Hr.
  apply in_map_iff in Hr. destruct Hr as ([i rest] & <- & Hin).
  apply in_enumerate in Hin. apply nth_error_In in Hin.
  destruct (proj1 (registration_of_cases rest alpha timestep)
              (Hs k rest Hin)) as (c & -> & _).
  simpl. now eexists.
Qed.

Lemma collection_entries_resolve (self : MeldRestraintTransformer.t)
  (state : IState.t) :
  Forall (entry_resolves self state SelectivelyActiveCollection.num_active)
         (collection_entries self)
  <-> forallb (fun coll =>
                 resolves self state
                   (SelectivelyActiveCollection.num_active coll))
              (selective_on self) = true.
Proof.
  unfold collection_entries. rewrite Forall_app, forallb_forall, Forall_map.
  rewrite <- Forall_forall. simpl. split; [tauto|].
  intros H. split; [|exact H].
  destruct (truthy (always_on self)); repeat constructor.
Qed.

Lemma group_entries_resolve (self : MeldRestraintTransformer.t)
  (state : IState.t) :
  Forall (entry_resolves self state RestraintGroup.num_active)
         (group_entries self)
  <-> forallb (fun g => resolves self state (RestraintGroup.num_active g))
              (all_groups (selective_on self)) = true.
Proof.
  split; [apply resolves_entries|].
  intros H. rewrite forallb_forall in H.
  unfold group_entries. apply Forall_app. split.
  - apply Forall_forall. intros entry Hin. apply repeat_spec in Hin.
    now subst.
  - apply Forall_forall. intros entry Hin. apply in_flat_map in Hin.
    destruct Hin as (coll & Hcoll & Hin). apply in_map_iff in Hin.
    destruct Hin as (g & <- & Hg). simpl. apply H.
    unfold all_groups. apply in_flat_map. eauto.
Qed.

Lemma resolves_manager (self self' : MeldRestraintTransformer.t)
  (state : IState.t) (value : num_active_t) :
  param_manager self' = param_manager self ->
  resolves self' state value = resolves self state value.
Proof.
  intros H. unfold resolves. now rewrite (handle_num_active_manager _ _ _ _ H).
Qed.

(** X13. Here the engine is a log that accepts every call: the update
    methods of the MeldForce and [updateParametersInContext] return
    normally, and so do the restraints' own functions and the parameter
    manager; an exception of the engine, which the source lets through, is
    outside this statement.  Under that assumption, after
    [add_interactions] on a transformer as the constructor leaves it, an
    [update] returns normally exactly when the [num_active] of every
    selectively active collection and of every group resolves in the
    state the update is given, whatever alpha and timestep are: the
    transformer's own handling of a registered restraint never makes an
    update raise. *)
Theorem update_returns_iff (self self1 : MeldRestraintTransformer.t)
  (state0 state : IState.t) (system system' : System) (topology : Topology)
  (simulation : Simulation.t) (alpha : float) (timestep : Z) :
  constructed self ->
  add_interactions self state0 system topology = (self1, system', Ok system') ->
  (exists self2,
     update self1 state simulation alpha timestep = (self2, Ok tt))
  <-> can_update self state = true.
Proof.
  intros Hcon Hrun.
  destruct (add_interactions_registered _ _ _ _ _ _ Hcon Hrun)
    as (Hreg & Hact & Hinact).
  destruct (add_interactions_keeps _ _ _ _ _ _ _ Hrun) as (Hpm & _ & _ & Ha).
  destruct (active self) eqn:Hact0.
  - destruct (Hact eq_refl) as (Hf & _).
    destruct (add_interactions_laid_out _ _ _ _ _ _ Hact0 Hrun)
      as ([_ _ _ _ _ _ _ _ Hs _] & _).
    destruct Hreg as [Ht Hg Hc _ _ _ _]. simpl in Ht, Hg, Hc.
    rewrite (update_returns_built self1 state simulation alpha timestep _
               Ha Hf).
    unfold update_calls, can_update.
    rewrite !Forall_app, !(Forall_enumerate _ _ _ _
                             (count_refresh_built self1 state _ _)).
    rewrite Hg, Hc, andb_true_iff.
    rewrite <- collection_entries_resolve, <- group_entries_resolve.
    assert (Hentry : forall (X : Type) (na : X -> num_active_t) l,
               Forall (entry_resolves self1 state na) l
               <-> Forall (entry_resolves self state na) l).
    { intros X na l. split; apply Forall_impl; intros [x|]; simpl; trivial;
        now rewrite (resolves_manager self self1 state _ Hpm). }
    rewrite !Hentry. split; [tauto|]. intros [H1 H2].
    split; [|split; [exact H1|split; [exact H2|]]].
    + apply refresh_built. intros k rest Hin. rewrite Ht in Hin.
      apply filter_In in Hin. rewrite Forall_forall in Hs.
      now apply Hs.
    + repeat constructor. now eexists.
  - destruct (Hinact eq_refl) as (-> & _).
    destruct Hcon as (_ & _ & Hb). rewrite Hact0 in Hb.
    symmetry in Hb. apply orb_false_iff in Hb. destruct Hb as [_ Hsel].
    unfold can_update, update. rewrite Hact0.
    destruct (selective_on self); [|discriminate]. simpl.
    split; eauto.
Qed.

(* ================================================================== *)
(** * The worked configuration, registered and updated *)
(* ================================================================== *)

Lemma sample_ungrouped_fails :
  add_interactions sample_ungrouped sample_state [] tt
  = (fst (fst (add_interactions sample_ungrouped sample_state [] tt)),
     [], Raise (UnboundLocalError "group")).
Proof. vm_compute. reflexivity. Qed.

Lemma groups_partition_restraints_witness :
  active sample_transformer = true
  /\ add_interactions sample_transformer sample_state [] tt
     = (sample_registered, sample_system, Ok sample_system)
  /\ group_members (calls_on sample_registered)
     = iota (n_restraints (calls_on sample_registered))
  /\ n_groups (calls_on sample_registered) = 1 + 2.
Proof.
  split; [reflexivity|]. split; [exact sample_add_interactions|].
  destruct (groups_partition_restraints sample_transformer sample_registered
              sample_state [] sample_system tt eq_refl
              sample_add_interactions) as (H1 & _ & _ & H4 & _).
  split; [exact H1|exact H4].
Defined.

Lemma add_interactions_succeeds_iff_witness :
  active sample_transformer = true
  /\ can_register sample_transformer sample_state = true
  /\ (exists self' system',
        add_interactions sample_transformer sample_state [] tt
        = (self', system', Ok system'))
  /\ active sample_ungrouped = true
  /\ can_register sample_ungrouped sample_state = false
  /\ ~ (exists self' system',
          add_interactions sample_ungrouped sample_state [] tt
          = (self', system', Ok system')).
Proof.
  split; [reflexivity|]. split; [reflexivity|]. split.
  { apply (add_interactions_succeeds_iff sample_transformer sample_state []
             tt eq_refl). reflexivity. }
  split; [reflexivity|]. split; [reflexivity|].
  intros H.
  apply (add_interactions_succeeds_iff sample_ungrouped sample_state [] tt
           eq_refl) in H.
  discriminate H.
Defined.

Lemma empty_first_collection_is_unbound_witness :
  active sample_ungrouped = true
  /\ forallb serializable (always_on sample_ungrouped) = true
  /\ selective_on sample_ungrouped
     = [sample_empty_collection; sample_collection]
  /\ SelectivelyActiveCollection.groups sample_empty_collection = []
  /\ exists self',
       add_interactions sample_ungrouped sample_state [] tt
       = (self', [], Raise (UnboundLocalError "group"))
       /\ force self' = None
       /\ tracked KDistance (tracker self') = [Distance sample_distance].
Proof.
  split; [reflexivity|]. split; [reflexivity|]. split; [reflexivity|].
  split; [reflexivity|].
  destruct (empty_first_collection_is_unbound sample_ungrouped sample_state
              [] tt sample_empty_collection [sample_collection]
              eq_refl eq_refl eq_refl eq_refl) as (self' & H1 & H2 & H3).
  exists self'. split; [exact H1|]. split; [exact H2|exact (H3 KDistance)].
Defined.

Lemma add_interactions_appends_to_tracker_witness :
  active sample_transformer = true
  /\ add_interactions sample_transformer sample_state [] tt
     = (sample_registered, sample_system, Ok sample_system)
  /\ groups (tracker sample_registered)
     = [] ++ group_entries sample_transformer
  /\ forall (state2 : IState.t) (system2 : System)
            (self2 : MeldRestraintTransformer.t),
       add_interactions sample_registered state2 sample_system tt
       = (self2, system2, Ok system2) ->
       tracked KTorsion (tracker self2)
       = [] ++ [Torsion sample_torsion; Torsion sample_torsion]
            ++ [Torsion sample_torsion; Torsion sample_torsion].
Proof.
  split; [reflexivity|]. split; [exact sample_add_interactions|].
  destruct (add_interactions_appends_to_tracker sample_transformer
              sample_registered sample_state [] sample_system tt eq_refl
              sample_add_interactions) as (_ & H2 & _ & H4).
  split; [exact H2|].
  intros state2 system2 self2 Hrun.
  exact (proj1 (H4 state2 system2 self2 Hrun) KTorsion).
Defined.

Lemma update_without_force_witness :
  active sample_transformer = true
  /\ force sample_transformer = None
  /\ exists e,
       update sample_transformer sample_state (Simulation.mk 7) 0.5%float 10
       = (sample_transformer, Raise e)
       /\ (tracker sample_transformer = _RestraintTracker.__init__ ->
           e = AttributeError "force").
Proof.
  split; [reflexivity|]. split; [reflexivity|].
  exact (update_without_force sample_transformer sample_state
           (Simulation.mk 7) 0.5%float 10 eq_refl eq_refl).
Defined.

Lemma update_call_sequence_witness :
  active sample_registered = true
  /\ force sample_registered = Some (calls_on sample_registered)
  /\ update sample_registered sample_state (Simulation.mk 7) 0.5%float 10
     = (sample_updated, Ok tt)
  /\ exists body,
       force sample_updated
       = Some (calls_on sample_registered ++ body
               ++ [recompute (Simulation.mk 7)])
       /\ length body
          = n_tracked (tracker sample_registered)
            + n_live (collections (tracker sample_registered))
            + n_live (groups (tracker sample_registered)).
Proof.
  split; [reflexivity|]. split; [reflexivity|].
  split; [exact sample_update_returns|].
  destruct (update_call_sequence sample_registered sample_updated
              sample_state (Simulation.mk 7) 0.5%float 10
              (calls_on sample_registered) (Ok tt) eq_refl eq_refl
              sample_update_returns) as (body & _ & H).
  exists body. exact H.
Defined.

Lemma updates_address_created_witness :
  constructed sample_transformer
  /\ add_interactions sample_transformer sample_state [] tt
     = (sample_registered, sample_system, Ok sample_system)
  /\ exists calls,
       calls_on (run_updates sample_registered
                   [(sample_state, Simulation.mk 7, 0.5%float, 10%Z)])
       = calls_on sample_registered ++ calls
       /\ Forall (addresses_created (calls_on sample_registered)) calls.
Proof.
  assert (Hc : constructed sample_transformer)
    by (repeat split; reflexivity).
  split; [exact Hc|]. split; [exact sample_add_interactions|].
  exact (updates_address_created sample_transformer sample_registered
           sample_state [] sample_system tt
           [(sample_state, Simulation.mk 7, 0.5%float, 10%Z)] Hc
           sample_add_interactions).
Defined.

Lemma update_sets_counts_witness :
  constructed sample_transformer
  /\ add_interactions sample_transformer sample_state [] tt
     = (sample_registered, sample_system, Ok sample_system)
  /\ update sample_registered sample_state (Simulation.mk 7) 0.5%float 10
     = (sample_updated, Ok tt)
  /\ nth_error (collection_entries sample_transformer) 1
     = Some (Some sample_collection)
  /\ exists n,
       _handle_num_active sample_transformer
         (SelectivelyActiveCollection.num_active sample_collection)
         sample_state = Ok n
       /\ nth_error (collection_counts (calls_on sample_updated)) 1 = Some n.
Proof.
  assert (Hc : constructed sample_transformer)
    by (repeat split; reflexivity).
  split; [exact Hc|]. split; [exact sample_add_interactions|].
  split; [exact sample_update_returns|]. split; [reflexivity|].
  exact (proj2 (update_sets_counts sample_transformer sample_registered
                  sample_updated sample_state sample_state [] sample_system
                  tt (Simulation.mk 7) 0.5%float 10 Hc
                  sample_add_interactions sample_update_returns)
           1 sample_collection eq_refl).
Defined.

Lemma add_interactions_raises_witness :
  add_interactions sample_ungrouped sample_state [] tt
  = (fst (fst (add_interactions sample_ungrouped sample_state [] tt)),
     [], Raise (UnboundLocalError "group"))
  /\ force (fst (fst (add_interactions sample_ungrouped sample_state [] tt)))
     = force sample_ungrouped
  /\ (raised_by sample_ungrouped sample_state
        (registration_order sample_ungrouped)
        (all_groups (selective_on sample_ungrouped))
        (UnboundLocalError "group")
      \/ (first_has_group (selective_on sample_ungrouped) = false
          /\ UnboundLocalError "group" = UnboundLocalError "group")).
Proof.
  split; [exact sample_ungrouped_fails|].
  exact (proj2 (add_interactions_raises sample_ungrouped _ sample_state []
                  [] tt _ sample_ungrouped_fails)).
Defined.

Lemma update_returns_iff_witness :
  constructed sample_transformer
  /\ add_interactions sample_transformer sample_state [] tt
     = (sample_registered, sample_system, Ok sample_system)
  /\ can_update sample_transformer sample_state = true
  /\ exists self2,
       update sample_registered sample_state (Simulation.mk 7) 0.5%float 10
       = (self2, Ok tt).
Proof.
  assert (Hc : constructed sample_transformer)
    by (repeat split; reflexivity).
  split; [exact Hc|]. split; [exact sample_add_interactions|].
  split; [reflexivity|].
  apply (update_returns_iff sample_transformer sample_registered sample_state
           sample_state [] sample_system tt (Simulation.mk 7) 0.5%float 10
           Hc sample_add_interactions).
  reflexivity.
Defined.
